(** * OpenSlides datastore service: write pipeline and migration engine

    A shallow embedding of
    - [datastore/writer/postgresql_backend/sql_database_backend_service.py]
    - [datastore/migrations/core/base_migration.py]
    - [datastore/migrations/core/migration_reader.py]
    together with the properties of these modules stated in the
    specification of the repository.

    Conventions.  A Python [str] is a [string] (one character per [ascii]),
    a Python [int] is a [Z], a [dict] whose iteration order is irrelevant is
    a [gmap], a [dict] whose iteration order reaches the database is an
    association list in insertion order.  A method that talks to the
    database is a function from the database state to the new state and
    either the raised exception or the returned value: a raised exception
    keeps the statements already executed, as the open transaction does. *)

From stdpp Require Import gmap strings list fin_maps sorting.
From Stdlib Require Import ZArith Lia Ascii.

Open Scope Z_scope.

(** ** Shared vocabulary *)

Abbreviation Fqid := string (only parsing).
Abbreviation Collection := string (only parsing).
Abbreviation Field := string (only parsing).
Abbreviation Id := Z (only parsing).
Abbreviation Position := Z (only parsing).

(** [datastore.shared.typing.JSON]: any JSON value. *)
#[warnings="-register-all"]
Inductive JSON : Type :=
  | JNull
  | JBool (b : bool)
  | JInt (z : Z)
  | JString (s : string)
  | JArray (l : list JSON)
  | JObject (o : list (string * JSON)).

(** [Model = Dict[str, Any]]. *)
Abbreviation Model := (gmap string JSON) (only parsing).

(** [EVENT_TYPE] of [datastore.shared.postgresql_backend]; a [str] enum, so
    that [event.type == "create"] and [event.type == EVENT_TYPE.CREATE]
    agree.  The members are the five event kinds of the data model. *)
Inductive EVENT_TYPE : Type :=
  | CREATE
  | UPDATE
  | DELETE
  | DELETE_FIELDS
  | LIST_FIELDS.

#[global] Instance EVENT_TYPE_eq_dec : EqDecision EVENT_TYPE.
Proof. solve_decision. Defined.

(** The exceptions the embedded code raises.  The message of an exception is
    not modelled. *)
Inductive Exception : Type :=
  | BadCodingError
  | InvalidFormat
  | MigrationSetupException
  | KeyError
  | IndexError
  | ModelDoesNotExist (fqid : Fqid)
  | TranslationError (reason : string)
  | TypeError
  | ValueError.

#[global] Instance Exception_eq_dec : EqDecision Exception.
Proof. solve_decision. Defined.

(** Constants of [datastore.shared.util]. *)
Definition META_DELETED : Field := "meta_deleted".
Definition META_POSITION : Field := "meta_position".

(** ** The persisted layout *)

Module Db.

(** [positions(position pk, timestamp, migration_index, user_id, information)] *)
Record PositionRow : Type := mkPositionRow {
  pos_position : Position;
  pos_timestamp : Z;
  pos_migration_index : Z;
  pos_user_id : Z;
  pos_information : JSON
}.

(** [models(fqid pk, data, deleted)], keyed by fqid. *)
Record ModelRow : Type := mkModelRow {
  model_data : JSON;
  model_deleted : JSON
}.

(** [events(id pk, position, fqid, type, data, weight)] *)
Record EventRow : Type := mkEventRow {
  ev_id : Z;
  ev_position : Position;
  ev_fqid : Fqid;
  ev_type : EVENT_TYPE;
  ev_data : JSON;
  ev_weight : Z
}.

(** [collectionfields(id pk, collectionfield unique, position)] *)
Record CollectionfieldRow : Type := mkCollectionfieldRow {
  cf_id : Z;
  cf_collectionfield : string;
  cf_position : Position
}.

(** The tables, the three serial sequences (each holds the value the next
    insert receives) and the clock behind [current_timestamp]. *)
Record Database : Type := mkDatabase {
  positions : list PositionRow;
  positions_position_seq : Z;
  models : gmap string ModelRow;
  events : list EventRow;
  events_id_seq : Z;
  collectionfields : list CollectionfieldRow;
  collectionfields_id_seq : Z;
  events_to_collectionfields : list (Z * Z);
  id_sequences : gmap string Z;
  current_timestamp : Z
}.

Definition set_id_sequences (f : gmap string Z → gmap string Z) (db : Database) : Database :=
  mkDatabase (positions db) (positions_position_seq db) (models db) (events db)
    (events_id_seq db) (collectionfields db) (collectionfields_id_seq db)
    (events_to_collectionfields db) (f (id_sequences db)) (current_timestamp db).

Definition set_models (f : gmap string ModelRow → gmap string ModelRow) (db : Database) : Database :=
  mkDatabase (positions db) (positions_position_seq db) (f (models db)) (events db)
    (events_id_seq db) (collectionfields db) (collectionfields_id_seq db)
    (events_to_collectionfields db) (id_sequences db) (current_timestamp db).

Definition set_positions (rows : list PositionRow) (next : Z) (db : Database) : Database :=
  mkDatabase rows next (models db) (events db)
    (events_id_seq db) (collectionfields db) (collectionfields_id_seq db)
    (events_to_collectionfields db) (id_sequences db) (current_timestamp db).

Definition set_events (rows : list EventRow) (next : Z) (db : Database) : Database :=
  mkDatabase (positions db) (positions_position_seq db) (models db) rows
    next (collectionfields db) (collectionfields_id_seq db)
    (events_to_collectionfields db) (id_sequences db) (current_timestamp db).

Definition set_collectionfields (rows : list CollectionfieldRow) (next : Z) (db : Database) : Database :=
  mkDatabase (positions db) (positions_position_seq db) (models db) (events db)
    (events_id_seq db) rows next
    (events_to_collectionfields db) (id_sequences db) (current_timestamp db).

Definition set_events_to_collectionfields (rows : list (Z * Z)) (db : Database) : Database :=
  mkDatabase (positions db) (positions_position_seq db) (models db) (events db)
    (events_id_seq db) (collectionfields db) (collectionfields_id_seq db)
    rows (id_sequences db) (current_timestamp db).

End Db.

Import Db.

(** ** Database computations

    [M A]: run against a database, get the database after the statements
    executed so far, and the exception raised or the value returned. *)

Definition M (A : Type) : Type := Database → Database * (Exception + A).

Definition ret {A} (a : A) : M A := λ db, (db, inr a).
Definition raise {A} (e : Exception) : M A := λ db, (db, inl e).
Definition bind {A B} (c : M A) (k : A → M B) : M B :=
  λ db, match c db with
        | (db', inl e) => (db', inl e)
        | (db', inr a) => k a db'
        end.

Notation "x <-- c ;; k" := (bind c (λ x, k))
  (at level 100, c at next level, right associativity).
Notation "c ;;; k" := (bind c (λ _, k))
  (at level 100, right associativity).

(** Lifting of a computation that does not touch the database. *)
Definition lift {A} (r : Exception + A) : M A := λ db, (db, r).

(** ** [SqlDatabaseBackendService] *)

Definition COLLECTION_MAX_LEN : Z := 32.
Definition FQID_MAX_LEN : Z := 48.
Definition COLLECTIONFIELD_MAX_LEN : Z := 239.

(** Python's [len] on a [str]. *)
Definition len (s : string) : Z := Z.of_nat (String.length s).

(** Python's [l[i]]: a negative index counts from the end; [None] where
    Python raises [IndexError]. *)
Definition py_index {A} (l : list A) (i : Z) : option A :=
  if bool_decide (0 ≤ i) then l !! Z.to_nat i
  else if bool_decide (0 ≤ Z.of_nat (length l) + i) then l !! Z.to_nat (Z.of_nat (length l) + i)
  else None.

(** Python's [range(a, b)] as a list. *)
Definition range (a b : Z) : list Z := seqZ a (b - a).

(** [connection.to_json]: wraps a value for the driver; the column stores
    the same JSON value. *)
Definition to_json (data : JSON) : JSON := data.

(** The statement of [reserve_next_ids]:
    [insert into id_sequences (collection, id) values (%s, %s)
     on conflict(collection) do update
     set id=id_sequences.id + excluded.id - 1 returning id;] *)
Definition sql_reserve_ids (collection : Collection) (excluded_id : Z) : M Z :=
  λ db, match id_sequences db !! collection with
        | None =>
            (set_id_sequences (λ t, <[collection := excluded_id]> t) db, inr excluded_id)
        | Some id =>
            let id' := id + excluded_id - 1 in
            (set_id_sequences (λ t, <[collection := id']> t) db, inr id')
        end.

Definition reserve_next_ids (collection : string) (amount : Z) : M (list Id) :=
  if bool_decide (amount ≤ 0) then raise InvalidFormat
  else if bool_decide (len collection > COLLECTION_MAX_LEN) || bool_decide (collection = ""%string)
  then raise InvalidFormat
  else
    new_max_id <-- sql_reserve_ids collection (amount + 1) ;;
    ret (range (new_max_id - amount) new_max_id).

(** *** Exceptions without database access *)

Definition ebind {A B} (r : Exception + A) (k : A → Exception + B) : Exception + B :=
  match r with
  | inl e => inl e
  | inr a => k a
  end.

Notation "x <-? c ;; k" := (ebind c (λ x, k))
  (at level 100, c at next level, right associativity).

(** *** Collaborators of the write pipeline

    [BaseDbEvent] (module [db_events]), [EventTranslator], [ReadDatabase]
    and the key transforms of [datastore.shared.util] are interfaces the
    service is given; the pipeline is stated over any implementation. *)

Class BaseDbEvent (E : Type) : Type := {
  db_fqid : E → Fqid;
  db_event_type : E → EVENT_TYPE;
  get_event_data : E → JSON;
  (** [get_modified_fields()]: a dict, in its iteration order *)
  get_modified_fields : E → list (Field * JSON);
  (** [isinstance(db_event, DbCreateEvent)] *)
  is_DbCreateEvent : E → bool
}.

Class WriterServices (R E : Type) : Type := {
  (** [BaseRequestEvent.fqid] *)
  request_fqid : R → Fqid;
  (** [event_translator.translate(event, models)] *)
  translate : R → gmap string (gmap string JSON) → Exception + list E;
  (** [db_events.apply_event_to_models(event, models)] *)
  apply_event : E → gmap string (gmap string JSON) → Exception + gmap string (gmap string JSON);
  collection_and_id_from_fqid : Fqid → Exception + (Collection * Id);
  collectionfield_from_fqid_and_field : Fqid → Field → string;
  (** [read_database.get_many(fqids, MappedFields(), ALL_MODELS)] *)
  get_many : Database → gset string → gmap string (gmap string JSON)
}.

(** [EventData = Tuple[Position, Fqid, EVENT_TYPE, JSON, int]] *)
Definition EventData : Type := Position * Fqid * EVENT_TYPE * JSON * Z.

(** [d[key].append(value)] on a [defaultdict(list)], keeping insertion
    order of the keys. *)
Fixpoint defaultdict_append (key : string) (value : Z) (d : list (string * list Z))
  : list (string * list Z) :=
  match d with
  | [] => [(key, [value])]
  | (k, vs) :: d' =>
      if decide (k = key) then (k, vs ++ [value]) :: d'
      else (k, vs) :: defaultdict_append key value d'
  end.

(** [target.update(source)] *)
Definition dict_update (target : gmap string JSON) (source : list (Field * JSON))
  : gmap string JSON :=
  foldl (λ m kv, <[kv.1 := kv.2]> m) target source.

Section SqlDatabaseBackendService.

Context {R E : Type} `{!BaseDbEvent E} `{!WriterServices R E}.

Definition create_position (migration_index : Z) (information : JSON) (user_id : Z)
  : M Position :=
  λ db,
    let position := positions_position_seq db in
    let row := mkPositionRow position (current_timestamp db) migration_index user_id
                 (to_json information) in
    (set_positions (positions db ++ [row]) (position + 1) db, inr position).

Fixpoint collect_fqids (events : list R) (fqids : gset string) : Exception + gset string :=
  match events with
  | [] => inr fqids
  | event :: rest =>
      if bool_decide (len (request_fqid event) > FQID_MAX_LEN) then inl InvalidFormat
      else collect_fqids rest (fqids ∪ {[request_fqid event]})
  end.

Definition get_models_from_events (events : list R) : M (gmap string (gmap string JSON)) :=
  fqids <-- lift (collect_fqids events ∅) ;;
  λ db, (db, inr (get_many db fqids)).

(** The method [apply_event_to_models] of the service. *)
Definition apply_event_to_models (event : E) (models : gmap string (gmap string JSON))
    (position : Position) : Exception + gmap string (gmap string JSON) :=
  models <-? apply_event event models ;;
  match models !! db_fqid event with
  | None => inl KeyError
  | Some model => inr (<[db_fqid event := <[META_POSITION := JInt position]> model]> models)
  end.

Definition get_modified_collectionfields_from_event (event : E) : list string :=
  (λ kv, collectionfield_from_fqid_and_field (db_fqid event) kv.1)
    <$> get_modified_fields event.

(** The local variables of [insert_events] that the loop updates. *)
Record Locals : Type := mkLocals {
  l_weight : Z;
  l_events_data : list EventData;
  l_event_indices_per_modified_collectionfield : list (string * list Z);
  l_max_id_per_collection : gmap string Z;
  l_models : gmap string (gmap string JSON);
  l_modified_models : gmap string (gmap string JSON)
}.

(** The body of [for db_event in db_events]. *)
Definition db_event_body (position : Position) (db_event : E) (st : Locals)
  : Exception + Locals :=
  let weight := l_weight st + 1 in
  let fqid := db_fqid db_event in
  ci <-? collection_and_id_from_fqid fqid ;;
  let events_data :=
    l_events_data st ++
      [(position, fqid, db_event_type db_event, to_json (get_event_data db_event), weight)] in
  let indices :=
    foldl (λ d collectionfield, defaultdict_append collectionfield (weight - 1) d)
      (l_event_indices_per_modified_collectionfield st)
      (get_modified_collectionfields_from_event db_event) in
  let max_id :=
    if is_DbCreateEvent db_event
    then <[ci.1 := Z.max (default 0 (l_max_id_per_collection st !! ci.1)) (ci.2 + 1)]>
           (l_max_id_per_collection st)
    else l_max_id_per_collection st in
  models <-? apply_event_to_models db_event (l_models st) position ;;
  let modified :=
    <[fqid := dict_update (default ∅ (l_modified_models st !! fqid))
                (get_modified_fields db_event)]> (l_modified_models st) in
  inr (mkLocals weight events_data indices max_id models modified).

Fixpoint db_events_loop (position : Position) (db_events : list E) (st : Locals)
  : Exception + Locals :=
  match db_events with
  | [] => inr st
  | db_event :: rest =>
      st' <-? db_event_body position db_event st ;;
      db_events_loop position rest st'
  end.

(** The loop [for event in events]. *)
Fixpoint events_loop (position : Position) (events : list R) (st : Locals)
  : Exception + Locals :=
  match events with
  | [] => inr st
  | event :: rest =>
      db_events <-? translate event (l_models st) ;;
      st' <-? db_events_loop position db_events st ;;
      events_loop position rest st'
  end.

(** [insert into id_sequences (collection, id) values %s
     on conflict(collection) do update
     set id=greatest(id_sequences.id, excluded.id);] *)
Definition update_id_sequences (max_id_per_collection : gmap string Z) : M unit :=
  λ db,
    let upsert (t : gmap string Z) (row : string * Z) :=
      match t !! row.1 with
      | None => <[row.1 := row.2]> t
      | Some id => <[row.1 := Z.max id row.2]> t
      end in
    (set_id_sequences (λ t, foldl upsert t (map_to_list max_id_per_collection)) db, inr ()).

(** The argument list of [write_model_updates]; [model[META_DELETED]]
    raises for a model without the key. *)
Fixpoint model_rows (items : list (string * gmap string JSON))
  : Exception + list (string * ModelRow) :=
  match items with
  | [] => inr []
  | (fqid, model) :: rest =>
      match model !! META_DELETED with
      | None => inl KeyError
      | Some deleted =>
          rows <-? model_rows rest ;;
          inr ((fqid, mkModelRow (to_json (JObject (map_to_list model))) deleted) :: rows)
      end
  end.

(** [insert into models (fqid, data, deleted) values %s
     on conflict(fqid) do update set data=excluded.data, deleted=excluded.deleted;] *)
Definition write_model_updates (models : gmap string (gmap string JSON)) : M unit :=
  rows <-- lift (model_rows (map_to_list models)) ;;
  λ db, (set_models (λ t, foldl (λ t row, <[row.1 := row.2]> t) t rows) db, inr ()).

(** [insert into events (position, fqid, type, data, weight) values %s returning id] *)
Definition event_row (id : Z) (d : EventData) : EventRow :=
  let '(position, fqid, type, data, weight) := d in
  mkEventRow id position fqid type data weight.

Definition write_events (events_data : list EventData) : M (list Z) :=
  λ db,
    let first := events_id_seq db in
    let rows := imap (λ i d, event_row (first + Z.of_nat i) d) events_data in
    (set_events (events db ++ rows) (first + Z.of_nat (length events_data)) db,
     inr (ev_id <$> rows)).

Fixpoint collectionfield_arguments (modified_collectionfields : list string)
    (position : Position) : Exception + list (string * Position) :=
  match modified_collectionfields with
  | [] => inr []
  | collectionfield :: rest =>
      if bool_decide (len collectionfield > COLLECTIONFIELD_MAX_LEN) then inl InvalidFormat
      else
        arguments <-? collectionfield_arguments rest position ;;
        inr ((collectionfield, position) :: arguments)
  end.

(** One row of
    [insert into collectionfields (collectionfield, position) values %s
     on conflict(collectionfield) do update set position=excluded.position
     returning id]:
    the rows after it, the sequence after it and the returned id.  The
    default of the id column draws a value of the sequence for every
    proposed row, also for a row that then conflicts. *)
Fixpoint upsert_collectionfield (collectionfield : string) (position : Position)
    (rows : list CollectionfieldRow) (next : Z) : list CollectionfieldRow * Z * Z :=
  match rows with
  | [] => ([mkCollectionfieldRow next collectionfield position], next + 1, next)
  | row :: rest =>
      if decide (cf_collectionfield row = collectionfield)
      then (mkCollectionfieldRow (cf_id row) collectionfield position :: rest, next + 1,
            cf_id row)
      else
        let '(rest', next', id) := upsert_collectionfield collectionfield position rest next in
        (row :: rest', next', id)
  end.

Fixpoint upsert_collectionfields (arguments : list (string * Position))
    (rows : list CollectionfieldRow) (next : Z) : list CollectionfieldRow * Z * list Z :=
  match arguments with
  | [] => (rows, next, [])
  | (collectionfield, position) :: rest =>
      let '(rows', next', id) := upsert_collectionfield collectionfield position rows next in
      let '(rows'', next'', ids) := upsert_collectionfields rest rows' next' in
      (rows'', next'', id :: ids)
  end.

Definition insert_modified_collectionfields_into_db
    (modified_collectionfields : list string) (position : Position) : M (list Z) :=
  arguments <-- lift (collectionfield_arguments modified_collectionfields position) ;;
  λ db,
    let '(rows, next, ids) :=
      upsert_collectionfields arguments (collectionfields db) (collectionfields_id_seq db) in
    (set_collectionfields rows next db, inr ids).

(** [(event_ids[event_index], collectionfield_id) for event_index in event_indices] *)
Fixpoint link_rows (event_ids : list Z) (collectionfield_id : Z) (event_indices : list Z)
  : Exception + list (Z * Z) :=
  match event_indices with
  | [] => inr []
  | event_index :: rest =>
      match py_index event_ids event_index with
      | None => inl IndexError
      | Some event_id =>
          rows <-? link_rows event_ids collectionfield_id rest ;;
          inr ((event_id, collectionfield_id) :: rows)
      end
  end.

Fixpoint link_arguments (event_ids : list Z) (zipped : list (Z * list Z))
  : Exception + list (Z * Z) :=
  match zipped with
  | [] => inr []
  | (collectionfield_id, event_indices) :: rest =>
      rows <-? link_rows event_ids collectionfield_id event_indices ;;
      more <-? link_arguments event_ids rest ;;
      inr (rows ++ more)
  end.

(** [insert into events_to_collectionfields (event_id, collectionfield_id) values %s] *)
Definition connect_events_and_collection_fields (event_ids collectionfield_ids : list Z)
    (event_indices_order : list (list Z)) : M unit :=
  arguments <-- lift (link_arguments event_ids (zip collectionfield_ids event_indices_order)) ;;
  λ db,
    (set_events_to_collectionfields (events_to_collectionfields db ++ arguments) db, inr ()).

Definition insert_events (events : list R) (migration_index : Z) (information : JSON)
    (user_id : Z) : M (Position * gmap string (gmap string JSON)) :=
  match events with
  | [] => raise BadCodingError
  | _ :: _ =>
      position <-- create_position migration_index information user_id ;;
      models <-- get_models_from_events events ;;
      st <-- lift (events_loop position events (mkLocals 0 [] [] ∅ models ∅)) ;;
      update_id_sequences (l_max_id_per_collection st) ;;;
      write_model_updates (l_models st) ;;;
      event_ids <-- write_events (l_events_data st) ;;
      collectionfield_ids <--
        insert_modified_collectionfields_into_db
          (fst <$> l_event_indices_per_modified_collectionfield st) position ;;
      connect_events_and_collection_fields event_ids collectionfield_ids
        (snd <$> l_event_indices_per_modified_collectionfield st) ;;;
      ret (position, l_modified_models st)
  end.

End SqlDatabaseBackendService.

(** ** Migration events

    Modelled from the spec: the event classes of
    [datastore/migrations/core/events.py], which is not among the sources.
    The data model names five event kinds; [create] and [update] carry a
    field-to-value dict, [delete_fields] a list of fields, [list_update] an
    [add] and a [remove] dict from fields to lists of values, [delete]
    carries nothing. *)
Inductive BaseEvent : Type :=
  | CreateEvent (fqid : Fqid) (data : gmap string JSON)
  | UpdateEvent (fqid : Fqid) (data : gmap string JSON)
  | DeleteFieldsEvent (fqid : Fqid) (data : list Field)
  | ListUpdateEvent (fqid : Fqid) (add remove : gmap string (list JSON))
  | DeleteEvent (fqid : Fqid).

(** [event.fqid] *)
Definition event_fqid (event : BaseEvent) : Fqid :=
  match event with
  | CreateEvent fqid _ | UpdateEvent fqid _ | DeleteFieldsEvent fqid _
  | ListUpdateEvent fqid _ _ | DeleteEvent fqid => fqid
  end.

(** [event.type], a class attribute *)
Definition event_type (event : BaseEvent) : EVENT_TYPE :=
  match event with
  | CreateEvent _ _ => CREATE
  | UpdateEvent _ _ => UPDATE
  | DeleteFieldsEvent _ _ => DELETE_FIELDS
  | ListUpdateEvent _ _ _ => LIST_FIELDS
  | DeleteEvent _ => DELETE
  end.

(** Python's truth value of a dict and of a list. *)
Definition dict_truthy {V} (d : gmap string V) : bool := negb (bool_decide (size d = 0%nat)).
Definition list_truthy {A} (l : list A) : bool :=
  match l with
  | [] => false
  | _ :: _ => true
  end.

(** [d.values()] *)
Definition dict_values {V} (d : gmap string V) : list V := snd <$> map_to_list d.

(** ** [BaseMigration] *)

Record PositionData : Type := mkPositionData {
  pd_position : Z;
  pd_timestamp : Z;
  pd_user_id : Z;
  pd_information : JSON
}.

(** [__init__], for a migration class of the given name and class attribute
    [target_migration_index] (the base class sets it to [-1]); the result is
    the attribute [name] of the instance. *)
Definition BaseMigration_init (class_name : string) (target_migration_index : Z)
  : Exception + string :=
  let name := class_name in
  if bool_decide (target_migration_index = -1) then inl MigrationSetupException
  else inr name.

(** [_set_model_status]: the dict it leaves in [self.model_status]. *)
Definition _set_model_status_step (model_status : gmap string EVENT_TYPE) (event : BaseEvent)
  : gmap string EVENT_TYPE :=
  if bool_decide (event_type event = CREATE ∨ event_type event = DELETE)
     && bool_decide (model_status !! event_fqid event ≠ Some DELETE)
  then <[event_fqid event := event_type event]> model_status
  else model_status.

Definition _set_model_status (events : list BaseEvent) : gmap string EVENT_TYPE :=
  foldl _set_model_status_step ∅ events.

(** [order_events]: the events in the order the generator yields them;
    [events_queue] is the local list of the generator. *)
Fixpoint order_events_from (events : list BaseEvent) (events_queue : list BaseEvent)
  : list BaseEvent :=
  match events with
  | [] => events_queue
  | event :: rest =>
      if bool_decide (event_type event = CREATE) then event :: order_events_from rest events_queue
      else order_events_from rest (events_queue ++ [event])
  end.

Definition order_events (events : list BaseEvent) : list BaseEvent :=
  order_events_from events [].

(** [_filter_noop_events]: the events the generator yields, in order. *)
Fixpoint _filter_noop_events (events : list BaseEvent) : list BaseEvent :=
  match events with
  | [] => []
  | event :: rest =>
      match event with
      | UpdateEvent _ data =>
          if negb (dict_truthy data) then _filter_noop_events rest
          else event :: _filter_noop_events rest
      | ListUpdateEvent _ add remove =>
          if negb (existsb list_truthy (dict_values add ++ dict_values remove))
          then _filter_noop_events rest
          else event :: _filter_noop_events rest
      | DeleteFieldsEvent _ data =>
          if negb (list_truthy data) then _filter_noop_events rest
          else event :: _filter_noop_events rest
      | _ => event :: _filter_noop_events rest
      end
  end.

(** [MigrationKeyframeAccessor] (module [migration_keyframes]) as the
    migration uses it, and the hooks a migration class overrides. *)
Class MigrationKeyframeAccessor (A : Type) : Type := {
  accessor_apply_event : BaseEvent → A → Exception + A;
  model_not_deleted : A → Fqid → bool
}.

Section BaseMigration.

Context {A S : Type} `{!MigrationKeyframeAccessor A}.

(** The attributes of the instance during one position; [members] stands
    for what the subclass keeps on [self]. *)
Record Self : Type := mkSelf {
  old_accessor : A;
  new_accessor : A;
  position_data : PositionData;
  model_status : gmap string EVENT_TYPE;
  members : S
}.

Definition set_members (self : Self) (s : S) : Self :=
  mkSelf (old_accessor self) (new_accessor self) (position_data self) (model_status self) s.
Definition set_old_accessor (self : Self) (a : A) : Self :=
  mkSelf a (new_accessor self) (position_data self) (model_status self) (members self).
Definition set_new_accessor (self : Self) (a : A) : Self :=
  mkSelf (old_accessor self) a (position_data self) (model_status self) (members self).

(** The overridable methods; each may update the members of the subclass. *)
Variable position_init : Self → Exception + S.
Variable migrate_event : Self → BaseEvent → Exception + (S * option (list BaseEvent)).
Variable get_additional_events : Self → Exception + (S * option (list BaseEvent)).

Definition will_exist (self : Self) (fqid : Fqid) : bool :=
  (model_not_deleted (new_accessor self) fqid
   && bool_decide (model_status self !! fqid ≠ Some DELETE))
  || bool_decide (model_status self !! fqid = Some CREATE).

(** [for e in events: new_accessor.apply_event(e)] with the events
    appended to [new_events] one by one where [append] is set. *)
Fixpoint apply_new (append : bool) (events : list BaseEvent) (self : Self)
    (new_events : list BaseEvent) : Exception + (Self * list BaseEvent) :=
  match events with
  | [] => inr (self, new_events)
  | event :: rest =>
      a <-? accessor_apply_event event (new_accessor self) ;;
      apply_new append rest (set_new_accessor self a)
        (if append then new_events ++ [event] else new_events)
  end.

(** The loop [for event in self.order_events(events)] of [migrate]. *)
Fixpoint migrate_loop (ordered : list BaseEvent) (self : Self) (new_events : list BaseEvent)
  : Exception + (Self * list BaseEvent) :=
  match ordered with
  | [] => inr (self, new_events)
  | event :: rest =>
      let old_event := event in
      r <-? migrate_event self event ;;
      let self := set_members self r.1 in
      let translated_events := default [old_event] r.2 in
      let filtered_events := _filter_noop_events translated_events in
      a <-? accessor_apply_event old_event (old_accessor self) ;;
      r' <-? apply_new true filtered_events (set_old_accessor self a) new_events ;;
      migrate_loop rest r'.1 r'.2
  end.

Definition migrate (members0 : S) (events : list BaseEvent) (old_accessor new_accessor : A)
    (position_data : PositionData) : Exception + (Self * list BaseEvent) :=
  let self :=
    mkSelf old_accessor new_accessor position_data (_set_model_status events) members0 in
  s <-? position_init self ;;
  r <-? migrate_loop (order_events events) (set_members self s) [] ;;
  g <-? get_additional_events r.1 ;;
  let additional_events := default [] g.2 in
  r' <-? apply_new false additional_events (set_members r.1 g.1) r.2 ;;
  inr (r'.1, r'.2 ++ additional_events).

End BaseMigration.

Arguments Self : clear implicits.

(** ** [MigrationReaderImplementationMemory]

    [filter_models] (module [datastore.shared.postgresql_backend]) and the
    type of filters are given; [V] is the type of the values of Python that
    a field holds, with [py_None] the value [None]. *)
Section MigrationReaderImplementationMemory.

Context {Filter V : Type}.
Variable filter_models :
  gmap string (gmap string V) → Collection → Filter → gmap Z (gmap string V).
(** Python's builtins [min] and [max] on a list: they raise for an empty
    list and for values that are not ordered. *)
Variable py_min py_max : list V → Exception + V.
Variable py_None : V.

(** The attribute [models] of the reader. *)
Variable models : gmap string (gmap string V).

Definition reader_get (fqid : Fqid) : Exception + gmap string V :=
  match models !! fqid with
  | None => inl (ModelDoesNotExist fqid)
  | Some model => inr model
  end.

Definition reader_filter (collection : Collection) (filter : Filter)
  : gmap Z (gmap string V) :=
  filter_models models collection filter.

Definition reader_count (collection : Collection) (filter : Filter) : Z :=
  Z.of_nat (size (reader_filter collection filter)).

Definition reader_exists (collection : Collection) (filter : Filter) : bool :=
  bool_decide (reader_count collection filter > 0).

(** [[model[field] for model in self.filter(collection, filter).values()
      if field in model]] *)
Definition field_values (collection : Collection) (filter : Filter) (field : Field) : list V :=
  omap (λ model : gmap string V, model !! field)
    (snd <$> map_to_list (reader_filter collection filter)).

(** The value returned is that of [func], or [None] for an empty list of
    values: one Python value in both cases. *)
Definition minmax (collection : Collection) (filter : Filter) (field : Field)
    (func : list V → Exception + V) : Exception + V :=
  let values := field_values collection filter field in
  match values with
  | [] => inr py_None
  | _ :: _ => func values
  end.

Definition reader_min (collection : Collection) (filter : Filter) (field : Field)
  : Exception + V :=
  minmax collection filter field py_min.

Definition reader_max (collection : Collection) (filter : Filter) (field : Field)
  : Exception + V :=
  minmax collection filter field py_max.

Definition model_exists (fqid : Fqid) : bool := bool_decide (is_Some (models !! fqid)).
Definition is_alive (fqid : Fqid) : bool := model_exists fqid.
Definition is_deleted (fqid : Fqid) : bool := false.

End MigrationReaderImplementationMemory.

(** ** Definitions used to state the properties *)

(** The value the id sequence of a collection is at: the next id a
    reservation hands out.  A collection without a row is at 1. *)
Definition sequence_at (db : Database) (collection : Collection) : Z :=
  default 1 (id_sequences db !! collection).

Definition empty_database : Database :=
  mkDatabase [] 1 ∅ [] 1 [] 1 [] ∅ 0.

Section Translation.

Context {R E : Type} `{!BaseDbEvent E} `{!WriterServices R E}.

(** The models after the given low-level events were applied in order. *)
Fixpoint models_after (position : Position) (db_events : list E)
    (models : gmap string (gmap string JSON)) : Exception + gmap string (gmap string JSON) :=
  match db_events with
  | [] => inr models
  | db_event :: rest =>
      models' <-? apply_event_to_models db_event models position ;;
      models_after position rest models'
  end.

(** The translation of each write-intent of a call, in the order of the
    call, each against the models as the earlier ones left them. *)
Fixpoint translations (position : Position) (events : list R)
    (models : gmap string (gmap string JSON)) : Exception + list (list E) :=
  match events with
  | [] => inr []
  | event :: rest =>
      db_events <-? translate event models ;;
      models' <-? models_after position db_events models ;;
      more <-? translations position rest models' ;;
      inr (db_events :: more)
  end.

(** The event data of a run of low-level events whose first weight is [first]. *)
Definition weighted (position : Position) (first : Z) (db_events : list E) : list EventData :=
  imap (λ i db_event,
          (position, db_fqid db_event, db_event_type db_event,
           to_json (get_event_data db_event), first + Z.of_nat i))
       db_events.

End Translation.

(** What the statements around [write_events] leave of the events table. *)
Definition same_events (db db' : Database) : Prop :=
  Db.events db' = Db.events db ∧ events_id_seq db' = events_id_seq db.

(** The rows [write_events] appends for the given event data. *)
Definition rows_from (first_id : Z) (events_data : list EventData) : list EventRow :=
  imap (λ i d, event_row (first_id + Z.of_nat i) d) events_data.

(** The noop rules of the event model, in the words of the specification:
    an update with an empty diff, a list update whose [add] and [remove]
    carry no values for any field, a delete-fields with an empty list. *)
Definition noop (event : BaseEvent) : Prop :=
  match event with
  | UpdateEvent _ data => data = ∅
  | ListUpdateEvent _ add remove =>
      map_Forall (λ _ values, values = []) add
      ∧ map_Forall (λ _ values, values = []) remove
  | DeleteFieldsEvent _ data => data = []
  | CreateEvent _ _ | DeleteEvent _ => False
  end.

#[global] Instance noop_dec (event : BaseEvent) : Decision (noop event).
Proof. destruct event; simpl; apply _. Defined.

Definition is_create (event : BaseEvent) : bool := bool_decide (event_type event = CREATE).

(** An fqid has an event of the given type among the events. *)
Definition has_event (type : EVENT_TYPE) (fqid : Fqid) (events : list BaseEvent) : Prop :=
  ∃ event, event ∈ events ∧ event_type event = type ∧ event_fqid event = fqid.

(** A migration index is a schema version number; the weakest reading of
    a valid one is a non-negative integer. *)
Definition valid_index (target_migration_index : Z) : Prop := 0 ≤ target_migration_index.

(** ** A small implementation of the collaborators

    Write-intents that create models, translated one to one; used to run
    the pipeline on concrete requests. *)
Module Demo.

Record CreateRequest : Type := mkCreateRequest {
  cr_fqid : Fqid;
  cr_fields : list (Field * JSON)
}.

(** [fqid.split("/")] for an fqid with one separator. *)
Fixpoint split_fqid (fqid : string) : option (string * string) :=
  match fqid with
  | EmptyString => None
  | String c rest =>
      if decide (c = "/"%char) then Some (EmptyString, rest)
      else (λ p : string * string, (String c p.1, p.2)) <$> split_fqid rest
  end.

Fixpoint read_int (digits : string) (acc : Z) : option Z :=
  match digits with
  | EmptyString => Some acc
  | String c rest =>
      let n := Z.of_nat (nat_of_ascii c) - 48 in
      if bool_decide (0 ≤ n ≤ 9) then read_int rest (10 * acc + n) else None
  end.

Definition parse_fqid (fqid : Fqid) : Exception + (Collection * Id) :=
  match split_fqid fqid with
  | None => inl IndexError
  | Some (collection, digits) =>
      match read_int digits 0 with
      | None => inl IndexError
      | Some id => inr (collection, id)
      end
  end.

Definition decode_model (row : ModelRow) : option (gmap string JSON) :=
  match model_data row with
  | JObject o => Some (list_to_map o)
  | _ => None
  end.

#[export] Instance create_db_event : BaseDbEvent CreateRequest := {
  db_fqid := cr_fqid;
  db_event_type := λ _, CREATE;
  get_event_data := λ e, JObject (cr_fields e);
  get_modified_fields := cr_fields;
  is_DbCreateEvent := λ _, true
}.

#[export] Instance services : WriterServices CreateRequest CreateRequest := {
  request_fqid := cr_fqid;
  translate := λ event models,
    match models !! cr_fqid event with
    | Some _ => inl (TranslationError "model exists")
    | None => inr [event]
    end;
  apply_event := λ e models,
    inr (<[cr_fqid e := <[META_DELETED := JBool false]> (list_to_map (cr_fields e))]> models);
  collection_and_id_from_fqid := parse_fqid;
  collectionfield_from_fqid_and_field := λ fqid field,
    match split_fqid fqid with
    | Some (collection, _) => collection +:+ "/" +:+ field
    | None => fqid +:+ "/" +:+ field
    end;
  get_many := λ db fqids,
    omap decode_model (filter (λ kv : string * ModelRow, kv.1 ∈ fqids) (models db))
}.

Definition motion (id : string) (title : string) : CreateRequest :=
  mkCreateRequest ("motion/" +:+ id) [("title"%string, JString title)].

(** An fqid of 49 characters. *)
Definition oversized : CreateRequest :=
  mkCreateRequest "motion/000000000000000000000000000000000000000001" [].

(** A [filter_models] that selects the models of the collection and
    ignores the filter. *)
Definition by_collection {V} (models : gmap string (gmap string V)) (collection : Collection)
    (_ : unit) : gmap Z (gmap string V) :=
  list_to_map
    (omap (M := list) (λ kv : string * gmap string V,
             match parse_fqid kv.1 with
             | inr (c, id) => if decide (c = collection) then Some (id, kv.2) else None
             | inl _ => None
             end)
          (map_to_list models)).

(** The builtins [min] and [max] on values that are an integer or [None]:
    a list of one value gives that value, also [None]; [None] is not
    ordered with anything. *)
Definition pick (choose : Z → Z → Z) (a : Exception + option Z) (b : option Z)
  : Exception + option Z :=
  match a, b with
  | inr (Some x), Some y => inr (Some (choose x y))
  | inr _, _ => inl TypeError
  | inl e, _ => inl e
  end.

Definition min_of (values : list (option Z)) : Exception + option Z :=
  match values with
  | [] => inl ValueError
  | value :: rest => foldl (pick Z.min) (inr value) rest
  end.

Definition max_of (values : list (option Z)) : Exception + option Z :=
  match values with
  | [] => inl ValueError
  | value :: rest => foldl (pick Z.max) (inr value) rest
  end.

(** A keyframe accessor that records the fqids that are alive. *)
#[export] Instance alive_set : MigrationKeyframeAccessor (gset string) := {
  accessor_apply_event := λ event alive,
    match event with
    | CreateEvent fqid _ => inr (alive ∪ {[fqid]})
    | DeleteEvent fqid => inr (alive ∖ {[fqid]})
    | _ => inr alive
    end;
  model_not_deleted := λ alive fqid, bool_decide (fqid ∈ alive)
}.

End Demo.

(** ** Further methods of [SqlDatabaseBackendService] *)

(** The operator [||] of jsonb: two objects give the object with the keys
    of both, the value of the right one where both have the key; two arrays
    are concatenated; any other operand counts as an array of one element. *)
Definition jsonb_concat (a b : JSON) : JSON :=
  match a, b with
  | JObject x, JObject y =>
      JObject (map_to_list (list_to_map y ∪ list_to_map x : gmap string JSON))
  | JArray x, JArray y => JArray (x ++ y)
  | JArray x, _ => JArray (x ++ [b])
  | _, JArray y => JArray (a :: y)
  | _, _ => JArray [a; b]
  end.

(** [insert into models (fqid, data, deleted) values %s
     on conflict(fqid) do update
     set data=models.data || excluded.data, deleted=excluded.deleted;] *)
Definition upsert_action_worker (t : gmap string ModelRow) (row : string * ModelRow)
  : gmap string ModelRow :=
  match t !! row.1 with
  | None => <[row.1 := row.2]> t
  | Some old =>
      <[row.1 := mkModelRow (jsonb_concat (model_data old) (model_data row.2))
                   (model_deleted row.2)]> t
  end.

Definition write_model_updates_action_worker (models : gmap string (gmap string JSON))
  : M unit :=
  rows <-- lift (model_rows (map_to_list models)) ;;
  λ db, (set_models (λ t, foldl upsert_action_worker t rows) db, inr ()).

(** [UPDATE positions SET information = NULL;]  The NULL of the column is
    rendered as [JNull]. *)
Definition delete_history_information : M unit :=
  λ db,
    let clear (row : PositionRow) :=
      mkPositionRow (pos_position row) (pos_timestamp row) (pos_migration_index row)
        (pos_user_id row) JNull in
    (set_positions (clear <$> positions db) (positions_position_seq db) db, inr ()).

(** The tables of the persisted layout. *)
Inductive Table : Type :=
  | T_positions
  | T_events
  | T_id_sequences
  | T_collectionfields
  | T_events_to_collectionfields
  | T_models.

(** Modelled from the spec: the constant [ALL_TABLES] of
    [datastore.shared.postgresql_backend], which is not among the sources;
    [truncate_db] erases all tables, so it lists every table of the
    persisted layout. *)
Definition ALL_TABLES : list Table :=
  [T_positions; T_events; T_id_sequences; T_collectionfields;
   T_events_to_collectionfields; T_models].

(** [DELETE FROM {table} CASCADE;] *)
Definition delete_from (table : Table) : M unit :=
  λ db,
    (match table with
     | T_positions => set_positions [] (positions_position_seq db) db
     | T_events => set_events [] (events_id_seq db) db
     | T_id_sequences => set_id_sequences (λ _, ∅) db
     | T_collectionfields => set_collectionfields [] (collectionfields_id_seq db) db
     | T_events_to_collectionfields => set_events_to_collectionfields [] db
     | T_models => set_models (λ _, ∅) db
     end, inr ()).

(** The sequences [truncate_db] restarts. *)
Inductive Sequence : Type :=
  | positions_position
  | events_id
  | collectionfields_id.

(** [ALTER SEQUENCE {seq}_seq RESTART WITH 1;] *)
Definition restart_sequence (seq : Sequence) : M unit :=
  λ db,
    (match seq with
     | positions_position => set_positions (positions db) 1 db
     | events_id => set_events (Db.events db) 1 db
     | collectionfields_id => set_collectionfields (collectionfields db) 1 db
     end, inr ()).

(** [for x in xs: body(x)] *)
Fixpoint for_each {X} (body : X → M unit) (xs : list X) : M unit :=
  match xs with
  | [] => ret ()
  | x :: rest => body x ;;; for_each body rest
  end.

Definition truncate_db : M unit :=
  for_each delete_from ALL_TABLES ;;;
  for_each restart_sequence [positions_position; events_id; collectionfields_id].

(** ** Further methods of the migration readers *)

(** [GetManyRequestPart] of [datastore.reader.core.requests]. *)
Record GetManyRequestPart : Type := mkGetManyRequestPart {
  gm_collection : Collection;
  gm_ids : list Id;
  gm_mapped_fields : list Field
}.

Section MigrationReaderImplementationMemoryGetMany.

Context {V : Type}.
(** [fqid_from_collection_and_id] of [datastore.shared.util.key_transforms] *)
Variable fqid_from_collection_and_id : Collection → Id → Fqid.
Variable models : gmap string (gmap string V).

(** The body of [for id in request.ids]; [result] is a [defaultdict(dict)]. *)
Definition get_many_id (collection : Collection) (result : gmap string (gmap Z (gmap string V)))
    (id : Id) : gmap string (gmap Z (gmap string V)) :=
  match models !! fqid_from_collection_and_id collection id with
  | Some model => <[collection := <[id := model]> (default ∅ (result !! collection))]> result
  | None => result
  end.

Definition get_many_request (result : gmap string (gmap Z (gmap string V)))
    (request : GetManyRequestPart) : gmap string (gmap Z (gmap string V)) :=
  foldl (get_many_id (gm_collection request)) result (gm_ids request).

Definition reader_get_many (requests : list GetManyRequestPart)
  : gmap string (gmap Z (gmap string V)) :=
  foldl get_many_request ∅ requests.

End MigrationReaderImplementationMemoryGetMany.

(** [MigrationReaderImplementation]: the three status methods, over the
    [get_deleted_status] of the read database. *)
Module MigrationReaderImplementation.

Section Status.

Variable get_deleted_status : list Fqid → gmap string bool.

(** [status.get(fqid) is False] *)
Definition is_alive (fqid : Fqid) : bool :=
  let status := get_deleted_status [fqid] in
  bool_decide (status !! fqid = Some false).

(** [status.get(fqid) is True] *)
Definition is_deleted (fqid : Fqid) : bool :=
  let status := get_deleted_status [fqid] in
  bool_decide (status !! fqid = Some true).

(** [fqid in status] *)
Definition model_exists (fqid : Fqid) : bool :=
  let status := get_deleted_status [fqid] in
  bool_decide (is_Some (status !! fqid)).

End Status.

End MigrationReaderImplementation.

(** ** Definitions used to state the further properties *)

Section AccessorRuns.

Context {A : Type} `{!MigrationKeyframeAccessor A}.

(** The accessor after [apply_event] was called with each event in turn. *)
Fixpoint apply_events (events : list BaseEvent) (a : A) : Exception + A :=
  match events with
  | [] => inr a
  | event :: rest =>
      a' <-? accessor_apply_event event a ;;
      apply_events rest a'
  end.

End AccessorRuns.

(** A model row holds an object; its fields as a dict. *)
Definition row_fields (row : ModelRow) : option (gmap string JSON) :=
  match model_data row with
  | JObject o => Some (list_to_map o)
  | _ => None
  end.

(** The pairs of a collectionfield and an event index that the dict of
    [insert_events] holds. *)
Definition index_pairs (d : list (string * list Z)) : list (string * Z) :=
  d ≫= λ kv, (λ i, (kv.1, i)) <$> kv.2.

(** The id of the row of a collectionfield. *)
Definition collectionfield_id (rows : list CollectionfieldRow) (collectionfield : string)
  : option Z :=
  cf_id <$> head (filter (λ row, cf_collectionfield row = collectionfield) rows).

(** Hooks of a migration that changes nothing: [position_init] does
    nothing, [migrate_event] and [get_additional_events] return [None]. *)
Module Passthrough.

Definition position_init {A} `{!MigrationKeyframeAccessor A} (self : Self A unit)
  : Exception + unit := inr ().
Definition migrate_event {A} `{!MigrationKeyframeAccessor A} (self : Self A unit)
    (event : BaseEvent) : Exception + (unit * option (list BaseEvent)) := inr ((), None).
Definition get_additional_events {A} `{!MigrationKeyframeAccessor A} (self : Self A unit)
  : Exception + (unit * option (list BaseEvent)) := inr ((), None).

End Passthrough.

Section LocalsAfter.

Context {R E : Type} `{!BaseDbEvent E} `{!WriterServices R E}.

(** The three dicts of [insert_events] after the loop body ran for the
    given low-level events, the first of them with the given index. *)
Fixpoint indices_after (index : Z) (d : list (string * list Z)) (db_events : list E)
  : list (string * list Z) :=
  match db_events with
  | [] => d
  | db_event :: rest =>
      indices_after (index + 1)
        (foldl (λ d collectionfield, defaultdict_append collectionfield index d) d
           (get_modified_collectionfields_from_event db_event))
        rest
  end.

Definition max_id_step (max_id : gmap string Z) (db_event : E) : gmap string Z :=
  match collection_and_id_from_fqid (db_fqid db_event) with
  | inr ci =>
      if is_DbCreateEvent db_event
      then <[ci.1 := Z.max (default 0 (max_id !! ci.1)) (ci.2 + 1)]> max_id
      else max_id
  | inl _ => max_id
  end.

Definition modified_step (modified : gmap string (gmap string JSON)) (db_event : E)
  : gmap string (gmap string JSON) :=
  <[db_fqid db_event := dict_update (default ∅ (modified !! db_fqid db_event))
                          (get_modified_fields db_event)]> modified.

(** The locals with which the loop of [insert_events] starts. *)
Definition initial_locals (models : gmap string (gmap string JSON)) : Locals :=
  mkLocals 0 [] [] ∅ models ∅.

(** The models [insert_events] prefetches, read after the position row
    was inserted. *)
Definition prefetched (events : list R) (migration_index : Z) (information : JSON)
    (user_id : Z) (db : Database) : gmap string (gmap string JSON) :=
  get_many (create_position migration_index information user_id db).1
    (list_to_set (request_fqid <$> events)).

End LocalsAfter.

(** Two lookups into the result of [get_many]. *)
Definition lookup2 {V} (result : gmap string (gmap Z V)) (collection : Collection) (id : Id)
  : option V :=
  result !! collection ≫= λ inner, inner !! id.

(** The entries of a result of [get_many] are models of the table, and no
    collection of it is empty. *)
Definition get_many_result_ok {V} (fqid_from_collection_and_id : Collection → Id → Fqid)
    (models : gmap string (gmap string V)) (result : gmap string (gmap Z (gmap string V)))
  : Prop :=
  (∀ collection id model, lookup2 result collection id = Some model →
     models !! fqid_from_collection_and_id collection id = Some model)
  ∧ (∀ collection inner, result !! collection = Some inner → inner ≠ ∅).

(** Runs of the pipeline with the collaborators of [Demo]. *)
Module DemoRuns.

Import Demo.

Definition two_motions : list CreateRequest := [motion "1" "a"; motion "2" "b"].


(** A field of 240 characters. *)
Definition long_field : string :=
  foldr String.append EmptyString (replicate 24 "0123456789"%string).

Definition long_request : list CreateRequest :=
  [mkCreateRequest "motion/1" [(long_field, JInt 1)]].

(** The collaborators of [Demo] with a model projection that does not set
    [meta_deleted]. *)
Definition services_without_meta_deleted : WriterServices CreateRequest CreateRequest := {|
  request_fqid := cr_fqid;
  translate := λ event models, inr [event];
  apply_event := λ e models, inr (<[cr_fqid e := list_to_map (cr_fields e)]> models);
  collection_and_id_from_fqid := parse_fqid;
  collectionfield_from_fqid_and_field := λ fqid field, fqid +:+ "/" +:+ field;
  get_many := λ db fqids, ∅
|}.

(** The locals at the end of the loop of [insert_events] for the runs on
    the empty database. *)
Definition locals_of (r : Exception + Locals) : Locals :=
  match r with
  | inr st => st
  | inl _ => mkLocals 0 [] [] ∅ ∅ ∅
  end.

Definition two_motions_locals : Locals :=
  Eval vm_compute in locals_of (events_loop 1 two_motions (initial_locals ∅)).

Definition long_request_locals : Locals :=
  Eval vm_compute in locals_of (events_loop 1 long_request (initial_locals ∅)).

Definition without_meta_deleted_locals : Locals :=
  Eval vm_compute in
    locals_of (events_loop (WriterServices0 := services_without_meta_deleted) 1 two_motions
                 (initial_locals ∅)).

End DemoRuns.

(** ** The calls of [migrate]

    An example of a subclass that reads [self.model_status] in its hook:
    it keeps, in order, the status of the fqid of every event that
    [migrate_event] is called with. *)
Module StatusProbe.

Definition position_init {A} `{!MigrationKeyframeAccessor A}
    (self : Self A (list (option EVENT_TYPE))) : Exception + list (option EVENT_TYPE) :=
  inr [].
Definition migrate_event {A} `{!MigrationKeyframeAccessor A}
    (self : Self A (list (option EVENT_TYPE))) (event : BaseEvent)
  : Exception + (list (option EVENT_TYPE) * option (list BaseEvent)) :=
  inr (members self ++ [model_status self !! event_fqid event], None).
Definition get_additional_events {A} `{!MigrationKeyframeAccessor A}
    (self : Self A (list (option EVENT_TYPE)))
  : Exception + (list (option EVENT_TYPE) * option (list BaseEvent)) :=
  inr (members self, None).

End StatusProbe.

(** [filtered_events] of one round of the loop of [migrate], from the
    event and what [migrate_event] returned for it. *)
Definition filtered_events (old_event : BaseEvent) (translated_events : option (list BaseEvent))
  : list BaseEvent :=
  _filter_noop_events (default [old_event] translated_events).

(** What the loop of [migrate] appends to [new_events], given for every
    event the attributes [migrate_event] was called with and what it
    returned. *)
Definition loop_new_events {A S} (ordered : list BaseEvent)
    (calls : list (Self A S * (S * option (list BaseEvent)))) : list BaseEvent :=
  concat (zip_with (λ event call, filtered_events event call.2.2) ordered calls).

Section MigrateCalls.

Context {A S : Type} `{!MigrationKeyframeAccessor A}.
Variable migrate_event : Self A S → BaseEvent → Exception + (S * option (list BaseEvent)).

(** The loop of [migrate], call by call: [loop_runs ordered self calls
    self'] says that, started with the attributes [self], the loop over
    [ordered] calls [migrate_event] once per event, in order, with the
    attributes and the results in [calls], each call with the accessors
    and the members that the rounds before it left, that every call and
    every [apply_event] returns, and that the attributes are [self'] at
    the end. *)
Inductive loop_runs
  : list BaseEvent → Self A S → list (Self A S * (S * option (list BaseEvent))) → Self A S
    → Prop :=
  | loop_runs_nil self : loop_runs [] self [] self
  | loop_runs_cons event rest self r old1 new1 calls self' :
      migrate_event self event = inr r →
      accessor_apply_event event (old_accessor self) = inr old1 →
      apply_events (filtered_events event r.2) (new_accessor self) = inr new1 →
      loop_runs rest (mkSelf old1 new1 (position_data self) (model_status self) r.1)
        calls self' →
      loop_runs (event :: rest) self ((self, r) :: calls) self'.

End MigrateCalls.

(** * Properties *)

#[local] Set Warnings "-clear-no-such-hyp".

Import Demo.

(** ** Running a database computation *)

Lemma bind_inr {A B} (c : M A) (k : A → M B) db db' b :
  bind c k db = (db', inr b) →
  ∃ db1 a, c db = (db1, inr a) ∧ k a db1 = (db', inr b).
Proof.
  unfold bind. destruct (c db) as [db1 [e | a]]; [discriminate |].
  intros Hk. by exists db1, a.
Qed.

Lemma lift_inr {A} (r : Exception + A) db db' a :
  lift r db = (db', inr a) → db' = db ∧ r = inr a.
Proof. unfold lift. by intros [= -> ->]. Qed.

Lemma ebind_inr {A B} (r : Exception + A) (k : A → Exception + B) b :
  ebind r k = inr b → ∃ a, r = inr a ∧ k a = inr b.
Proof. destruct r as [e | a]; [discriminate |]. intros Hk. by exists a. Qed.

(** ** Id reservation *)

Lemma sequence_at_set db collection id :
  sequence_at (set_id_sequences (λ t, <[collection := id]> t) db) collection = id.
Proof. unfold sequence_at. simpl. by rewrite lookup_insert_eq. Qed.

Lemma sql_reserve_ids_spec db collection amount :
  sql_reserve_ids collection (amount + 1) db
  = (set_id_sequences (λ t, <[collection := sequence_at db collection + amount]> t) db,
     inr (sequence_at db collection + amount)).
Proof.
  unfold sql_reserve_ids, sequence_at.
  destruct (id_sequences db !! collection) as [id |]; simpl.
  - by replace (id + (amount + 1) - 1) with (id + amount) by lia.
  - by replace (amount + 1) with (1 + amount) by lia.
Qed.

Lemma reserve_next_ids_spec db collection amount :
  collection ≠ ""%string →
  len collection ≤ COLLECTION_MAX_LEN →
  1 ≤ amount →
  reserve_next_ids collection amount db
  = (set_id_sequences (λ t, <[collection := sequence_at db collection + amount]> t) db,
     inr (seqZ (sequence_at db collection) amount)).
Proof.
  intros Hne Hlen Hamount. unfold reserve_next_ids.
  rewrite bool_decide_eq_false_2 by lia.
  rewrite (bool_decide_eq_false_2 (len collection > _)) by lia.
  rewrite (bool_decide_eq_false_2 (collection = _)) by done.
  simpl. unfold bind. rewrite sql_reserve_ids_spec. unfold ret, range.
  do 3 f_equal; lia.
Qed.

(** C1.  For a non-empty collection name of at most 32 characters and an
    amount [n >= 1], [reserve_next_ids] returns the block
    [s, s+1, ..., s+n-1], where [s] is the value the sequence of the
    collection is at before the call, and leaves the sequence at [s+n];
    with the sequence of ["motion"] at 10, reserving 3 ids returns
    [10, 11, 12] and leaves the sequence at 13, and reserving one more
    returns [13]. *)
Theorem reserve_next_ids_contiguous_block db collection n :
  collection ≠ ""%string →
  len collection ≤ COLLECTION_MAX_LEN →
  1 ≤ n →
  let s := sequence_at db collection in
  let r := reserve_next_ids collection n db in
  r.2 = inr (seqZ s n)
  ∧ (∀ ids, r.2 = inr ids →
       Z.of_nat (length ids) = n ∧ ∀ i, 0 ≤ i < n → ids !! Z.to_nat i = Some (s + i))
  ∧ sequence_at r.1 collection = s + n
  ∧ (∀ other, other ≠ collection → sequence_at r.1 other = sequence_at db other)
  ∧ (sequence_at db "motion" = 10 →
     let r3 := reserve_next_ids "motion" 3 db in
     r3.2 = inr [10; 11; 12]
     ∧ sequence_at r3.1 "motion" = 13
     ∧ (reserve_next_ids "motion" 1 r3.1).2 = inr [13]).
Proof.
  intros Hne Hlen Hn s r. subst r.
  rewrite reserve_next_ids_spec by done. simpl. fold s.
  split_and!.
  - done.
  - intros ids [= <-]. split.
    + rewrite length_seqZ. lia.
    + intros i Hi. rewrite lookup_seqZ. split; lia.
  - apply sequence_at_set.
  - intros other Hother. unfold sequence_at. simpl. by rewrite lookup_insert_ne.
  - intros Hmotion.
    rewrite reserve_next_ids_spec by (done || (vm_compute; discriminate)).
    simpl. rewrite Hmotion. split_and!.
    + done.
    + apply sequence_at_set.
    + rewrite reserve_next_ids_spec by (done || (vm_compute; discriminate)).
      simpl. by rewrite sequence_at_set.
Qed.

Lemma reserve_next_ids_contiguous_block_witness :
  let db := set_id_sequences (λ t, <["motion"%string := 10]> t) empty_database in
  (reserve_next_ids "motion" 3 db).2 = inr (seqZ (sequence_at db "motion") 3).
Proof.
  intros db.
  refine (proj1 (reserve_next_ids_contiguous_block db "motion" 3 _ _ _)).
  - discriminate.
  - vm_compute. discriminate.
  - lia.
Defined.

(** Rejected reservations leave the database alone. *)
Lemma reserve_next_ids_invalid_amount db collection amount :
  amount ≤ 0 → reserve_next_ids collection amount db = (db, inl InvalidFormat).
Proof. intros H. unfold reserve_next_ids. by rewrite bool_decide_eq_true_2. Qed.

Lemma reserve_next_ids_invalid_collection db collection amount :
  collection = ""%string ∨ len collection > COLLECTION_MAX_LEN →
  reserve_next_ids collection amount db = (db, inl InvalidFormat).
Proof.
  intros H. unfold reserve_next_ids. case_bool_decide; [done |].
  destruct H as [-> | H]; [by rewrite orb_true_r |].
  by rewrite (bool_decide_eq_true_2 (len collection > _)).
Qed.

(** ** The write pipeline *)

Section InsertEvents.

Context {R E : Type} `{!BaseDbEvent E} `{!WriterServices R E}.
Implicit Types (events : list R) (db : Database).

(** C2.  [insert_events] with an empty event list raises
    [BadCodingError] and executes no statement: the database, with its
    positions, models, events, collectionfields and id sequences, is the
    one it was called on. *)
Theorem insert_events_empty migration_index information user_id db :
let r := insert_events (R := R) [] migration_index information user_id db in
r.2 = inl BadCodingError
∧ r.1 = db
∧ positions r.1 = positions db
∧ positions_position_seq r.1 = positions_position_seq db
∧ models r.1 = models db
∧ Db.events r.1 = Db.events db
∧ collectionfields r.1 = collectionfields db
∧ events_to_collectionfields r.1 = events_to_collectionfields db
∧ id_sequences r.1 = id_sequences db.
Proof.
intros r. subst r. unfold insert_events, raise. simpl. by split_and!.
Qed.

Lemma collect_fqids_oversized events fqids :
  Exists (λ event, len (request_fqid event) > FQID_MAX_LEN) events →
  collect_fqids events fqids = inl InvalidFormat.
Proof.
  intros Hex. revert fqids.
  induction events as [| event rest IH]; intros fqids; [by inversion Hex |].
  simpl. case_bool_decide as Hlen; [done |].
  apply IH. by inversion Hex.
Qed.

Lemma collect_fqids_ok events fqids :
  Forall (λ event, len (request_fqid event) ≤ FQID_MAX_LEN) events →
  collect_fqids events fqids = inr (fqids ∪ list_to_set (request_fqid <$> events)).
Proof.
  revert fqids. induction events as [| event rest IH]; intros fqids Hall; simpl.
  - f_equal. set_solver.
  - inversion_clear Hall as [| ? ? Hlen Hrest].
    rewrite bool_decide_eq_false_2 by lia.
    rewrite IH by done. f_equal. set_solver.
Qed.

(** C3, as the code has it.  A call with an event whose fqid is longer
    than 48 characters raises [InvalidFormat] when the models are
    prefetched, which is after the position row was inserted and before
    anything else: whatever the translator and the model projection are,
    the database is the one [create_position] leaves, so no model, event,
    collectionfield, link or id-sequence row is written. *)
Theorem insert_events_oversized_fqid events migration_index information user_id db :
  Exists (λ event, len (request_fqid event) > FQID_MAX_LEN) events →
  let db1 := (create_position migration_index information user_id db).1 in
  insert_events events migration_index information user_id db = (db1, inl InvalidFormat)
  ∧ positions db1
    = positions db ++ [mkPositionRow (positions_position_seq db) (current_timestamp db)
                         migration_index user_id (to_json information)]
  ∧ models db1 = models db
  ∧ Db.events db1 = Db.events db
  ∧ events_id_seq db1 = events_id_seq db
  ∧ collectionfields db1 = collectionfields db
  ∧ events_to_collectionfields db1 = events_to_collectionfields db
  ∧ id_sequences db1 = id_sequences db.
Proof.
  intros Hex db1. split; [| done].
  destruct events as [| event rest]; [by inversion Hex |].
  unfold insert_events, bind, get_models_from_events, bind, lift.
  cbn [create_position]. rewrite collect_fqids_oversized; done.
Qed.

End InsertEvents.

Lemma insert_events_oversized_fqid_witness :
  (insert_events [Demo.oversized] 1 JNull 7 empty_database).2 = inl InvalidFormat.
Proof.
  refine (f_equal snd
            (proj1 (insert_events_oversized_fqid [Demo.oversized] 1 JNull 7 empty_database _))).
  apply Exists_cons_hd. vm_compute. reflexivity.
Defined.

(** C3 as stated fails: the position row is written before the fqids are
    checked. *)
Lemma oversized_fqid_position_row_written :
  let r := insert_events [Demo.oversized] 1 JNull 7 empty_database in
  len (Demo.cr_fqid Demo.oversized) > FQID_MAX_LEN
  ∧ r.2 = inl InvalidFormat
  ∧ positions empty_database = []
  ∧ positions r.1 = [mkPositionRow 1 0 1 7 JNull]
  ∧ r.1 ≠ empty_database.
Proof.
  split_and!; [by vm_compute | by vm_compute | done | by vm_compute |].
  intros Heq. apply (f_equal positions) in Heq. vm_compute in Heq. discriminate.
Qed.

(** *** Weights *)

Section Weights.

Context {R E : Type} `{!BaseDbEvent E} `{!WriterServices R E}.
Implicit Types (db : Database) (st : Locals) (db_events : list E).

Lemma weighted_app position first db_events1 db_events2 :
  weighted position first (db_events1 ++ db_events2)
  = weighted position first db_events1
    ++ weighted position (first + Z.of_nat (length db_events1)) db_events2.
Proof.
  unfold weighted. rewrite imap_app. f_equal.
  apply imap_ext. intros i db_event _. simpl. f_equal. lia.
Qed.

Lemma weighted_cons position first db_event db_events :
  weighted position first (db_event :: db_events)
  = (position, db_fqid db_event, db_event_type db_event,
     to_json (get_event_data db_event), first)
    :: weighted position (first + 1) db_events.
Proof.
  unfold weighted. simpl. f_equal; [f_equal; lia |].
  apply imap_ext. intros i e _. simpl. f_equal. lia.
Qed.

Lemma length_weighted position first db_events :
  length (weighted position first db_events) = length db_events.
Proof. unfold weighted. by rewrite length_imap. Qed.

Lemma lookup_weighted position first db_events (i : nat) :
  weighted position first db_events !! i
  = (λ db_event, (position, db_fqid db_event, db_event_type db_event,
                  to_json (get_event_data db_event), first + Z.of_nat i))
      <$> db_events !! i.
Proof. unfold weighted. by rewrite list_lookup_imap. Qed.

Lemma db_event_body_inr position db_event st st' :
  db_event_body position db_event st = inr st' →
  l_weight st' = l_weight st + 1
  ∧ l_events_data st' = l_events_data st ++ weighted position (l_weight st + 1) [db_event]
  ∧ apply_event_to_models db_event (l_models st) position = inr (l_models st').
Proof.
  unfold db_event_body. intros Hbody.
  apply ebind_inr in Hbody as (ci & _ & Hbody).
  apply ebind_inr in Hbody as (models' & Happly & Hbody).
  injection Hbody as <-. simpl. split_and!; [done | | done].
  unfold weighted. simpl. by rewrite Z.add_0_r.
Qed.

Lemma db_events_loop_inr position db_events st st' :
  db_events_loop position db_events st = inr st' →
  l_weight st' = l_weight st + Z.of_nat (length db_events)
  ∧ l_events_data st' = l_events_data st ++ weighted position (l_weight st + 1) db_events
  ∧ models_after position db_events (l_models st) = inr (l_models st').
Proof.
  revert st. induction db_events as [| db_event rest IH]; intros st; simpl.
  - intros [= <-]. split_and!; [lia | by rewrite app_nil_r | done].
  - intros Hloop. apply ebind_inr in Hloop as (st1 & Hbody & Hloop).
    apply db_event_body_inr in Hbody as (Hw1 & Hd1 & Hm1).
    apply IH in Hloop as (Hw & Hd & Hm).
    rewrite Hm1. simpl. split_and!; [lia | | done].
    rewrite Hd, Hd1, Hw1, <- app_assoc. f_equal.
    rewrite !weighted_cons. done.
Qed.

Lemma events_loop_inr position (events : list R) st st' :
  events_loop position events st = inr st' →
  ∃ translated,
    translations position events (l_models st) = inr translated
    ∧ l_weight st' = l_weight st + Z.of_nat (length (concat translated))
    ∧ l_events_data st'
      = l_events_data st ++ weighted position (l_weight st + 1) (concat translated).
Proof.
  revert st. induction events as [| event rest IH]; intros st; simpl.
  - intros [= <-]. exists []. simpl. split_and!; [done | lia | by rewrite app_nil_r].
  - intros Hloop. apply ebind_inr in Hloop as (db_events & Htr & Hloop).
    apply ebind_inr in Hloop as (st1 & Hinner & Hloop).
    apply db_events_loop_inr in Hinner as (Hw1 & Hd1 & Hm1).
    apply IH in Hloop as (more & Hmore & Hw & Hd).
    exists (db_events :: more). rewrite Htr. simpl. rewrite Hm1. simpl.
    rewrite Hmore. simpl. split_and!; [done | rewrite length_app; lia |].
    rewrite Hd, Hd1, Hw1, <- app_assoc, weighted_app. do 3 f_equal. lia.
Qed.

Lemma collect_fqids_inr (events : list R) fqids fqids' :
  collect_fqids events fqids = inr fqids' →
  fqids' = fqids ∪ list_to_set (request_fqid <$> events).
Proof.
  revert fqids. induction events as [| event rest IH]; intros fqids; simpl.
  - intros [= <-]. set_solver.
  - case_bool_decide; [discriminate |]. intros Hrest.
    apply IH in Hrest as ->. set_solver.
Qed.

Lemma update_id_sequences_events max_id db db' r :
  update_id_sequences max_id db = (db', r) → same_events db db'.
Proof. by intros [= <- _]. Qed.

Lemma write_model_updates_events models db db' r :
  write_model_updates models db = (db', r) → same_events db db'.
Proof.
  unfold write_model_updates, bind, lift.
  destruct (model_rows (map_to_list models)); by intros [= <- _].
Qed.

Lemma insert_modified_collectionfields_events collectionfields position db db' r :
  insert_modified_collectionfields_into_db collectionfields position db = (db', r) →
  same_events db db'.
Proof.
  unfold insert_modified_collectionfields_into_db, bind, lift.
  destruct (collectionfield_arguments collectionfields position); [by intros [= <- _] |].
  destruct (upsert_collectionfields _ _ _) as [[? ?] ?]. by intros [= <- _].
Qed.

Lemma connect_events_and_collection_fields_events event_ids collectionfield_ids order
    db db' r :
  connect_events_and_collection_fields event_ids collectionfield_ids order db = (db', r) →
  same_events db db'.
Proof.
  unfold connect_events_and_collection_fields, bind, lift.
  destruct (link_arguments _ _); by intros [= <- _].
Qed.

Lemma ev_weight_rows_from position first_id first db_events :
  ev_weight <$> rows_from first_id (weighted position first db_events)
  = seqZ first (Z.of_nat (length db_events)).
Proof.
  apply list_eq. intros i. unfold rows_from.
  rewrite list_lookup_fmap, list_lookup_imap, lookup_weighted.
  destruct (db_events !! i) as [db_event |] eqn:Hi; simpl.
  - symmetry. rewrite lookup_seqZ. apply lookup_lt_Some in Hi. lia.
  - symmetry. apply lookup_seqZ_ge. apply lookup_ge_None in Hi. lia.
Qed.

(** C4.  After a successful [insert_events] the events table is the one
    before the call followed by one row per low-level event of the
    translations of the write-intents, concatenated in the order of the
    call; all carry the new position, and the row at index [i] of the new
    rows has weight [i + 1]: the weights are 1, 2, 3, ... across all
    translated write-intents, so they start at 1 and increase strictly. *)
Theorem insert_events_weights (events : list R) migration_index information user_id
    db db' position modified :
  insert_events events migration_index information user_id db
  = (db', inr (position, modified)) →
  let db1 := (create_position migration_index information user_id db).1 in
  ∃ translated new_rows,
    position = positions_position_seq db
    ∧ translations position events (get_many db1 (list_to_set (request_fqid <$> events)))
      = inr translated
    ∧ Db.events db' = Db.events db ++ new_rows
    ∧ new_rows = rows_from (events_id_seq db) (weighted position 1 (concat translated))
    ∧ ev_weight <$> new_rows = seqZ 1 (Z.of_nat (length (concat translated)))
    ∧ (∀ (i : nat) row, new_rows !! i = Some row →
         ev_weight row = Z.of_nat i + 1
         ∧ ev_position row = position
         ∧ ∃ db_event, concat translated !! i = Some db_event
             ∧ ev_fqid row = db_fqid db_event
             ∧ ev_type row = db_event_type db_event
             ∧ ev_data row = to_json (get_event_data db_event))
    ∧ (∀ (i j : nat) row_i row_j,
         new_rows !! i = Some row_i → new_rows !! j = Some row_j →
         (i < j)%nat → ev_weight row_i < ev_weight row_j).
Proof.
  intros Hrun db1.
  destruct events as [| event rest]; [discriminate |].
  unfold insert_events in Hrun.
  apply bind_inr in Hrun as (db1' & position' & Hpos & Hrun).
  injection Hpos as <- <-. fold db1 in Hrun.
  apply bind_inr in Hrun as (db2 & models & Hmodels & Hrun).
  unfold get_models_from_events in Hmodels.
  apply bind_inr in Hmodels as (db2' & fqids & Hfqids & Hmodels).
  apply lift_inr in Hfqids as [-> Hfqids]. injection Hmodels as <- <-.
  apply collect_fqids_inr in Hfqids. rewrite (left_id_L ∅ (∪)) in Hfqids. subst fqids.
  apply bind_inr in Hrun as (db3 & st & Hloop & Hrun).
  apply lift_inr in Hloop as [-> Hloop].
  apply events_loop_inr in Hloop as (translated & Htr & _ & Hdata).
  simpl in Htr, Hdata.
  apply bind_inr in Hrun as (db4 & [] & Hseq & Hrun).
  apply bind_inr in Hrun as (db5 & [] & Hwrite & Hrun).
  apply bind_inr in Hrun as (db6 & event_ids & Hevents & Hrun).
  apply bind_inr in Hrun as (db7 & collectionfield_ids & Hcf & Hrun).
  apply bind_inr in Hrun as (db8 & [] & Hconnect & Hrun).
  injection Hrun as -> <- <-.
  apply update_id_sequences_events in Hseq as [He4 Hs4].
  apply write_model_updates_events in Hwrite as [He5 Hs5].
  apply insert_modified_collectionfields_events in Hcf as [He7 _].
  apply connect_events_and_collection_fields_events in Hconnect as [He8 _].
  unfold write_events in Hevents. injection Hevents as <- _.
  simpl in He7.
  set (new_rows := rows_from (events_id_seq db)
                     (weighted (positions_position_seq db) 1 (concat translated))).
  assert (Hlookup : ∀ (i : nat) row, new_rows !! i = Some row →
            ∃ db_event, concat translated !! i = Some db_event
              ∧ row = mkEventRow (events_id_seq db + Z.of_nat i) (positions_position_seq db)
                        (db_fqid db_event) (db_event_type db_event)
                        (to_json (get_event_data db_event)) (1 + Z.of_nat i)).
  { intros i row. unfold new_rows, rows_from.
    rewrite list_lookup_imap, lookup_weighted.
    destruct (concat translated !! i) as [db_event |]; [| discriminate].
    simpl. intros [= <-]. by exists db_event. }
  exists translated, new_rows. split_and!.
  - done.
  - done.
  - rewrite He8, He7, Hs5, Hs4, He5, He4, Hdata. done.
  - done.
  - apply ev_weight_rows_from.
  - intros i row Hrow. apply Hlookup in Hrow as (db_event & Hi & ->). simpl.
    split_and!; [lia | done |]. by exists db_event.
  - intros i j row_i row_j Hi Hj Hlt.
    apply Hlookup in Hi as (? & _ & ->). apply Hlookup in Hj as (? & _ & ->).
    simpl. lia.
Qed.

End Weights.

Lemma insert_events_weights_witness :
  let r := insert_events [motion "1" "a"; motion "2" "b"] 1 JNull 7 empty_database in
  ∃ new_rows, Db.events r.1 = new_rows ∧ ev_weight <$> new_rows = [1; 2].
Proof.
  intros r.
  destruct (insert_events_weights [motion "1" "a"; motion "2" "b"] 1 JNull 7 empty_database
              r.1 1 (<["motion/2"%string := {["title"%string := JString "b"]}]>
                       (<["motion/1"%string := {["title"%string := JString "a"]}]> ∅)))
    as (translated & new_rows & _ & Htr & Hrows & _ & Hweights & _).
  { vm_compute. reflexivity. }
  vm_compute in Htr. injection Htr as <-.
  exists new_rows. split; [exact Hrows | exact Hweights].
Defined.

(** ** The migration engine *)

(** *** The noop filter *)

Lemma dict_truthy_false {V} (d : gmap string V) : dict_truthy d = false ↔ d = ∅.
Proof.
  unfold dict_truthy. rewrite negb_false_iff, bool_decide_eq_true.
  apply map_size_empty_iff.
Qed.

Lemma list_truthy_false {A} (l : list A) : list_truthy l = false ↔ l = [].
Proof. by destruct l. Qed.

Lemma dict_values_all_empty {A} (d : gmap string (list A)) :
  existsb list_truthy (dict_values d) = false
  ↔ map_Forall (λ _ values, values = []) d.
Proof.
  rewrite <- not_true_iff_false, existsb_exists. unfold dict_values, map_Forall. split.
  - intros Hnone field values Hlookup.
    apply list_truthy_false, not_true_iff_false. intros Htruthy. apply Hnone.
    exists values. split; [| done].
    apply list_elem_of_In, list_elem_of_fmap. exists (field, values).
    split; [done |]. by apply elem_of_map_to_list.
  - intros Hall (values & Hin & Htruthy).
    apply list_elem_of_In, list_elem_of_fmap in Hin as ([field values'] & -> & Hin).
    apply elem_of_map_to_list in Hin. apply Hall in Hin. simpl in Htruthy.
    by rewrite Hin in Htruthy.
Qed.

(** The events one step of the generator yields for an event. *)
Lemma _filter_noop_events_cons event rest :
  _filter_noop_events (event :: rest)
  = (if decide (noop event) then [] else [event]) ++ _filter_noop_events rest.
Proof.
  destruct (decide (noop event)) as [Hn | Hn];
    destruct event as [fqid data | fqid data | fqid data | fqid add remove | fqid];
    simpl in *; try done.
  - by rewrite (proj2 (dict_truthy_false data) Hn).
  - by subst data.
  - destruct Hn as [Hadd Hremove]. rewrite existsb_app.
    apply dict_values_all_empty in Hadd, Hremove. by rewrite Hadd, Hremove.
  - destruct (dict_truthy data) eqn:Hdata; [done |].
    by apply dict_truthy_false in Hdata.
  - by destruct data.
  - destruct (existsb list_truthy (dict_values add ++ dict_values remove)) eqn:Hex; [done |].
    rewrite existsb_app in Hex. apply orb_false_elim in Hex as [Hadd Hremove].
    apply dict_values_all_empty in Hadd, Hremove. tauto.
Qed.

Lemma _filter_noop_events_filter events :
  _filter_noop_events events = filter (λ event, ¬ noop event) events.
Proof.
  induction events as [| event rest IH]; [done |].
  rewrite _filter_noop_events_cons, IH, filter_cons.
  destruct (decide (noop event)); case_decide; simpl; tauto || done.
Qed.

(** C5.  The noop filter keeps exactly the events that are not noops, in
    their order: it drops an update whose diff is empty, a list update
    whose [add] and [remove] carry no values for any field and a
    delete-fields whose field list is empty, and nothing else; a create or
    a delete is kept whatever it carries. *)
Theorem filter_noop_events_drops_exactly_noops (events : list BaseEvent) :
  _filter_noop_events events = filter (λ event, ¬ noop event) events
  ∧ _filter_noop_events events `sublist_of` events
  ∧ (∀ event, event ∈ _filter_noop_events events ↔ event ∈ events ∧ ¬ noop event)
  ∧ (∀ fqid data, noop (UpdateEvent fqid data) ↔ data = ∅)
  ∧ (∀ fqid add remove,
       noop (ListUpdateEvent fqid add remove)
       ↔ (∀ field values, add !! field = Some values → values = [])
         ∧ (∀ field values, remove !! field = Some values → values = []))
  ∧ (∀ fqid data, noop (DeleteFieldsEvent fqid data) ↔ data = [])
  ∧ (∀ event, event_type event = CREATE ∨ event_type event = DELETE →
       ¬ noop event ∧ (event ∈ events → event ∈ _filter_noop_events events)).
Proof.
  rewrite _filter_noop_events_filter. split_and!; try done.
  - apply sublist_filter.
  - intros event. rewrite list_elem_of_filter. tauto.
  - intros event Htype.
    assert (¬ noop event) as Hkeep by (destruct event, Htype; simpl; auto; discriminate).
    split; [done |]. intros Hin. by apply list_elem_of_filter.
Qed.

(** The rules on a small position. *)
Example filter_noop_events_example :
  _filter_noop_events
    [UpdateEvent "a/1" ∅; CreateEvent "a/2" ∅;
     ListUpdateEvent "a/1" {["f"%string := []]} ∅; DeleteFieldsEvent "a/1" [];
     DeleteEvent "a/3"; UpdateEvent "a/2" {["f"%string := JInt 1]};
     ListUpdateEvent "a/2" ∅ {["g"%string := [JInt 2]]}; DeleteFieldsEvent "a/2" ["f"%string]]
  = [CreateEvent "a/2" ∅; DeleteEvent "a/3"; UpdateEvent "a/2" {["f"%string := JInt 1]};
     ListUpdateEvent "a/2" ∅ {["g"%string := [JInt 2]]}; DeleteFieldsEvent "a/2" ["f"%string]].
Proof. vm_compute. reflexivity. Qed.

(** *** The order of the events *)

Lemma order_events_from_spec events events_queue :
  order_events_from events events_queue
  = List.filter is_create events
    ++ events_queue ++ List.filter (λ event, negb (is_create event)) events.
Proof.
  revert events_queue. induction events as [| event rest IH]; intros events_queue; simpl.
  - by rewrite app_nil_r.
  - change (bool_decide (event_type event = CREATE)) with (is_create event).
    destruct (is_create event); simpl; rewrite IH; [done |].
    by rewrite <- !app_assoc.
Qed.

(** C6.  [order_events] yields the create events in their order, then the
    other events in their order; the result is a permutation of the input,
    and [update(B), create(A), delete_fields(C), create(D)] comes out as
    [create(A), create(D), update(B), delete_fields(C)]. *)
Theorem order_events_creates_first (events : list BaseEvent) :
  order_events events
  = List.filter is_create events ++ List.filter (λ event, negb (is_create event)) events
  ∧ order_events events ≡ₚ events
  ∧ (∀ event, is_create event = true ↔ event_type event = CREATE)
  ∧ (∀ a b c d,
       order_events [UpdateEvent "B" b; CreateEvent "A" a; DeleteFieldsEvent "C" c;
                     CreateEvent "D" d]
       = [CreateEvent "A" a; CreateEvent "D" d; UpdateEvent "B" b; DeleteFieldsEvent "C" c]).
Proof.
  unfold order_events. rewrite order_events_from_spec. simpl. split_and!.
  - done.
  - induction events as [| event rest IH]; [done |]. simpl.
    destruct (is_create event); simpl.
    + by f_equiv.
    + rewrite <- Permutation_middle. by f_equiv.
  - intros event. unfold is_create. apply bool_decide_eq_true.
  - done.
Qed.

(** *** The model status of a position *)

Lemma _set_model_status_snoc events event :
  _set_model_status (events ++ [event])
  = _set_model_status_step (_set_model_status events) event.
Proof. unfold _set_model_status. by rewrite foldl_snoc. Qed.

Lemma has_event_nil type fqid : ¬ has_event type fqid [].
Proof. intros (event & Hin & _). by apply not_elem_of_nil in Hin. Qed.

Lemma has_event_snoc type fqid events event :
  has_event type fqid (events ++ [event])
  ↔ has_event type fqid events ∨ (event_type event = type ∧ event_fqid event = fqid).
Proof.
  unfold has_event. split.
  - intros (e & Hin & Htype & Hfqid).
    apply elem_of_app in Hin as [Hin | Hin]; [left; by exists e |].
    apply list_elem_of_singleton in Hin as ->. by right.
  - intros [(e & Hin & Htype & Hfqid) | [Htype Hfqid]].
    + exists e. split; [| done]. apply elem_of_app. by left.
    + exists event. split; [| done]. apply elem_of_app. right. by apply list_elem_of_singleton.
Qed.

Lemma has_event_app type fqid events later :
  has_event type fqid events → has_event type fqid (events ++ later).
Proof.
  intros (e & Hin & Htype & Hfqid). exists e. split; [| done]. apply elem_of_app. by left.
Qed.

(** The status of an fqid says which events the position has for it. *)
Lemma _set_model_status_lookup events fqid :
  (_set_model_status events !! fqid = Some DELETE ↔ has_event DELETE fqid events)
  ∧ (_set_model_status events !! fqid = Some CREATE
     ↔ has_event CREATE fqid events ∧ ¬ has_event DELETE fqid events)
  ∧ (∀ type, _set_model_status events !! fqid = Some type → type = CREATE ∨ type = DELETE).
Proof.
  revert fqid. induction events as [| event events IH] using rev_ind; intros fqid.
  - unfold _set_model_status. simpl. rewrite lookup_empty.
    pose proof (has_event_nil DELETE fqid). pose proof (has_event_nil CREATE fqid).
    split_and!; [split; [done | tauto] | split; [done | tauto] | done].
  - rewrite _set_model_status_snoc. unfold _set_model_status_step.
    rewrite !has_event_snoc.
    destruct (IH fqid) as (IHd & IHc & IHt).
    destruct (IH (event_fqid event)) as (IHd' & _ & _).
    destruct (bool_decide (event_type event = CREATE ∨ event_type event = DELETE)) eqn:Htype;
      simpl.
    + apply bool_decide_eq_true in Htype.
      case_bool_decide as Hsticky; simpl.
      * destruct (decide (event_fqid event = fqid)) as [<- | Hne].
        -- rewrite lookup_insert_eq. split_and!.
           ++ split; [intros [= Hd]; by right |].
              intros [Hd | [Hd _]]; [by apply IHd' in Hd | by rewrite Hd].
           ++ split.
              ** intros [= Hc]. split; [by right |].
                 intros [Hd | [Hd _]]; [by apply IHd' in Hd | congruence].
              ** intros [[Hc | [Hc _]] Hnd]; [| by rewrite Hc].
                 destruct Htype as [Hc' | Hd']; [by rewrite Hc' |].
                 exfalso. apply Hnd. by right.
           ++ intros type [= <-]. done.
        -- rewrite lookup_insert_ne by done. split_and!; [| | done].
           ++ rewrite IHd. split; [by left | intros [? | [_ ?]]; done].
           ++ rewrite IHc. split.
              ** intros [Hc Hnd]. split; [by left |]. intros [? | [_ ?]]; done.
              ** intros [[Hc | [_ ?]] Hnd]; [| done]. split; [done |]. intros ?. apply Hnd. by left.
      * pose proof (proj1 IHd' Hsticky) as Hdel.
        split_and!; [| | done].
        -- rewrite IHd. split; [by left |].
           intros [? | [_ <-]]; done.
        -- rewrite IHc. split.
           ++ intros [Hc Hnd]. split; [by left |].
              intros [? | [_ <-]]; done.
           ++ intros [[Hc | [_ <-]] Hnd].
              ** split; [done |]. intros ?. apply Hnd. by left.
              ** exfalso. apply Hnd. by left.
    + apply bool_decide_eq_false in Htype.
      split_and!; [| | done].
      * rewrite IHd. split; [by left |]. intros [? | [Hd _]]; [done |]. exfalso. apply Htype. by right.
      * rewrite IHc. split.
        -- intros [Hc Hnd]. split; [by left |].
           intros [? | [Hd _]]; [done |]. apply Htype. by right.
        -- intros [[Hc | [Hc _]] Hnd].
           ++ split; [done |]. intros ?. apply Hnd. by left.
           ++ exfalso. apply Htype. by left.
Qed.

Lemma _set_model_status_other_types status events :
  foldl _set_model_status_step status
    (List.filter (λ event, bool_decide (event_type event = CREATE ∨ event_type event = DELETE))
       events)
  = foldl _set_model_status_step status events.
Proof.
  revert status. induction events as [| event rest IH]; intros status; [done |]. simpl.
  destruct (bool_decide (event_type event = CREATE ∨ event_type event = DELETE)) eqn:Htype;
    simpl; [apply IH |].
  rewrite IH. f_equal. unfold _set_model_status_step. by rewrite Htype.
Qed.

(** C7.  [_set_model_status] starts from the empty dict and handles the
    events in the order given: a create or delete event sets the status of
    its fqid to its type unless the status recorded for the fqid is
    [delete]; any other event leaves the dict as it is.  So the status of
    an fqid is [delete] exactly when the position has a delete for it,
    [create] exactly when it has a create and no delete for it, a recorded
    [delete] survives whatever events follow, and the events of other types
    can be left out without changing the result. *)
Theorem set_model_status_delete_is_sticky (events : list BaseEvent) :
  _set_model_status [] = ∅
  ∧ (∀ event,
       _set_model_status (events ++ [event])
       = let status := _set_model_status events in
         if decide ((event_type event = CREATE ∨ event_type event = DELETE)
                    ∧ status !! event_fqid event ≠ Some DELETE)
         then <[event_fqid event := event_type event]> status
         else status)
  ∧ (∀ fqid, _set_model_status events !! fqid = Some DELETE ↔ has_event DELETE fqid events)
  ∧ (∀ fqid, _set_model_status events !! fqid = Some CREATE
             ↔ has_event CREATE fqid events ∧ ¬ has_event DELETE fqid events)
  ∧ (∀ fqid, _set_model_status events !! fqid = None
             ↔ ¬ has_event CREATE fqid events ∧ ¬ has_event DELETE fqid events)
  ∧ (∀ fqid later,
       _set_model_status events !! fqid = Some DELETE →
       _set_model_status (events ++ later) !! fqid = Some DELETE)
  ∧ _set_model_status
      (List.filter (λ event, bool_decide (event_type event = CREATE ∨ event_type event = DELETE))
         events)
    = _set_model_status events.
Proof.
  split_and!.
  - done.
  - intros event. rewrite _set_model_status_snoc. unfold _set_model_status_step. simpl.
    case_decide as Hcond.
    + destruct Hcond as [Htype Hsticky].
      by rewrite (bool_decide_eq_true_2 _ Htype), (bool_decide_eq_true_2 _ Hsticky).
    + apply not_and_l in Hcond as [Htype | Hsticky].
      * by rewrite (bool_decide_eq_false_2 _ Htype).
      * rewrite (bool_decide_eq_false_2 _ Hsticky). by rewrite andb_false_r.
  - intros fqid. apply _set_model_status_lookup.
  - intros fqid. apply _set_model_status_lookup.
  - intros fqid. destruct (_set_model_status_lookup events fqid) as (Hd & Hc & Ht).
    destruct (_set_model_status events !! fqid) as [type |] eqn:Hstatus.
    + split; [done |]. intros [Hnc Hnd].
      destruct (Ht type eq_refl) as [-> | ->]; exfalso.
      * by destruct (proj1 Hc eq_refl).
      * by apply Hnd, Hd.
    + split; [| done]. intros _.
      assert (¬ has_event DELETE fqid events) as Hnd by (intros Hhas; by apply Hd in Hhas).
      split; [| done]. intros Hhas. by assert (None = Some CREATE) by (by apply Hc).
  - intros fqid later Hdel.
    apply (_set_model_status_lookup (events ++ later) fqid).
    apply has_event_app. by apply (_set_model_status_lookup events fqid).
  - apply _set_model_status_other_types.
Qed.

(** A create after a delete in the same position does not bring the model
    back; an update does not count. *)
Example _set_model_status_example :
  _set_model_status
    [CreateEvent "a/1" ∅; DeleteEvent "a/1"; CreateEvent "a/1" ∅; UpdateEvent "a/2" ∅;
     CreateEvent "a/3" ∅]
  = {["a/1"%string := DELETE; "a/3"%string := CREATE]}.
Proof. vm_compute. reflexivity. Qed.

(** *** [migrate] and [will_exist] *)

Section MigrateProperties.

Context {A S : Type} `{!MigrationKeyframeAccessor A}.
Variable position_init : Self A S → Exception + S.
Variable migrate_event : Self A S → BaseEvent → Exception + (S * option (list BaseEvent)).
Variable get_additional_events : Self A S → Exception + (S * option (list BaseEvent)).

Lemma apply_new_model_status append events (self self' : Self A S) new_events new_events' :
  apply_new append events self new_events = inr (self', new_events') →
  model_status self' = model_status self.
Proof.
  revert self new_events. induction events as [| event rest IH]; intros self new_events; simpl.
  - by intros [= <- _].
  - intros Hrun. apply ebind_inr in Hrun as (a & _ & Hrun). by apply IH in Hrun.
Qed.

Lemma migrate_loop_model_status ordered (self self' : Self A S) new_events new_events' :
  migrate_loop migrate_event ordered self new_events = inr (self', new_events') →
  model_status self' = model_status self.
Proof.
  revert self new_events. induction ordered as [| event rest IH]; intros self new_events; simpl.
  - by intros [= <- _].
  - intros Hrun. apply ebind_inr in Hrun as (r & _ & Hrun).
    apply ebind_inr in Hrun as (a & _ & Hrun).
    apply ebind_inr in Hrun as ([self1 new_events1] & Hnew & Hrun).
    apply apply_new_model_status in Hnew. apply IH in Hrun. simpl in *. congruence.
Qed.

Lemma will_exist_unfold (self : Self A S) (fqid : Fqid) :
  will_exist self fqid = true
  ↔ (model_not_deleted (new_accessor self) fqid = true
     ∧ model_status self !! fqid ≠ Some DELETE)
    ∨ model_status self !! fqid = Some CREATE.
Proof.
  unfold will_exist.
  by rewrite orb_true_iff, andb_true_iff, !bool_decide_eq_true.
Qed.

(** C8.  [will_exist(fqid)] is true exactly when the new accessor
    reports the model as not deleted and the status of the fqid in this
    position is not [delete], or the status of the fqid in this position
    is [create]; it is false otherwise. *)
Theorem will_exist_true_iff (self : Self A S) (fqid : Fqid) :
  (will_exist self fqid = true
   ↔ (model_not_deleted (new_accessor self) fqid = true
      ∧ model_status self !! fqid ≠ Some DELETE)
     ∨ model_status self !! fqid = Some CREATE)
  ∧ (will_exist self fqid = false
     ↔ (model_not_deleted (new_accessor self) fqid = false
        ∨ model_status self !! fqid = Some DELETE)
       ∧ model_status self !! fqid ≠ Some CREATE).
Proof.
  split; [apply will_exist_unfold |].
  unfold will_exist.
  rewrite orb_false_iff, andb_false_iff, !bool_decide_eq_false.
  split; intros [[Hn | Hd] Hc]; split; auto.
  right. by apply dec_stable.
Qed.

(** X27.  With the status of a position's events: the model will exist exactly
    when the position has no delete for it and either the new accessor
    has it alive or the position creates it. *)
Lemma will_exist_events old new position_data (members0 : S) events fqid :
  will_exist (mkSelf old new position_data (_set_model_status events) members0) fqid = true
  ↔ ¬ has_event DELETE fqid events
    ∧ (model_not_deleted new fqid = true ∨ has_event CREATE fqid events).
Proof.
  rewrite will_exist_unfold. simpl.
  destruct (_set_model_status_lookup events fqid) as (Hd & Hc & _).
  rewrite Hc. rewrite <- Hd. tauto.
Qed.

End MigrateProperties.

Lemma will_exist_example :
  let self := mkSelf (S := unit) ({["a/1"%string; "a/2"%string]} : gset string)
                {["a/1"%string; "a/2"%string]} (mkPositionData 2 0 1 JNull)
                (_set_model_status [DeleteEvent "a/1"; CreateEvent "a/3" ∅]) () in
  will_exist self "a/1" = false
  ∧ will_exist self "a/2" = true
  ∧ will_exist self "a/3" = true
  ∧ will_exist self "a/4" = false.
Proof. vm_compute. done. Qed.

(** *** Construction of a migration *)

(** C9, as the code has it.  Construction fails, with
    [MigrationSetupException], exactly when [target_migration_index] is the
    value [-1] of the base class; with any other value it succeeds and sets
    the name of the instance, so it succeeds for every valid index. *)
Theorem BaseMigration_init_fails_iff_unset (class_name : string) (target_migration_index : Z) :
  (BaseMigration_init class_name target_migration_index = inl MigrationSetupException
   ↔ target_migration_index = -1)
  ∧ (BaseMigration_init class_name target_migration_index = inr class_name
     ↔ target_migration_index ≠ -1)
  ∧ (valid_index target_migration_index →
     BaseMigration_init class_name target_migration_index = inr class_name).
Proof.
  unfold BaseMigration_init, valid_index. case_bool_decide as Hunset.
  - split_and!; [done | split; [discriminate | done] | lia].
  - split_and!; [split; [discriminate | done] | done | done].
Qed.

(** C9 as stated fails: an index that is set but not valid is accepted. *)
Lemma BaseMigration_init_accepts_invalid_index :
  ¬ valid_index (-2) ∧ BaseMigration_init "Migration" (-2) = inr "Migration"%string.
Proof. split; [unfold valid_index; lia | reflexivity]. Qed.

(** *** The in-memory migration reader *)

Lemma omap_nil_iff {A B} (f : A → option B) (l : list A) :
  omap f l = [] ↔ ∀ x, x ∈ l → f x = None.
Proof.
  induction l as [| a l IH]; simpl.
  - split; [intros _ x Hin; by apply not_elem_of_nil in Hin | done].
  - destruct (f a) as [b |] eqn:Hfa.
    + split; [discriminate |]. intros Hall.
      specialize (Hall a (list_elem_of_here a l)). congruence.
    + rewrite IH. split.
      * intros Hall x Hin. apply elem_of_cons in Hin as [-> | Hin]; auto.
      * intros Hall x Hin. apply Hall. by apply list_elem_of_further.
Qed.

Section MigrationReaderProperties.

Context {Filter V : Type}.
Variable filter_models :
  gmap string (gmap string V) → Collection → Filter → gmap Z (gmap string V).
Variable py_min py_max : list V → Exception + V.
Variable py_None : V.
Variable models : gmap string (gmap string V).

Lemma field_values_elem collection filter field x :
  x ∈ field_values filter_models models collection filter field
  ↔ ∃ id model,
      reader_filter filter_models models collection filter !! id = Some model
      ∧ model !! field = Some x.
Proof.
  unfold field_values. rewrite list_elem_of_omap. split.
  - intros (model & Hin & Hx). apply list_elem_of_fmap in Hin as ([id model'] & -> & Hin).
    apply elem_of_map_to_list in Hin. by exists id, model'.
  - intros (id & model & Hin & Hx). exists model. split; [| done].
    apply list_elem_of_fmap. exists (id, model). split; [done |].
    by apply elem_of_map_to_list.
Qed.

Lemma field_values_nil collection filter field :
  field_values filter_models models collection filter field = []
  ↔ ∀ id model,
      reader_filter filter_models models collection filter !! id = Some model →
      model !! field = None.
Proof.
  unfold field_values. rewrite omap_nil_iff. split.
  - intros Hall id model Hlookup. apply Hall.
    apply list_elem_of_fmap. exists (id, model). split; [done |].
    by apply elem_of_map_to_list.
  - intros Hall model Hin. apply list_elem_of_fmap in Hin as ([id model'] & -> & Hin).
    apply elem_of_map_to_list in Hin. by apply (Hall id).
Qed.

Lemma minmax_cases collection filter field (func : list V → Exception + V) :
  (field_values filter_models models collection filter field = []
   ∧ minmax filter_models py_None models collection filter field func = inr py_None)
  ∨ (field_values filter_models models collection filter field ≠ []
     ∧ minmax filter_models py_None models collection filter field func
       = func (field_values filter_models models collection filter field)).
Proof.
  unfold minmax.
  destruct (field_values filter_models models collection filter field); [by left | by right].
Qed.

Lemma minmax_None_iff collection filter field (func : list V → Exception + V) :
  func (field_values filter_models models collection filter field) ≠ inr py_None →
  minmax filter_models py_None models collection filter field func = inr py_None
  ↔ ∀ id model,
      reader_filter filter_models models collection filter !! id = Some model →
      model !! field = None.
Proof.
  intros Hfunc. rewrite <- field_values_nil.
  destruct (minmax_cases collection filter field func) as [[Hnil ->] | [Hne ->]]; [done |].
  split; [by intros ? | by intros ?].
Qed.

(** C10, as the code has it.  For the in-memory reader and every
    collection and filter: [exists] is true exactly when [count] is
    positive; [count] is the number of models [filter] returns; [min] and
    [max] return [None] when no model [filter] returns has the field, and
    otherwise do what the builtin does for the values of the field.  So
    they return [None] exactly when no returned model has the field
    provided the builtin does not return [None] for the values, which it
    does for a single value [None]. *)
Theorem memory_reader_aggregates (collection : Collection) (filter : Filter) (field : Field) :
  let result := reader_filter filter_models models collection filter in
  let values := field_values filter_models models collection filter field in
  (reader_exists filter_models models collection filter = true
   ↔ reader_count filter_models models collection filter > 0)
  ∧ reader_count filter_models models collection filter
    = Z.of_nat (length (map_to_list result))
  ∧ (reader_exists filter_models models collection filter = true
     ↔ ∃ id model, result !! id = Some model)
  ∧ (∀ x, x ∈ values ↔ ∃ id model, result !! id = Some model ∧ model !! field = Some x)
  ∧ ((∀ id model, result !! id = Some model → model !! field = None) →
     reader_min filter_models py_min py_None models collection filter field = inr py_None
     ∧ reader_max filter_models py_max py_None models collection filter field = inr py_None)
  ∧ ((∃ id model, result !! id = Some model ∧ is_Some (model !! field)) →
     values ≠ []
     ∧ reader_min filter_models py_min py_None models collection filter field = py_min values
     ∧ reader_max filter_models py_max py_None models collection filter field = py_max values)
  ∧ (py_min values ≠ inr py_None →
     reader_min filter_models py_min py_None models collection filter field = inr py_None
     ↔ ∀ id model, result !! id = Some model → model !! field = None)
  ∧ (py_max values ≠ inr py_None →
     reader_max filter_models py_max py_None models collection filter field = inr py_None
     ↔ ∀ id model, result !! id = Some model → model !! field = None).
Proof.
  intros result values. split_and!.
  - unfold reader_exists. apply bool_decide_eq_true.
  - unfold reader_count. by rewrite length_map_to_list.
  - unfold reader_exists, reader_count. rewrite bool_decide_eq_true. fold result.
    split.
    + intros Hsize. destruct (map_choose_or_empty result) as [(id & model & Hl) | Hempty].
      * by exists id, model.
      * rewrite Hempty, map_size_empty in Hsize. lia.
    + intros (id & model & Hl).
      assert (size result ≠ 0%nat); [| lia].
      rewrite map_size_empty_iff. intros Hempty. by rewrite Hempty in Hl.
  - intros x. apply field_values_elem.
  - intros Hnone. pose proof (proj2 (field_values_nil collection filter field) Hnone).
    unfold reader_min, reader_max.
    destruct (minmax_cases collection filter field py_min) as [[_ ->] | [? _]]; [| done].
    destruct (minmax_cases collection filter field py_max) as [[_ ->] | [? _]]; done.
  - intros (id & model & Hlookup & [x Hx]).
    assert (values ≠ []) as Hne.
    { intros Hnil.
      pose proof (proj1 (field_values_nil collection filter field) Hnil id model Hlookup) as Hn.
      rewrite Hn in Hx. discriminate. }
    unfold reader_min, reader_max.
    destruct (minmax_cases collection filter field py_min) as [[? _] | [_ ->]]; [done |].
    destruct (minmax_cases collection filter field py_max) as [[? _] | [_ ->]]; done.
  - apply minmax_None_iff.
  - apply minmax_None_iff.
Qed.

End MigrationReaderProperties.

(** C10 as stated fails: a model whose field holds [None] has the field,
    and [min] and [max] return [None]. *)
Lemma memory_reader_min_of_None_field :
  let models : gmap string (gmap string (option Z)) :=
    {["motion/1"%string := {["id"%string := Some 1; "number"%string := None]}]} in
  reader_min by_collection min_of None models "motion" () "number" = inr None
  ∧ reader_max by_collection max_of None models "motion" () "number" = inr None
  ∧ ∃ id model, reader_filter by_collection models "motion" () !! id = Some model
                ∧ is_Some (model !! "number"%string).
Proof.
  split_and!; [by vm_compute | by vm_compute |].
  exists 1, {["id"%string := Some 1; "number"%string := None]}.
  split; [by vm_compute | by eexists].
Qed.

(** The reader on models of two collections, one of them without the
    field; the builtin raises where [None] meets an integer. *)
Example memory_reader_example :
  let models : gmap string (gmap string (option Z)) :=
    {["motion/1"%string := {["id"%string := Some 1; "number"%string := Some 7]};
      "motion/2"%string := {["id"%string := Some 2; "number"%string := Some 3]};
      "motion/3"%string := {["id"%string := Some 3]};
      "topic/1"%string := {["id"%string := Some 1; "number"%string := None]};
      "topic/2"%string := {["id"%string := Some 2; "number"%string := Some 5]}]} in
  reader_count by_collection models "motion" () = 3
  ∧ reader_exists by_collection models "motion" () = true
  ∧ reader_exists by_collection models "user" () = false
  ∧ reader_min by_collection min_of None models "motion" () "number" = inr (Some 3)
  ∧ reader_max by_collection max_of None models "motion" () "number" = inr (Some 7)
  ∧ reader_min by_collection min_of None models "motion" () "title" = inr None
  ∧ reader_max by_collection max_of None models "user" () "id" = inr None
  ∧ reader_min by_collection min_of None models "topic" () "number" = inl TypeError.
Proof. vm_compute. done. Qed.

(** * Further properties *)

(** ** Id reservation *)

(** X1.  [reserve_next_ids] raises exactly when the amount is not positive,
    the collection name is empty or it is longer than 32 characters; the
    exception is then [InvalidFormat] and no statement was executed.  In
    every other case it returns ids. *)
Theorem reserve_next_ids_rejects_iff (db : Database) (collection : string) (amount : Z) :
  let r := reserve_next_ids collection amount db in
  (r.2 = inl InvalidFormat
   ↔ amount ≤ 0 ∨ collection = ""%string ∨ len collection > COLLECTION_MAX_LEN)
  ∧ ((∃ ids, r.2 = inr ids)
     ↔ 1 ≤ amount ∧ collection ≠ ""%string ∧ len collection ≤ COLLECTION_MAX_LEN)
  ∧ (∀ e, r.2 = inl e → e = InvalidFormat ∧ r.1 = db).
Proof.
  intros r. subst r.
  destruct (decide (amount ≤ 0)) as [Hamount | Hamount].
  { rewrite reserve_next_ids_invalid_amount by done. simpl.
    split_and!; [split; auto | split; [by intros [? ?] | lia] | by intros e [= <-]]. }
  destruct (decide (collection = ""%string ∨ len collection > COLLECTION_MAX_LEN))
    as [Hname | Hname].
  { rewrite reserve_next_ids_invalid_collection by done. simpl.
    split_and!; [split; [tauto | done] | | by intros e [= <-]].
    split; [by intros [? ?] |]. intros (_ & Hne & Hlen). destruct Hname; [done | lia]. }
  assert (collection ≠ ""%string) as Hne by tauto.
  assert (¬ len collection > COLLECTION_MAX_LEN) as Hlen by tauto.
  rewrite reserve_next_ids_spec by (done || lia). simpl.
  split_and!;
    [split; [done |]
    | split; [intros _; split_and!; [lia | done | lia] | by eexists]
    | done].
  intros [? | [? | ?]]; [lia | done | lia].
Qed.

(** X2.  Two reservations for a collection, one after the other, return
    adjacent blocks: the second starts where the first ended, so no id is
    handed out twice. *)
Theorem reserve_next_ids_successive (db : Database) (collection : string) (n m : Z) :
  collection ≠ ""%string →
  len collection ≤ COLLECTION_MAX_LEN →
  1 ≤ n → 1 ≤ m →
  let s := sequence_at db collection in
  let r1 := reserve_next_ids collection n db in
  let r2 := reserve_next_ids collection m r1.1 in
  r1.2 = inr (seqZ s n)
  ∧ r2.2 = inr (seqZ (s + n) m)
  ∧ sequence_at r2.1 collection = s + n + m
  ∧ (∀ ids1 ids2 id, r1.2 = inr ids1 → r2.2 = inr ids2 → id ∈ ids1 → id ∉ ids2).
Proof.
  intros Hne Hlen Hn Hm s r1 r2. subst r1 r2.
  rewrite reserve_next_ids_spec by done. simpl.
  rewrite reserve_next_ids_spec by done. simpl.
  rewrite !sequence_at_set. fold s. split_and!; [done | done | done |].
  intros ids1 ids2 id [= <-] [= <-]. rewrite !elem_of_seqZ. lia.
Qed.

Lemma reserve_next_ids_successive_witness :
  let r1 := reserve_next_ids "topic" 2 empty_database in
  r1.2 = inr (seqZ 1 2) ∧ (reserve_next_ids "topic" 4 r1.1).2 = inr (seqZ 3 4).
Proof.
  intros r1.
  destruct (reserve_next_ids_successive empty_database "topic" 2 4) as (H1 & H2 & _).
  - discriminate.
  - vm_compute. discriminate.
  - lia.
  - lia.
  - split; [exact H1 | exact H2].
Defined.

Lemma reserve_next_ids_cases (collection : string) (amount : Z) :
  (∀ db, reserve_next_ids collection amount db = (db, inl InvalidFormat))
  ∨ (collection ≠ ""%string ∧ len collection ≤ COLLECTION_MAX_LEN ∧ 1 ≤ amount).
Proof.
  destruct (decide (amount ≤ 0)).
  - left. intros db. by apply reserve_next_ids_invalid_amount.
  - destruct (decide (collection = ""%string ∨ len collection > COLLECTION_MAX_LEN)) as [Hc | Hc].
    + left. intros db. by apply reserve_next_ids_invalid_collection.
    + right. split_and!; [tauto | | lia].
      assert (¬ len collection > COLLECTION_MAX_LEN) by tauto. lia.
Qed.

(** X3.  Reservations for two different collections do not touch each
    other: each returns the block it returns alone, and the database after
    both does not depend on their order. *)
Theorem reserve_next_ids_collections_independent (db : Database) (c1 c2 : string) (n m : Z) :
  c1 ≠ c2 →
  let a := reserve_next_ids c1 n db in
  let b := reserve_next_ids c2 m db in
  (reserve_next_ids c2 m a.1).2 = b.2
  ∧ (reserve_next_ids c1 n b.1).2 = a.2
  ∧ (reserve_next_ids c2 m a.1).1 = (reserve_next_ids c1 n b.1).1.
Proof.
  intros Hne a b. subst a b.
  destruct (reserve_next_ids_cases c1 n) as [H1 | (Hc1 & Hl1 & Hn1)];
    destruct (reserve_next_ids_cases c2 m) as [H2 | (Hc2 & Hl2 & Hn2)].
  - by rewrite !H1, !H2.
  - rewrite !H1. simpl. by rewrite ?H1.
  - rewrite !H2. simpl. by rewrite ?H2.
  - rewrite (reserve_next_ids_spec db c1), (reserve_next_ids_spec db c2) by done. simpl.
    rewrite !reserve_next_ids_spec by done. simpl.
    unfold sequence_at. simpl. rewrite !lookup_insert_ne by done.
    split_and!; [done | done |].
    unfold set_id_sequences. simpl. f_equal. by apply insert_insert_ne.
Qed.

Lemma reserve_next_ids_collections_independent_witness :
  (reserve_next_ids "topic" 2 (reserve_next_ids "motion" 3 empty_database).1).2
  = (reserve_next_ids "topic" 2 empty_database).2.
Proof.
  refine (proj1 (reserve_next_ids_collections_independent empty_database
                   "motion" "topic" 3 2 _)).
  discriminate.
Defined.

(** ** The statements of the write pipeline *)

Section Prefetch.

Context {R E : Type} `{!BaseDbEvent E} `{!WriterServices R E}.

(** X4.  [get_models_from_events] reads the models of exactly the fqids of
    the events when none is longer than 48 characters, and raises
    [InvalidFormat] without reading when one is; 48 characters are
    accepted.  It leaves the database as it is. *)
Theorem get_models_from_events_checks_fqids (events : list R) (db : Database) :
  (Forall (λ event, len (request_fqid event) ≤ FQID_MAX_LEN) events →
   get_models_from_events events db
   = (db, inr (get_many db (list_to_set (request_fqid <$> events)))))
  ∧ (Exists (λ event, len (request_fqid event) > FQID_MAX_LEN) events →
     get_models_from_events events db = (db, inl InvalidFormat))
  ∧ (get_models_from_events events db).1 = db.
Proof.
  unfold get_models_from_events, bind, lift. split_and!.
  - intros Hall. rewrite collect_fqids_ok by done. by rewrite (left_id_L ∅ (∪)).
  - intros Hex. by rewrite collect_fqids_oversized.
  - by destruct (collect_fqids events ∅).
Qed.

End Prefetch.

Lemma foldl_upsert_lookup {V} (f : V → V → V) (rows : list (string * V))
    (t : gmap string V) (key : string) :
  NoDup rows.*1 →
  foldl (λ t row, match t !! row.1 with
                  | None => <[row.1 := row.2]> t
                  | Some old => <[row.1 := f old row.2]> t
                  end) t rows !! key
  = match (list_to_map rows : gmap string V) !! key, t !! key with
    | Some new, Some old => Some (f old new)
    | Some new, None => Some new
    | None, old => old
    end.
Proof.
  revert t. induction rows as [| [k v] rows IH]; intros t Hnodup; simpl.
  - rewrite lookup_empty. by destruct (t !! key).
  - apply NoDup_cons in Hnodup as [Hk Hnodup]. rewrite IH by done.
    destruct (decide (k = key)) as [-> | Hne].
    + rewrite lookup_insert_eq.
      rewrite (not_elem_of_list_to_map_1 _ key Hk).
      destruct (t !! key); by rewrite lookup_insert_eq.
    + rewrite lookup_insert_ne by done.
      destruct (t !! k); by rewrite lookup_insert_ne.
Qed.

Lemma foldl_insert_lookup {V} (rows : list (string * V)) (t : gmap string V) (key : string) :
  NoDup rows.*1 →
  foldl (λ t row, <[row.1 := row.2]> t) t rows !! key
  = match (list_to_map rows : gmap string V) !! key with
    | Some new => Some new
    | None => t !! key
    end.
Proof.
  revert t. induction rows as [| [k v] rows IH]; intros t Hnodup; simpl.
  - by rewrite lookup_empty.
  - apply NoDup_cons in Hnodup as [Hk Hnodup]. rewrite IH by done.
    destruct (decide (k = key)) as [-> | Hne].
    + rewrite lookup_insert_eq, (not_elem_of_list_to_map_1 _ key Hk).
      by rewrite lookup_insert_eq.
    + by rewrite !lookup_insert_ne by done.
Qed.

(** X5.  [update_id_sequences] stores, for every collection it is given,
    the greater of the value of the sequence and the given value, and the
    given value where the collection has no sequence; it never lowers a
    sequence, leaves the other collections alone and touches no other
    table. *)
Theorem update_id_sequences_never_lowers (max_id_per_collection : gmap string Z)
    (db : Database) :
  let r := update_id_sequences max_id_per_collection db in
  r.2 = inr ()
  ∧ (∀ collection,
       id_sequences r.1 !! collection
       = match max_id_per_collection !! collection, id_sequences db !! collection with
         | Some id, Some old => Some (Z.max old id)
         | Some id, None => Some id
         | None, old => old
         end)
  ∧ (∀ collection old, id_sequences db !! collection = Some old →
       ∃ id, id_sequences r.1 !! collection = Some id ∧ old ≤ id)
  ∧ (∀ collection id, max_id_per_collection !! collection = Some id →
       ∃ id', id_sequences r.1 !! collection = Some id' ∧ id ≤ id')
  ∧ r.1 = set_id_sequences (λ _, id_sequences r.1) db.
Proof.
  intros r.
  assert (∀ collection,
            id_sequences r.1 !! collection
            = match max_id_per_collection !! collection, id_sequences db !! collection with
              | Some id, Some old => Some (Z.max old id)
              | Some id, None => Some id
              | None, old => old
              end) as Hlookup.
  { intros collection. subst r. unfold update_id_sequences. simpl.
    rewrite (foldl_upsert_lookup Z.max) by apply NoDup_fst_map_to_list.
    by rewrite list_to_map_to_list. }
  split_and!; [done | done | | | done].
  - intros collection old Hold. rewrite Hlookup, Hold.
    destruct (max_id_per_collection !! collection); eexists; (split; [done | lia]).
  - intros collection id Hid. rewrite Hlookup, Hid.
    destruct (id_sequences db !! collection); eexists; (split; [done | lia]).
Qed.

Lemma model_rows_ok (items : list (string * gmap string JSON)) :
  Forall (λ item, is_Some (item.2 !! META_DELETED)) items →
  model_rows items
  = inr ((λ item, (item.1, mkModelRow (to_json (JObject (map_to_list item.2)))
                             (default JNull (item.2 !! META_DELETED)))) <$> items).
Proof.
  induction items as [| [fqid model] rest IH]; intros Hall; [done |].
  apply Forall_cons in Hall as [[deleted Hdeleted] Hall]. simpl in *.
  by rewrite Hdeleted, IH.
Qed.

Lemma model_rows_KeyError (items : list (string * gmap string JSON)) :
  Exists (λ item, item.2 !! META_DELETED = None) items →
  model_rows items = inl KeyError.
Proof.
  induction items as [| [fqid model] rest IH]; intros Hex; [by inversion Hex |].
  simpl. destruct (model !! META_DELETED) eqn:Hdeleted; [| done].
  apply Exists_cons in Hex as [Hex | Hex]; [simpl in Hex; congruence |].
  by rewrite IH.
Qed.

Lemma model_rows_inl (items : list (string * gmap string JSON)) e :
  model_rows items = inl e → e = KeyError.
Proof.
  induction items as [| [fqid model] rest IH]; [done |]. simpl.
  destruct (model !! META_DELETED); [| by intros [= <-]].
  destruct (model_rows rest); [| done]. intros [= <-]. by apply IH.
Qed.

Lemma models_all_deleted_dec (models : gmap string (gmap string JSON)) :
  Forall (λ item : string * gmap string JSON, is_Some (item.2 !! META_DELETED))
    (map_to_list models)
  ∨ Exists (λ item : string * gmap string JSON, item.2 !! META_DELETED = None)
      (map_to_list models).
Proof.
  induction (map_to_list models) as [| item rest IH]; [by left |].
  destruct IH as [IH | IH]; [| right; by apply Exists_cons_tl].
  destruct (item.2 !! META_DELETED) eqn:Hd.
  - left. apply Forall_cons. split; [by rewrite Hd | done].
  - right. by apply Exists_cons_hd.
Qed.

Lemma row_fields_of_model (model : gmap string JSON) deleted :
  row_fields (mkModelRow (to_json (JObject (map_to_list model))) deleted) = Some model.
Proof. unfold row_fields, to_json. simpl. by rewrite list_to_map_to_list. Qed.

Lemma list_to_map_snd_fmap {V W} (g : V → W) (l : list (string * V)) (key : string) :
  (list_to_map ((λ item : string * V, (item.1, g item.2)) <$> l) : gmap string W) !! key
  = g <$> (list_to_map l : gmap string V) !! key.
Proof.
  induction l as [| [k v] l IH]; simpl; [by rewrite !lookup_empty |].
  destruct (decide (k = key)) as [-> | Hne].
  - by rewrite !lookup_insert_eq.
  - by rewrite !lookup_insert_ne.
Qed.

Lemma list_to_map_model_rows (models : gmap string (gmap string JSON)) (fqid : string) :
  (list_to_map
     ((λ item : string * gmap string JSON,
         (item.1, mkModelRow (to_json (JObject (map_to_list item.2)))
                    (default JNull (item.2 !! META_DELETED)))) <$> map_to_list models)
   : gmap string ModelRow) !! fqid
  = (λ model, mkModelRow (to_json (JObject (map_to_list model)))
                (default JNull (model !! META_DELETED))) <$> models !! fqid.
Proof.
  rewrite (list_to_map_snd_fmap
             (λ model : gmap string JSON,
                mkModelRow (to_json (JObject (map_to_list model)))
                  (default JNull (model !! META_DELETED)))).
  by rewrite list_to_map_to_list.
Qed.

(** X6.  [write_model_updates] raises [KeyError] and writes nothing when a
    model has no [meta_deleted]; otherwise every given model replaces the
    row of its fqid, with the model as data (it reads back as the model)
    and its [meta_deleted] as the deleted flag, and the rows of the other
    fqids stay. *)
Theorem write_model_updates_replaces_rows (models : gmap string (gmap string JSON))
    (db : Database) :
  let r := write_model_updates models db in
  ((∃ fqid model, models !! fqid = Some model ∧ model !! META_DELETED = None)
   → r = (db, inl KeyError))
  ∧ ((∀ fqid model, models !! fqid = Some model → is_Some (model !! META_DELETED))
     → r.2 = inr ()
       ∧ (∀ fqid model, models !! fqid = Some model →
            ∃ row, Db.models r.1 !! fqid = Some row
                   ∧ row_fields row = Some model
                   ∧ model !! META_DELETED = Some (model_deleted row))
       ∧ (∀ fqid, models !! fqid = None → Db.models r.1 !! fqid = Db.models db !! fqid)
       ∧ r.1 = set_models (λ _, Db.models r.1) db).
Proof.
  intros r. subst r. unfold write_model_updates, bind, lift. split.
  - intros (fqid & model & Hlookup & Hnone).
    rewrite model_rows_KeyError; [done |].
    apply Exists_exists. exists (fqid, model). split; [| done].
    by apply elem_of_map_to_list.
  - intros Hall. rewrite model_rows_ok.
    2:{ apply Forall_forall. intros [fqid model] Hin.
        apply elem_of_map_to_list in Hin. by apply (Hall fqid). }
    simpl. split_and!; [done | | | done].
    + intros fqid model Hlookup.
      rewrite foldl_insert_lookup.
      2:{ rewrite <- list_fmap_compose. apply NoDup_fst_map_to_list. }
      rewrite list_to_map_model_rows, Hlookup. simpl. eexists. split; [done |].
      split; [apply row_fields_of_model |]. simpl.
      by destruct (Hall fqid model Hlookup) as [deleted ->].
    + intros fqid Hnone. rewrite foldl_insert_lookup.
      2:{ rewrite <- list_fmap_compose. apply NoDup_fst_map_to_list. }
      by rewrite list_to_map_model_rows, Hnone.
Qed.

(** X7.  [write_model_updates_action_worker] differs from
    [write_model_updates] on an fqid that has a row: the fields of the new
    model are merged into the stored ones, the new value winning, and the
    stored fields the model does not name are kept; the deleted flag is
    replaced.  An fqid without a row gets the model as it is. *)
Theorem write_model_updates_action_worker_merges
    (models : gmap string (gmap string JSON)) (db : Database) :
  (∀ fqid model, models !! fqid = Some model → is_Some (model !! META_DELETED)) →
  let r := write_model_updates_action_worker models db in
  r.2 = inr ()
  ∧ (∀ fqid model old stored,
       models !! fqid = Some model →
       Db.models db !! fqid = Some old → row_fields old = Some stored →
       ∃ row, Db.models r.1 !! fqid = Some row
              ∧ row_fields row = Some (model ∪ stored)
              ∧ model !! META_DELETED = Some (model_deleted row))
  ∧ (∀ fqid model,
       models !! fqid = Some model → Db.models db !! fqid = None →
       ∃ row, Db.models r.1 !! fqid = Some row
              ∧ row_fields row = Some model
              ∧ model !! META_DELETED = Some (model_deleted row))
  ∧ (∀ fqid, models !! fqid = None → Db.models r.1 !! fqid = Db.models db !! fqid).
Proof.
  intros Hall r. subst r. unfold write_model_updates_action_worker, bind, lift.
  rewrite model_rows_ok.
  2:{ apply Forall_forall. intros [fqid model] Hin.
      apply elem_of_map_to_list in Hin. by apply (Hall fqid). }
  simpl.
  assert (∀ fqid,
            foldl upsert_action_worker (Db.models db)
              ((λ item : string * gmap string JSON,
                  (item.1, mkModelRow (to_json (JObject (map_to_list item.2)))
                             (default JNull (item.2 !! META_DELETED))))
                 <$> map_to_list models) !! fqid
            = match models !! fqid, Db.models db !! fqid with
              | Some model, Some old =>
                  Some (mkModelRow
                          (jsonb_concat (model_data old) (JObject (map_to_list model)))
                          (default JNull (model !! META_DELETED)))
              | Some model, None =>
                  Some (mkModelRow (JObject (map_to_list model))
                          (default JNull (model !! META_DELETED)))
              | None, old => old
              end) as Hlookup.
  { intros fqid.
    pose proof (foldl_upsert_lookup
                  (λ old new : ModelRow,
                     mkModelRow (jsonb_concat (model_data old) (model_data new))
                       (model_deleted new))) as Hfold.
    unfold upsert_action_worker. rewrite Hfold.
    2:{ rewrite <- list_fmap_compose. apply NoDup_fst_map_to_list. }
    rewrite list_to_map_model_rows. by destruct (models !! fqid). }
  split_and!; [done | | |].
  - intros fqid model old stored Hmodel Hold Hstored.
    rewrite Hlookup, Hmodel, Hold. eexists. split; [done |]. simpl.
    split; [| by destruct (Hall fqid model Hmodel) as [deleted ->]].
    unfold row_fields in *. destruct (model_data old) as [| | | | | o]; try done.
    injection Hstored as <-. simpl. by rewrite !list_to_map_to_list.
  - intros fqid model Hmodel Hnone.
    rewrite Hlookup, Hmodel, Hnone. eexists. split; [done |].
    split; [apply row_fields_of_model |]. simpl.
    by destruct (Hall fqid model Hmodel) as [deleted ->].
  - intros fqid Hnone. by rewrite Hlookup, Hnone.
Qed.

Lemma write_model_updates_action_worker_merges_witness :
  let stored := mkModelRow (JObject [("a"%string, JInt 1); ("b"%string, JInt 2)]) (JBool false) in
  let db := set_models (λ t, <["action_worker/1"%string := stored]> t) empty_database in
  let model : gmap string JSON := {[ "b"%string := JInt 3; META_DELETED := JBool false ]} in
  (write_model_updates_action_worker {[ "action_worker/1"%string := model ]} db).2 = inr ().
Proof.
  intros stored db model.
  refine (proj1 (write_model_updates_action_worker_merges
                   {[ "action_worker/1"%string := model ]} db _)).
  intros fqid m Hlookup. apply lookup_singleton_Some in Hlookup as [_ <-].
  vm_compute. by eexists.
Defined.

(** The merge on a stored action worker, beside the replacement. *)
Example write_model_updates_action_worker_example :
  let stored := mkModelRow (JObject [("a"%string, JInt 1); ("b"%string, JInt 2)]) (JBool false) in
  let db := set_models (λ t, <["action_worker/1"%string := stored]> t) empty_database in
  let model : gmap string JSON := {[ "b"%string := JInt 3; META_DELETED := JBool true ]} in
  let models : gmap string (gmap string JSON) := {[ "action_worker/1"%string := model ]} in
  Db.models (write_model_updates_action_worker models db).1 !! "action_worker/1"%string
    ≫= row_fields
  = Some {[ "a"%string := JInt 1; "b"%string := JInt 3; META_DELETED := JBool true ]}
  ∧ Db.models (write_model_updates models db).1 !! "action_worker/1"%string ≫= row_fields
    = Some {[ "b"%string := JInt 3; META_DELETED := JBool true ]}.
Proof. split; vm_compute; reflexivity. Qed.

(** ** History information and truncation *)

(** X8.  [delete_history_information] clears the information of every
    position and keeps the positions themselves: their number and order,
    position numbers, timestamps, migration indices and user ids; the
    events and every other table are untouched, and a second call changes
    nothing more. *)
Theorem delete_history_information_clears_only_information (db : Database) :
  let r := delete_history_information db in
  r.2 = inr ()
  ∧ Forall (λ row, pos_information row = JNull) (positions r.1)
  ∧ pos_position <$> positions r.1 = pos_position <$> positions db
  ∧ pos_timestamp <$> positions r.1 = pos_timestamp <$> positions db
  ∧ pos_migration_index <$> positions r.1 = pos_migration_index <$> positions db
  ∧ pos_user_id <$> positions r.1 = pos_user_id <$> positions db
  ∧ r.1 = set_positions (positions r.1) (positions_position_seq db) db
  ∧ delete_history_information r.1 = r.
Proof.
  intros r. subst r. unfold delete_history_information. simpl.
  split_and!; try done.
  - apply Forall_fmap. by apply Forall_true.
  - by rewrite <- list_fmap_compose.
  - by rewrite <- list_fmap_compose.
  - by rewrite <- list_fmap_compose.
  - by rewrite <- list_fmap_compose.
  - unfold set_positions. simpl. do 2 f_equal.
    rewrite <- list_fmap_compose. by apply list_fmap_ext.
Qed.

Lemma truncate_db_spec (db : Database) :
  truncate_db db = (mkDatabase [] 1 ∅ [] 1 [] 1 [] ∅ (current_timestamp db), inr ()).
Proof. done. Qed.

(** X9.  [truncate_db] leaves every table empty and the three sequences at
    1, whatever the database held; calling it again gives the same
    database.  The next reservation for any collection then starts at 1
    and the next position is 1. *)
Theorem truncate_db_clean_and_idempotent (db : Database) :
  let r := truncate_db db in
  r.2 = inr ()
  ∧ positions r.1 = [] ∧ Db.events r.1 = [] ∧ Db.models r.1 = ∅
  ∧ collectionfields r.1 = [] ∧ events_to_collectionfields r.1 = []
  ∧ id_sequences r.1 = ∅
  ∧ positions_position_seq r.1 = 1 ∧ events_id_seq r.1 = 1 ∧ collectionfields_id_seq r.1 = 1
  ∧ truncate_db r.1 = r
  ∧ (∀ collection n, collection ≠ ""%string → len collection ≤ COLLECTION_MAX_LEN → 1 ≤ n →
       (reserve_next_ids collection n r.1).2 = inr (seqZ 1 n))
  ∧ (∀ migration_index information user_id,
       (create_position migration_index information user_id r.1).2 = inr 1).
Proof.
  intros r. subst r. rewrite truncate_db_spec. simpl. split_and!; try done.
  intros collection n Hne Hlen Hn. by rewrite reserve_next_ids_spec.
Qed.

(** ** The collectionfield index *)

Lemma collectionfield_arguments_ok (modified_collectionfields : list string) position :
  Forall (λ collectionfield, len collectionfield ≤ COLLECTIONFIELD_MAX_LEN)
    modified_collectionfields →
  collectionfield_arguments modified_collectionfields position
  = inr ((λ collectionfield, (collectionfield, position)) <$> modified_collectionfields).
Proof.
  induction modified_collectionfields as [| c rest IH]; intros Hall; [done |].
  apply Forall_cons in Hall as [Hc Hall]. simpl.
  rewrite bool_decide_eq_false_2 by lia. by rewrite IH.
Qed.

Lemma collectionfield_arguments_too_long (modified_collectionfields : list string) position :
  Exists (λ collectionfield, len collectionfield > COLLECTIONFIELD_MAX_LEN)
    modified_collectionfields →
  collectionfield_arguments modified_collectionfields position = inl InvalidFormat.
Proof.
  induction modified_collectionfields as [| c rest IH]; intros Hex; [by inversion Hex |].
  simpl. case_bool_decide; [done |].
  apply Exists_cons in Hex as [Hex | Hex]; [lia |]. by rewrite IH.
Qed.

Lemma same_collectionfield_same_row (rows : list CollectionfieldRow) row1 row2 :
  NoDup (cf_collectionfield <$> rows) →
  row1 ∈ rows → row2 ∈ rows → cf_collectionfield row1 = cf_collectionfield row2 →
  row1 = row2.
Proof.
  induction rows as [| row rows IH]; intros Hnodup H1 H2 Hkey; [by apply elem_of_nil in H1 |].
  rewrite fmap_cons in Hnodup. apply NoDup_cons in Hnodup as [Hnotin Hnodup].
  apply elem_of_cons in H1 as [-> | H1]; apply elem_of_cons in H2 as [-> | H2].
  - done.
  - exfalso. apply Hnotin. rewrite Hkey. by apply list_elem_of_fmap_2.
  - exfalso. apply Hnotin. rewrite <- Hkey. by apply list_elem_of_fmap_2.
  - by apply IH.
Qed.

(** One upserted row: the table afterwards. *)
Lemma upsert_collectionfield_spec collectionfield position rows next rows' next' id :
  NoDup (cf_collectionfield <$> rows) →
  upsert_collectionfield collectionfield position rows next = (rows', next', id) →
  NoDup (cf_collectionfield <$> rows')
  ∧ (∀ row, row ∈ rows'
            ↔ (row ∈ rows ∧ cf_collectionfield row ≠ collectionfield)
              ∨ row = mkCollectionfieldRow id collectionfield position)
  ∧ (∀ old, old ∈ rows → cf_collectionfield old = collectionfield → cf_id old = id)
  ∧ ((∀ old, old ∈ rows → cf_collectionfield old ≠ collectionfield) →
     id = next ∧ next' = next + 1)
  ∧ next ≤ next'.
Proof.
  revert rows' next' id. induction rows as [| row rows IH]; intros rows' next' id Hnodup; simpl.
  - intros [= <- <- <-]. split_and!.
    + apply NoDup_singleton.
    + intros row. rewrite list_elem_of_singleton, elem_of_nil. tauto.
    + intros old Hin. by apply elem_of_nil in Hin.
    + done.
    + lia.
  - rewrite fmap_cons in Hnodup. apply NoDup_cons in Hnodup as [Hnotin Hnodup].
    case_decide as Hkey.
    + intros [= <- <- <-]. split_and!.
      * rewrite fmap_cons. simpl. rewrite <- Hkey. by apply NoDup_cons.
      * intros r. rewrite !elem_of_cons. split.
        -- intros [-> | Hin]; [by right |]. left. split; [by right |].
           intros Hr. apply Hnotin. rewrite Hkey, <- Hr. by apply list_elem_of_fmap_2.
        -- intros [[[-> | Hin] Hne] | ->]; [done | by right | by left].
      * intros old Hin Hold. apply elem_of_cons in Hin as [-> | Hin]; [done |].
        exfalso. apply Hnotin. rewrite Hkey, <- Hold. by apply list_elem_of_fmap_2.
      * intros Hnone. exfalso. apply (Hnone row); [by left | done].
      * lia.
    + destruct (upsert_collectionfield collectionfield position rows next)
        as [[rest' next1] id1] eqn:Hrest.
      intros [= <- <- <-].
      destruct (IH _ _ _ Hnodup eq_refl) as (Hnd & Hmem & Hold & Hnew & Hle).
      split_and!.
      * rewrite fmap_cons. apply NoDup_cons. split; [| done].
        intros Hin. apply list_elem_of_fmap in Hin as (r & Hr & Hin).
        apply Hmem in Hin as [[Hin Hne] | ->]; [| by simpl in Hr].
        apply Hnotin. rewrite Hr. by apply list_elem_of_fmap_2.
      * intros r. rewrite !elem_of_cons, Hmem. split.
        -- intros [-> | [[Hin Hne] | ->]]; [left; split; [by left | done] | | by right].
           left. split; [by right | done].
        -- intros [[[-> | Hin] Hne] | ->]; [by left | right; by left | right; by right].
      * intros old Hin Hk. apply elem_of_cons in Hin as [-> | Hin]; [done |]. by apply Hold.
      * intros Hnone. apply Hnew. intros old Hin. apply Hnone. by right.
      * done.
Qed.

Lemma upsert_collectionfields_spec (cfs : list string) position rows next rows' next' ids :
  NoDup (cf_collectionfield <$> rows) →
  NoDup cfs →
  upsert_collectionfields ((λ c, (c, position)) <$> cfs) rows next = (rows', next', ids) →
  NoDup (cf_collectionfield <$> rows')
  ∧ length ids = length cfs
  ∧ (∀ row, row ∈ rows'
            ↔ (row ∈ rows ∧ cf_collectionfield row ∉ cfs)
              ∨ ∃ (i : nat) c id, cfs !! i = Some c ∧ ids !! i = Some id
                                  ∧ row = mkCollectionfieldRow id c position)
  ∧ (∀ (i : nat) c id old, cfs !! i = Some c → ids !! i = Some id →
       old ∈ rows → cf_collectionfield old = c → cf_id old = id)
  ∧ next ≤ next'.
Proof.
  revert rows next rows' next' ids.
  induction cfs as [| c cfs IH]; intros rows next rows' next' ids Hrows Hcfs; simpl.
  - intros [= <- <- <-]. split_and!; [done | done | | | lia].
    + intros row. split; [intros Hin; left; split; [done | apply not_elem_of_nil] |].
      intros [[Hin _] | (i & ? & ? & Hi & _)]; [done | by rewrite lookup_nil in Hi].
    + intros i ? ? ? Hi. by rewrite lookup_nil in Hi.
  - apply NoDup_cons in Hcfs as [Hc Hcfs].
    destruct (upsert_collectionfield c position rows next) as [[rows1 next1] id1] eqn:H1.
    destruct (upsert_collectionfields _ rows1 next1) as [[rows2 next2] ids2] eqn:H2.
    intros [= <- <- <-].
    destruct (upsert_collectionfield_spec _ _ _ _ _ _ _ Hrows H1)
      as (Hnd1 & Hmem1 & Hold1 & _ & Hle1).
    destruct (IH _ _ _ _ _ Hnd1 Hcfs H2) as (Hnd2 & Hlen2 & Hmem2 & Hold2 & Hle2).
    split_and!; [done | simpl; by rewrite Hlen2 | | | lia].
    + intros row. rewrite Hmem2, Hmem1, elem_of_cons. split.
      * intros [[[[Hin Hne] | ->] Hnotin] | (i & c' & id & Hi & Hid & ->)].
        -- left. split; [done |]. intros [? | ?]; done.
        -- right. by exists 0%nat, c, id1.
        -- right. by exists (S i), c', id.
      * intros [[Hin Hnotin] | (i & c' & id & Hi & Hid & ->)].
        -- left. split; [| tauto]. left. split; [done |]. intros Hk. apply Hnotin. by left.
        -- destruct i as [| i]; simpl in *.
           ++ injection Hi as <-. injection Hid as <-. left. split; [by right | done].
           ++ right. by exists i, c', id.
    + intros i c' id old Hi Hid Hin Hkey. destruct i as [| i]; simpl in *.
      * injection Hi as <-. injection Hid as <-. by apply Hold1.
      * apply (Hold2 i c' id old Hi Hid); [| done].
        apply Hmem1. left. split; [done |]. rewrite Hkey. intros ->.
        apply Hc. by apply list_elem_of_lookup_2 in Hi.
Qed.

(** X10.  [insert_modified_collectionfields_into_db] raises
    [InvalidFormat] and writes nothing when a collectionfield is longer
    than 239 characters.  Otherwise, on a table with one row per
    collectionfield and for distinct collectionfields, it returns one id
    per collectionfield, in their order; afterwards the table still has one
    row per collectionfield, each given collectionfield has its row at the
    given position under the returned id, a row that existed keeps its id,
    and the rows of the other collectionfields are as before. *)
Theorem insert_modified_collectionfields_upserts (cfs : list string) (position : Position)
    (db : Database) :
  let r := insert_modified_collectionfields_into_db cfs position db in
  (Exists (λ c, len c > COLLECTIONFIELD_MAX_LEN) cfs → r = (db, inl InvalidFormat))
  ∧ (Forall (λ c, len c ≤ COLLECTIONFIELD_MAX_LEN) cfs →
     NoDup (cf_collectionfield <$> collectionfields db) → NoDup cfs →
     ∃ ids,
       r.2 = inr ids
       ∧ length ids = length cfs
       ∧ NoDup (cf_collectionfield <$> collectionfields r.1)
       ∧ (∀ (i : nat) c, cfs !! i = Some c →
            ∃ id, ids !! i = Some id
                  ∧ mkCollectionfieldRow id c position ∈ collectionfields r.1
                  ∧ collectionfield_id (collectionfields r.1) c = Some id
                  ∧ (∀ old, old ∈ collectionfields db → cf_collectionfield old = c →
                       cf_id old = id))
       ∧ (∀ row, cf_collectionfield row ∉ cfs →
            row ∈ collectionfields r.1 ↔ row ∈ collectionfields db)
       ∧ r.1 = set_collectionfields (collectionfields r.1) (collectionfields_id_seq r.1) db).
Proof.
  intros r. subst r. unfold insert_modified_collectionfields_into_db, bind, lift. split.
  - intros Hex. by rewrite collectionfield_arguments_too_long.
  - intros Hall Hrows Hcfs. rewrite collectionfield_arguments_ok by done.
    destruct (upsert_collectionfields _ _ _) as [[rows' next'] ids] eqn:Hupsert.
    destruct (upsert_collectionfields_spec _ _ _ _ _ _ _ Hrows Hcfs Hupsert)
      as (Hnd & Hlen & Hmem & Hold & _).
    exists ids. simpl. split_and!; [done | done | done | | | done].
    + intros i c Hi.
      destruct (ids !! i) as [id |] eqn:Hid.
      2:{ apply lookup_ge_None in Hid. apply lookup_lt_Some in Hi. lia. }
      assert (mkCollectionfieldRow id c position ∈ rows') as Hin.
      { apply Hmem. right. by exists i, c, id. }
      exists id. split_and!; [done | done | | by eauto].
      unfold collectionfield_id.
      destruct (filter _ rows') as [| row rest] eqn:Hfilter.
      * exfalso. assert (mkCollectionfieldRow id c position ∈ filter
                           (λ row, cf_collectionfield row = c) rows') as Hf
          by (by apply list_elem_of_filter).
        rewrite Hfilter in Hf. by apply elem_of_nil in Hf.
      * simpl. f_equal.
        assert (row ∈ filter (λ row, cf_collectionfield row = c) rows') as Hf
          by (rewrite Hfilter; by left).
        apply list_elem_of_filter in Hf as [Hkey Hrow].
        by rewrite (same_collectionfield_same_row rows' row
                      (mkCollectionfieldRow id c position) Hnd Hrow Hin Hkey).
    + intros row Hnotin. rewrite Hmem. split; [| by left].
      intros [[Hin _] | (i & c & id & Hi & _ & ->)]; [done |].
      exfalso. apply Hnotin. simpl. by apply list_elem_of_lookup_2 in Hi.
Qed.

(** Two upserts of one collectionfield leave one row, at the later
    position and under the first id. *)
Example insert_modified_collectionfields_example :
  let r1 := insert_modified_collectionfields_into_db
              ["motion/title"%string; "motion/text"%string] 1 empty_database in
  let r2 := insert_modified_collectionfields_into_db ["motion/title"%string] 2 r1.1 in
  r1.2 = inr [1; 2] ∧ r2.2 = inr [1]
  ∧ collectionfields r2.1
    = [mkCollectionfieldRow 1 "motion/title" 2; mkCollectionfieldRow 2 "motion/text" 1]
  ∧ collectionfields_id_seq r2.1 = 4.
Proof. vm_compute. done. Qed.

(** ** What [insert_events] writes *)

Section InsertEventsWrites.

Context {R E : Type} `{!BaseDbEvent E} `{!WriterServices R E}.
Implicit Types (db : Database) (st : Locals) (db_events : list E).

Lemma db_event_body_locals position db_event st st' :
  db_event_body position db_event st = inr st' →
  l_event_indices_per_modified_collectionfield st'
  = indices_after (l_weight st) (l_event_indices_per_modified_collectionfield st) [db_event]
  ∧ l_max_id_per_collection st' = max_id_step (l_max_id_per_collection st) db_event
  ∧ l_modified_models st' = modified_step (l_modified_models st) db_event.
Proof.
  unfold db_event_body. intros Hbody.
  apply ebind_inr in Hbody as (ci & Hci & Hbody).
  apply ebind_inr in Hbody as (models' & _ & Hbody).
  injection Hbody as <-. simpl. split_and!; [| | done].
  - by replace (l_weight st + 1 - 1) with (l_weight st) by lia.
  - unfold max_id_step. by rewrite Hci.
Qed.

Lemma db_events_loop_locals position db_events st st' :
  db_events_loop position db_events st = inr st' →
  l_event_indices_per_modified_collectionfield st'
  = indices_after (l_weight st) (l_event_indices_per_modified_collectionfield st) db_events
  ∧ l_max_id_per_collection st' = foldl max_id_step (l_max_id_per_collection st) db_events
  ∧ l_modified_models st' = foldl modified_step (l_modified_models st) db_events.
Proof.
  revert st. induction db_events as [| db_event rest IH]; intros st; simpl.
  - by intros [= <-].
  - intros Hloop. apply ebind_inr in Hloop as (st1 & Hbody & Hloop).
    pose proof (db_event_body_inr _ _ _ _ Hbody) as (Hw & _ & _).
    apply db_event_body_locals in Hbody as (Hi & Hm & Hmod).
    apply IH in Hloop as (Hi' & Hm' & Hmod').
    rewrite Hi', Hm', Hmod', Hi, Hm, Hmod, Hw. done.
Qed.

Lemma indices_after_app index d db_events1 db_events2 :
  indices_after index d (db_events1 ++ db_events2)
  = indices_after (index + Z.of_nat (length db_events1))
      (indices_after index d db_events1) db_events2.
Proof.
  revert index d. induction db_events1 as [| e rest IH]; intros index d; simpl.
  - by rewrite Z.add_0_r.
  - rewrite IH. f_equal. lia.
Qed.

Lemma events_loop_locals position (events : list R) st st' translated :
  events_loop position events st = inr st' →
  translations position events (l_models st) = inr translated →
  l_event_indices_per_modified_collectionfield st'
  = indices_after (l_weight st) (l_event_indices_per_modified_collectionfield st)
      (concat translated)
  ∧ l_max_id_per_collection st'
    = foldl max_id_step (l_max_id_per_collection st) (concat translated)
  ∧ l_modified_models st' = foldl modified_step (l_modified_models st) (concat translated).
Proof.
  revert st translated. induction events as [| event rest IH]; intros st translated; simpl.
  - by intros [= <-] [= <-].
  - intros Hloop Htr.
    apply ebind_inr in Hloop as (db_events & Htranslate & Hloop).
    apply ebind_inr in Hloop as (st1 & Hinner & Hloop).
    rewrite Htranslate in Htr. simpl in Htr.
    pose proof (db_events_loop_inr _ _ _ _ Hinner) as (Hw & _ & Hmodels).
    rewrite Hmodels in Htr. simpl in Htr.
    apply ebind_inr in Htr as (more & Hmore & [= <-]).
    apply db_events_loop_locals in Hinner as (Hi & Hm & Hmod).
    destruct (IH _ _ Hloop Hmore) as (Hi' & Hm' & Hmod').
    simpl. rewrite indices_after_app, !foldl_app.
    by rewrite Hi', Hm', Hmod', Hi, Hm, Hmod, Hw.
Qed.

(** Every index the dict holds is the index of an event. *)
Lemma defaultdict_append_pairs key value d pair :
  pair ∈ index_pairs (defaultdict_append key value d)
  ↔ pair ∈ index_pairs d ∨ pair = (key, value).
Proof.
  unfold index_pairs. induction d as [| [k vs] d IH]; simpl.
  - rewrite ?app_nil_r, list_elem_of_singleton, elem_of_nil. tauto.
  - case_decide as Hk; simpl.
    + subst k. rewrite !elem_of_app, fmap_app, elem_of_app. simpl.
      rewrite list_elem_of_singleton. tauto.
    + rewrite !elem_of_app, IH. tauto.
Qed.

Lemma defaultdict_append_keys key value d :
  NoDup d.*1 →
  NoDup (defaultdict_append key value d).*1
  ∧ ∀ k, k ∈ (defaultdict_append key value d).*1 ↔ k ∈ d.*1 ∨ k = key.
Proof.
  induction d as [| [k vs] d IH]; intros Hnodup; simpl.
  - split; [apply NoDup_singleton |]. intros k. rewrite list_elem_of_singleton, elem_of_nil.
    tauto.
  - apply NoDup_cons in Hnodup as [Hk Hnodup]. destruct (IH Hnodup) as [IHn IHk].
    case_decide as Hkey; simpl.
    + subst k. split; [by apply NoDup_cons |]. intros k. rewrite elem_of_cons.
      split; [tauto |]. intros [? | ->]; [done | by left].
    + split.
      * apply NoDup_cons. split; [| done]. rewrite IHk. intros [? | ?]; done.
      * intros k'. rewrite !elem_of_cons, IHk. tauto.
Qed.

Lemma foldl_defaultdict_append index cfs d :
  NoDup d.*1 →
  let d' := foldl (λ d collectionfield, defaultdict_append collectionfield index d) d cfs in
  NoDup d'.*1
  ∧ (∀ k, k ∈ d'.*1 ↔ k ∈ d.*1 ∨ k ∈ cfs)
  ∧ (∀ pair, pair ∈ index_pairs d' ↔ pair ∈ index_pairs d ∨ (pair.1 ∈ cfs ∧ pair.2 = index)).
Proof.
  revert d. induction cfs as [| c cfs IH]; intros d Hnodup; simpl.
  - split_and!; [done | |]; intros ?; rewrite elem_of_nil; tauto.
  - destruct (defaultdict_append_keys c index d Hnodup) as [Hn Hk].
    destruct (IH _ Hn) as (IHn & IHk & IHp). split_and!; [done | |].
    + intros k. rewrite IHk, Hk, elem_of_cons. tauto.
    + intros [k i]. rewrite IHp, defaultdict_append_pairs, elem_of_cons. simpl.
      split; [| naive_solver]. intros [[? | [= -> ->]] | [? ?]]; naive_solver.
Qed.

Lemma indices_after_spec index d db_events :
  NoDup d.*1 →
  let d' := indices_after index d db_events in
  NoDup d'.*1
  ∧ (∀ k, k ∈ d'.*1
          ↔ k ∈ d.*1
            ∨ ∃ db_event, db_event ∈ db_events
                          ∧ k ∈ get_modified_collectionfields_from_event db_event)
  ∧ (∀ c i, (c, i) ∈ index_pairs d'
            ↔ (c, i) ∈ index_pairs d
              ∨ ∃ (j : nat) db_event,
                  db_events !! j = Some db_event ∧ i = index + Z.of_nat j
                  ∧ c ∈ get_modified_collectionfields_from_event db_event).
Proof.
  revert index d. induction db_events as [| e rest IH]; intros index d Hnodup; simpl.
  - split_and!; [done | |].
    + intros k. split; [by left |]. intros [? | (? & Hin & _)]; [done |].
      by apply elem_of_nil in Hin.
    + intros c i. split; [by left |]. intros [? | (j & ? & Hj & _)]; [done |].
      by rewrite lookup_nil in Hj.
  - destruct (foldl_defaultdict_append index
                (get_modified_collectionfields_from_event e) d Hnodup) as (Hn & Hk & Hp).
    destruct (IH (index + 1) _ Hn) as (IHn & IHk & IHp). split_and!; [done | |].
    + intros k. rewrite IHk, Hk. split.
      * intros [[? | ?] | (e' & Hin & ?)]; [by left | right; exists e; split; [by left | done] |].
        right. exists e'. split; [by right | done].
      * intros [? | (e' & Hin & ?)]; [by left; left |].
        apply elem_of_cons in Hin as [-> | Hin]; [left; by right |]. right. by exists e'.
    + intros c i. rewrite IHp, Hp. simpl. split.
      * intros [[? | [? ->]] | (j & e' & Hj & -> & ?)]; [by left | |].
        -- right. exists 0%nat, e. split_and!; [done | lia | done].
        -- right. exists (S j), e'. split_and!; [done | lia | done].
      * intros [? | (j & e' & Hj & -> & ?)]; [by left; left |].
        destruct j as [| j]; simpl in Hj.
        -- injection Hj as <-. left. right. split; [done | lia].
        -- right. exists j, e'. split_and!; [done | lia | done].
Qed.

Lemma py_index_nonneg {A} (l : list A) (i : Z) :
  0 ≤ i → py_index l i = l !! Z.to_nat i.
Proof. intros Hi. unfold py_index. by rewrite bool_decide_eq_true_2. Qed.

Lemma py_index_neg {A} (l : list A) (i : Z) :
  - Z.of_nat (length l) ≤ i < 0 →
  py_index l i = l !! Z.to_nat (Z.of_nat (length l) + i).
Proof.
  intros Hi. unfold py_index.
  rewrite bool_decide_eq_false_2 by lia. by rewrite bool_decide_eq_true_2 by lia.
Qed.

Lemma link_rows_ok event_ids collectionfield_id event_indices :
  Forall (λ i, 0 ≤ i < Z.of_nat (length event_ids)) event_indices →
  ∃ rows, link_rows event_ids collectionfield_id event_indices = inr rows
          ∧ ∀ link, link ∈ rows
                    ↔ ∃ i, i ∈ event_indices ∧ event_ids !! Z.to_nat i = Some link.1
                           ∧ link.2 = collectionfield_id.
Proof.
  induction event_indices as [| i rest IH]; intros Hall; simpl.
  - exists []. split; [done |]. intros link. rewrite elem_of_nil.
    split; [done |]. intros (i & Hi & _). by apply elem_of_nil in Hi.
  - apply Forall_cons in Hall as [Hi Hall]. destruct (IH Hall) as (rows & -> & Hmem).
    rewrite py_index_nonneg by lia.
    destruct (event_ids !! Z.to_nat i) as [event_id |] eqn:Hlookup.
    2:{ apply lookup_ge_None in Hlookup. lia. }
    simpl. eexists. split; [done |]. intros [eid cid]. rewrite elem_of_cons, Hmem. simpl.
    split.
    + intros [[= -> ->] | (i' & Hin & ? & ?)].
      * exists i. split_and!; [by left | done | done].
      * exists i'. split_and!; [by right | done | done].
    + intros (i' & Hin & Hl & ->). apply elem_of_cons in Hin as [-> | Hin].
      * left. rewrite Hlookup in Hl. by injection Hl as ->.
      * right. by exists i'.
Qed.

Lemma link_arguments_ok event_ids (zipped : list (Z * list Z)) :
  Forall (λ p, Forall (λ i, 0 ≤ i < Z.of_nat (length event_ids)) p.2) zipped →
  ∃ rows, link_arguments event_ids zipped = inr rows
          ∧ ∀ link, link ∈ rows
                    ↔ ∃ p i, p ∈ zipped ∧ i ∈ p.2
                             ∧ event_ids !! Z.to_nat i = Some link.1 ∧ link.2 = p.1.
Proof.
  induction zipped as [| [cid indices] rest IH]; intros Hall; simpl.
  - exists []. split; [done |]. intros link. rewrite elem_of_nil.
    split; [done |]. intros (p & i & Hp & _). by apply elem_of_nil in Hp.
  - apply Forall_cons in Hall as [Hhere Hall]. simpl in Hhere.
    destruct (link_rows_ok event_ids cid indices Hhere) as (rows & -> & Hrows).
    destruct (IH Hall) as (more & -> & Hmore). simpl.
    eexists. split; [done |]. intros link. rewrite elem_of_app, Hrows, Hmore. split.
    + intros [(i & Hi & Hl & Hc) | (p & i & Hp & Hi & Hl & Hc)].
      * exists (cid, indices), i. split_and!; [by left | done | done | done].
      * exists p, i. split_and!; [by right | done | done | done].
    + intros (p & i & Hp & Hi & Hl & Hc). apply elem_of_cons in Hp as [-> | Hp].
      * left. by exists i.
      * right. by exists p, i.
Qed.

End InsertEventsWrites.

Section InsertEventsOutcome.

Context {R E : Type} `{!BaseDbEvent E} `{!WriterServices R E}.
Implicit Types (db : Database) (st : Locals) (db_events : list E).

(** The run of [insert_events] up to the end of the loop. *)
Lemma insert_events_until_loop (events : list R) migration_index information user_id db :
  events ≠ [] →
  Forall (λ event, len (request_fqid event) ≤ FQID_MAX_LEN) events →
  insert_events events migration_index information user_id db
  = let db1 := (create_position migration_index information user_id db).1 in
    let position := positions_position_seq db in
    match events_loop position events
            (initial_locals (prefetched events migration_index information user_id db)) with
    | inl e => (db1, inl e)
    | inr st =>
        (update_id_sequences (l_max_id_per_collection st) ;;;
         write_model_updates (l_models st) ;;;
         event_ids <-- write_events (l_events_data st) ;;
         collectionfield_ids <--
           insert_modified_collectionfields_into_db
             (fst <$> l_event_indices_per_modified_collectionfield st) position ;;
         connect_events_and_collection_fields event_ids collectionfield_ids
           (snd <$> l_event_indices_per_modified_collectionfield st) ;;;
         ret (position, l_modified_models st)) db1
    end.
Proof.
  intros Hne Hall. destruct events as [| event rest]; [done |].
  unfold insert_events, prefetched, initial_locals.
  unfold bind at 1. cbn [create_position fst snd].
  unfold bind at 1. unfold get_models_from_events, bind at 1, lift at 1.
  rewrite collect_fqids_ok by done. rewrite (left_id_L ∅ (∪)).
  unfold bind at 1, lift at 1.
  by destruct (events_loop _ _ _).
Qed.

Lemma events_loop_indices_in_range position (events : list R) models st :
  events_loop position events (initial_locals models) = inr st →
  NoDup (l_event_indices_per_modified_collectionfield st).*1
  ∧ Forall (λ kv : string * list Z,
              Forall (λ i, 0 ≤ i < Z.of_nat (length (l_events_data st))) kv.2)
      (l_event_indices_per_modified_collectionfield st).
Proof.
  intros Hloop.
  destruct (events_loop_inr _ _ _ _ Hloop) as (translated & Htr & _ & Hdata).
  destruct (events_loop_locals _ _ _ _ _ Hloop Htr) as (Hdict & _ & _).
  simpl in *. rewrite Hdict, Hdata, length_weighted.
  destruct (indices_after_spec 0 [] (concat translated)) as (Hnodup & _ & Hpairs);
    [apply NoDup_nil_2 |].
  split; [done |]. apply Forall_forall. intros [c indices] Hin.
  apply Forall_forall. intros i Hi.
  assert ((c, i) ∈ index_pairs (indices_after 0 [] (concat translated))) as Hpair.
  { unfold index_pairs. apply list_elem_of_bind. exists (c, indices). split; [| done].
    simpl. apply list_elem_of_fmap. by exists i. }
  apply Hpairs in Hpair as [Hpair | (j & e & Hj & -> & _)].
  - by apply elem_of_nil in Hpair.
  - apply lookup_lt_Some in Hj. lia.
Qed.



(** X13.  A collectionfield longer than 239 characters is found only
    after the loop: [insert_events] then raises [InvalidFormat] when the
    position row, the id sequences, the models and the events are already
    written; the collectionfields and the links are not. *)
Theorem insert_events_collectionfield_too_long (events : list R) migration_index information
    user_id db st :
  events ≠ [] →
  Forall (λ event, len (request_fqid event) ≤ FQID_MAX_LEN) events →
  let position := positions_position_seq db in
  events_loop position events
    (initial_locals (prefetched events migration_index information user_id db)) = inr st →
  (∀ fqid model, l_models st !! fqid = Some model → is_Some (model !! META_DELETED)) →
  Exists (λ kv : string * list Z, len kv.1 > COLLECTIONFIELD_MAX_LEN)
    (l_event_indices_per_modified_collectionfield st) →
  let r := insert_events events migration_index information user_id db in
  r.2 = inl InvalidFormat
  ∧ length (positions r.1) = S (length (positions db))
  ∧ id_sequences r.1 = id_sequences (update_id_sequences (l_max_id_per_collection st) db).1
  ∧ Db.models r.1 = Db.models (write_model_updates (l_models st) db).1
  ∧ Db.events r.1 = Db.events db ++ rows_from (events_id_seq db) (l_events_data st)
  ∧ collectionfields r.1 = collectionfields db
  ∧ events_to_collectionfields r.1 = events_to_collectionfields db.
Proof.
  intros Hne Hfqids position Hloop Hmodels Hcfs r. subst r.
  rewrite insert_events_until_loop by done. cbn zeta. fold position. rewrite Hloop.
  unfold bind at 1. cbn [update_id_sequences fst snd].
  unfold bind at 1. unfold write_model_updates, bind at 1, lift at 1.
  rewrite model_rows_ok.
  2:{ apply Forall_forall. intros [fqid model] Hin.
      apply elem_of_map_to_list in Hin. by apply (Hmodels fqid). }
  unfold bind at 1. cbn [write_events fst snd].
  unfold bind at 1. unfold insert_modified_collectionfields_into_db, bind at 1, lift at 1.
  rewrite collectionfield_arguments_too_long.
  2:{ apply Exists_fmap. eapply Exists_impl; [exact Hcfs | done]. }
  cbn -[rows_from]. unfold write_model_updates, bind, lift.
  cbn -[rows_from]. rewrite length_app. simpl. split_and!; (done || lia).
Qed.

(** X14.  A touched model without [meta_deleted] makes [insert_events]
    raise [KeyError] after the id sequences were updated and before any
    model or event is written. *)
Theorem insert_events_model_without_meta_deleted (events : list R) migration_index
    information user_id db st :
  events ≠ [] →
  Forall (λ event, len (request_fqid event) ≤ FQID_MAX_LEN) events →
  let position := positions_position_seq db in
  events_loop position events
    (initial_locals (prefetched events migration_index information user_id db)) = inr st →
  (∃ fqid model, l_models st !! fqid = Some model ∧ model !! META_DELETED = None) →
  let r := insert_events events migration_index information user_id db in
  r.2 = inl KeyError
  ∧ length (positions r.1) = S (length (positions db))
  ∧ id_sequences r.1 = id_sequences (update_id_sequences (l_max_id_per_collection st) db).1
  ∧ Db.models r.1 = Db.models db
  ∧ Db.events r.1 = Db.events db
  ∧ collectionfields r.1 = collectionfields db
  ∧ events_to_collectionfields r.1 = events_to_collectionfields db.
Proof.
  intros Hne Hfqids position Hloop (fqid & model & Hlookup & Hnone) r. subst r.
  rewrite insert_events_until_loop by done. cbn zeta. fold position. rewrite Hloop.
  unfold bind at 1. cbn [update_id_sequences fst snd].
  unfold bind at 1. unfold write_model_updates, bind at 1, lift at 1.
  rewrite model_rows_KeyError.
  2:{ apply Exists_exists. exists (fqid, model). split; [| done].
      by apply elem_of_map_to_list. }
  cbn. rewrite length_app. simpl. split_and!; (done || lia).
Qed.

End InsertEventsOutcome.

Section InsertEventsRun.

Context {R E : Type} `{!BaseDbEvent E} `{!WriterServices R E}.
Implicit Types (db : Database) (st : Locals) (db_events : list E).

Lemma collect_fqids_inr_Forall (events : list R) fqids fqids' :
  collect_fqids events fqids = inr fqids' →
  Forall (λ event, len (request_fqid event) ≤ FQID_MAX_LEN) events.
Proof.
  revert fqids. induction events as [| event rest IH]; intros fqids; simpl; [done |].
  case_bool_decide; [done |]. intros Hrest. apply Forall_cons. split; [lia | by eapply IH].
Qed.

Lemma model_rows_inr_Forall (items : list (string * gmap string JSON)) rows :
  model_rows items = inr rows →
  Forall (λ item, is_Some (item.2 !! META_DELETED)) items.
Proof.
  revert rows. induction items as [| [fqid model] rest IH]; intros rows; simpl; [done |].
  destruct (model !! META_DELETED) eqn:Hd; [| done].
  destruct (model_rows rest) eqn:Hrest; [done |]. intros _.
  apply Forall_cons. split; [simpl; by rewrite Hd | by eapply IH].
Qed.

Lemma collectionfield_arguments_inr (cfs : list string) position arguments :
  collectionfield_arguments cfs position = inr arguments →
  Forall (λ c, len c ≤ COLLECTIONFIELD_MAX_LEN) cfs
  ∧ arguments = (λ c, (c, position)) <$> cfs.
Proof.
  revert arguments. induction cfs as [| c cfs IH]; intros arguments; simpl.
  - by intros [= <-].
  - case_bool_decide; [done |].
    destruct (collectionfield_arguments cfs position) eqn:Hrest; [done |].
    intros [= <-]. destruct (IH _ eq_refl) as [Hall ->].
    split; [apply Forall_cons; split; [lia | done] | done].
Qed.

(** A successful run of [insert_events], statement by statement. *)
Lemma insert_events_inr_run (events : list R) migration_index information user_id
    db db' result :
  insert_events events migration_index information user_id db = (db', inr result) →
  let position := positions_position_seq db in
  ∃ st rows' next' collectionfield_ids links,
    events ≠ []
    ∧ Forall (λ event, len (request_fqid event) ≤ FQID_MAX_LEN) events
    ∧ events_loop position events
        (initial_locals (prefetched events migration_index information user_id db)) = inr st
    ∧ result = (position, l_modified_models st)
    ∧ (∀ fqid model, l_models st !! fqid = Some model → is_Some (model !! META_DELETED))
    ∧ Forall (λ kv : string * list Z, len kv.1 ≤ COLLECTIONFIELD_MAX_LEN)
        (l_event_indices_per_modified_collectionfield st)
    ∧ upsert_collectionfields
        ((λ c, (c, position)) <$> (l_event_indices_per_modified_collectionfield st).*1)
        (collectionfields db) (collectionfields_id_seq db)
      = (rows', next', collectionfield_ids)
    ∧ link_arguments (ev_id <$> rows_from (events_id_seq db) (l_events_data st))
        (zip collectionfield_ids (l_event_indices_per_modified_collectionfield st).*2)
      = inr links
    ∧ id_sequences db'
      = id_sequences (update_id_sequences (l_max_id_per_collection st) db).1
    ∧ collectionfields db' = rows'
    ∧ events_to_collectionfields db' = events_to_collectionfields db ++ links.
Proof.
  intros Hrun position.
  destruct events as [| event rest]; [discriminate |].
  unfold insert_events in Hrun.
  apply bind_inr in Hrun as (db1 & position' & Hpos & Hrun).
  injection Hpos as <- <-. fold position in Hrun.
  apply bind_inr in Hrun as (db2 & models & Hmodels & Hrun).
  unfold get_models_from_events in Hmodels.
  apply bind_inr in Hmodels as (db2' & fqids & Hfqids & Hmodels).
  apply lift_inr in Hfqids as [-> Hfqids]. injection Hmodels as <- <-.
  pose proof (collect_fqids_inr_Forall _ _ _ Hfqids) as Hall.
  apply collect_fqids_inr in Hfqids. rewrite (left_id_L ∅ (∪)) in Hfqids. subst fqids.
  apply bind_inr in Hrun as (db3 & st & Hloop & Hrun).
  apply lift_inr in Hloop as [-> Hloop].
  apply bind_inr in Hrun as (db4 & [] & Hseq & Hrun).
  apply bind_inr in Hrun as (db5 & [] & Hwrite & Hrun).
  apply bind_inr in Hrun as (db6 & event_ids & Hevents & Hrun).
  apply bind_inr in Hrun as (db7 & collectionfield_ids & Hcf & Hrun).
  apply bind_inr in Hrun as (db8 & [] & Hconnect & Hrun).
  injection Hrun as -> <-.
  injection Hseq as <-.
  unfold write_model_updates in Hwrite.
  apply bind_inr in Hwrite as (db5' & rows & Hrows & Hwrite).
  apply lift_inr in Hrows as [-> Hrows]. injection Hwrite as <-.
  apply model_rows_inr_Forall in Hrows.
  injection Hevents as <- <-.
  unfold insert_modified_collectionfields_into_db in Hcf.
  apply bind_inr in Hcf as (db7' & arguments & Hargs & Hcf).
  apply lift_inr in Hargs as [-> Hargs].
  apply collectionfield_arguments_inr in Hargs as [Hcfs ->].
  cbn [collectionfields collectionfields_id_seq set_events set_models set_id_sequences
         set_positions fst snd] in Hcf.
  destruct (upsert_collectionfields _ _ _) as [[rows' next'] ids] eqn:Hupsert.
  injection Hcf as <- <-.
  unfold connect_events_and_collection_fields in Hconnect.
  apply bind_inr in Hconnect as (db8' & links & Hlinks & Hconnect).
  apply lift_inr in Hlinks as [-> Hlinks]. injection Hconnect as <-.
  exists st, rows', next', ids, links. split_and!; try done.
  - intros fqid model Hlookup.
    apply (proj1 (Forall_forall _ _) Hrows (fqid, model)). by apply elem_of_map_to_list.
  - apply Forall_forall. intros [c indices] Hin. simpl.
    apply (proj1 (Forall_forall _ _) Hcfs c). apply list_elem_of_fmap. by exists (c, indices).
Qed.

Lemma foldl_max_id_step_spec (max_id : gmap string Z) db_events :
  let max_id' := foldl max_id_step max_id db_events in
  (∀ collection id, max_id !! collection = Some id →
     ∃ id', max_id' !! collection = Some id' ∧ id ≤ id')
  ∧ (∀ db_event collection id,
       db_event ∈ db_events → is_DbCreateEvent db_event = true →
       collection_and_id_from_fqid (db_fqid db_event) = inr (collection, id) →
       ∃ id', max_id' !! collection = Some id' ∧ id + 1 ≤ id')
  ∧ (∀ collection, is_Some (max_id' !! collection) →
       is_Some (max_id !! collection)
       ∨ ∃ db_event id, db_event ∈ db_events ∧ is_DbCreateEvent db_event = true
           ∧ collection_and_id_from_fqid (db_fqid db_event) = inr (collection, id)).
Proof.
  revert max_id. induction db_events as [| e rest IH]; intros max_id; simpl.
  - split_and!; [intros; eexists; (split; [done | lia]) | | by left].
    intros ? ? ? Hin. by apply elem_of_nil in Hin.
  - destruct (IH (max_id_step max_id e)) as (IHmono & IHcreate & IHdom).
    assert (∀ collection id, max_id !! collection = Some id →
              ∃ id', max_id_step max_id e !! collection = Some id' ∧ id ≤ id') as Hstep.
    { intros collection id Hid. unfold max_id_step.
      destruct (collection_and_id_from_fqid (db_fqid e)) as [? | [c i]]; [eexists; (split; [done | lia]) |].
      destruct (is_DbCreateEvent e); [| eexists; (split; [done | lia])]. simpl.
      destruct (decide (c = collection)) as [-> | Hne].
      - rewrite lookup_insert_eq, Hid. simpl. eexists. split; [done | lia].
      - rewrite lookup_insert_ne by done. eexists. split; [done | lia]. }
    split_and!.
    + intros collection id Hid.
      destruct (Hstep _ _ Hid) as (id1 & Hid1 & Hle1).
      destruct (IHmono _ _ Hid1) as (id2 & Hid2 & Hle2). exists id2. split; [done | lia].
    + intros e' collection id Hin Hcreate Hci.
      apply elem_of_cons in Hin as [-> | Hin]; [| by eapply IHcreate].
      assert (∃ id1, max_id_step max_id e !! collection = Some id1 ∧ id + 1 ≤ id1)
        as (id1 & Hid1 & Hle1).
      { unfold max_id_step. rewrite Hci, Hcreate. simpl. rewrite lookup_insert_eq.
        eexists. split; [done | lia]. }
      destruct (IHmono _ _ Hid1) as (id2 & Hid2 & Hle2). exists id2. split; [done | lia].
    + intros collection Hsome. apply IHdom in Hsome as [Hsome | (e' & id & Hin & ? & ?)].
      * unfold max_id_step in Hsome.
        destruct (collection_and_id_from_fqid (db_fqid e)) as [? | [c i]] eqn:Hci;
          [by left |].
        destruct (is_DbCreateEvent e) eqn:Hcreate; [| by left]. simpl in Hsome.
        destruct (decide (c = collection)) as [-> | Hne].
        -- right. exists e, i. split_and!; [by left | done | done].
        -- rewrite lookup_insert_ne in Hsome by done. by left.
      * right. exists e', id. split_and!; [by right | done | done].
Qed.

Lemma update_id_sequences_lookup (max_id_per_collection : gmap string Z) db collection :
  id_sequences (update_id_sequences max_id_per_collection db).1 !! collection
  = match max_id_per_collection !! collection, id_sequences db !! collection with
    | Some id, Some old => Some (Z.max old id)
    | Some id, None => Some id
    | None, old => old
    end.
Proof.
  unfold update_id_sequences. simpl.
  rewrite (foldl_upsert_lookup Z.max) by apply NoDup_fst_map_to_list.
  by rewrite list_to_map_to_list.
Qed.

(** X15.  After a successful [insert_events] the id sequence of a
    collection is above every id a translated create event introduced and
    not below its value before the call; a later reservation for the
    collection therefore hands out none of the created ids.  The sequences
    of collections without a create event are as before. *)
Theorem insert_events_advances_id_sequences (events : list R) migration_index information
    user_id db db' position modified translated :
  insert_events events migration_index information user_id db
  = (db', inr (position, modified)) →
  translations position events (prefetched events migration_index information user_id db)
  = inr translated →
  (∀ db_event collection id,
     db_event ∈ concat translated → is_DbCreateEvent db_event = true →
     collection_and_id_from_fqid (db_fqid db_event) = inr (collection, id) →
     id < sequence_at db' collection
     ∧ ∀ n ids, (reserve_next_ids collection n db').2 = inr ids → id ∉ ids)
  ∧ (∀ collection old, id_sequences db !! collection = Some old →
       ∃ id, id_sequences db' !! collection = Some id ∧ old ≤ id)
  ∧ (∀ collection,
       (∀ db_event id, db_event ∈ concat translated → is_DbCreateEvent db_event = true →
          collection_and_id_from_fqid (db_fqid db_event) ≠ inr (collection, id)) →
       id_sequences db' !! collection = id_sequences db !! collection).
Proof.
  intros Hrun Htr.
  destruct (insert_events_inr_run _ _ _ _ _ _ _ Hrun)
    as (st & ? & ? & ? & ? & _ & _ & Hloop & [= -> _] & _ & _ & _ & _ & Hseq & _).
  destruct (events_loop_locals _ _ _ _ _ Hloop Htr) as (_ & Hmax & _). simpl in Hmax.
  destruct (foldl_max_id_step_spec ∅ (concat translated)) as (_ & Hcreate & Hdom).
  rewrite <- Hmax in Hcreate, Hdom.
  split_and!.
  - intros db_event collection id Hin Hc Hci.
    destruct (Hcreate _ _ _ Hin Hc Hci) as (id' & Hid' & Hle).
    assert (id < sequence_at db' collection) as Hlt.
    { unfold sequence_at. rewrite Hseq, update_id_sequences_lookup, Hid'.
      destruct (id_sequences db !! collection); simpl; lia. }
    split; [done |]. intros n ids Hids.
    destruct (reserve_next_ids_cases collection n) as [Hfail | (Hne & Hlen & Hn)].
    + by rewrite Hfail in Hids.
    + rewrite reserve_next_ids_spec in Hids by done. injection Hids as <-.
      rewrite elem_of_seqZ. lia.
  - intros collection old Hold. rewrite Hseq, update_id_sequences_lookup, Hold.
    destruct (l_max_id_per_collection st !! collection); eexists; (split; [done | lia]).
  - intros collection Hnone. rewrite Hseq, update_id_sequences_lookup.
    destruct (l_max_id_per_collection st !! collection) as [id |] eqn:Hid; [| done].
    exfalso. destruct (Hdom collection) as [Hsome | (e & i & Hin & Hc & Hci)].
    + by rewrite Hid.
    + rewrite lookup_empty in Hsome. by destruct Hsome.
    + by apply (Hnone e i).
Qed.

Lemma dict_update_dom (target : gmap string JSON) (source : list (Field * JSON)) field :
  is_Some (dict_update target source !! field)
  ↔ is_Some (target !! field) ∨ field ∈ source.*1.
Proof.
  unfold dict_update. revert target.
  induction source as [| [k v] source IH]; intros target; simpl.
  - rewrite elem_of_nil. tauto.
  - rewrite IH, elem_of_cons. destruct (decide (k = field)) as [-> | Hne].
    + rewrite lookup_insert_eq. split; [intros _; right; by left |]. intros _. left. by eexists.
    + rewrite lookup_insert_ne by done. split; [tauto |].
      intros [? | [? | ?]]; [by left | congruence | by right].
Qed.

Lemma foldl_modified_step_spec (modified : gmap string (gmap string JSON)) db_events :
  let modified' := foldl modified_step modified db_events in
  (∀ fqid, is_Some (modified' !! fqid)
           ↔ is_Some (modified !! fqid) ∨ ∃ db_event, db_event ∈ db_events
                                                       ∧ db_fqid db_event = fqid)
  ∧ (∀ fqid field,
       is_Some (default ∅ (modified' !! fqid) !! field)
       ↔ is_Some (default ∅ (modified !! fqid) !! field)
         ∨ ∃ db_event, db_event ∈ db_events ∧ db_fqid db_event = fqid
                       ∧ field ∈ (get_modified_fields db_event).*1).
Proof.
  revert modified. induction db_events as [| e rest IH]; intros modified; simpl.
  - split; intros; (split; [by left |]); intros [? | (? & Hin & _)]; try done;
      by apply elem_of_nil in Hin.
  - destruct (IH (modified_step modified e)) as [IHdom IHfield]. split.
    + intros fqid. rewrite IHdom. unfold modified_step.
      destruct (decide (db_fqid e = fqid)) as [<- | Hne].
      * rewrite lookup_insert_eq. split; intros _.
        -- right. exists e. split; [by left | done].
        -- left. by eexists.
      * rewrite lookup_insert_ne by done. split.
        -- intros [? | (e' & Hin & ?)]; [by left |]. right. exists e'. split; [by right | done].
        -- intros [? | (e' & Hin & ?)]; [by left |].
           apply elem_of_cons in Hin as [-> | Hin]; [done |]. right. by exists e'.
    + intros fqid field. rewrite IHfield. unfold modified_step.
      destruct (decide (db_fqid e = fqid)) as [<- | Hne].
      * rewrite lookup_insert_eq. simpl. rewrite dict_update_dom. split.
        -- intros [[? | ?] | (e' & Hin & ? & ?)]; [by left | |].
           ++ right. exists e. split_and!; [by left | done | done].
           ++ right. exists e'. split_and!; [by right | done | done].
        -- intros [? | (e' & Hin & ? & ?)]; [by left; left |].
           apply elem_of_cons in Hin as [-> | Hin]; [left; by right |]. right. by exists e'.
      * rewrite lookup_insert_ne by done. split.
        -- intros [? | (e' & Hin & ? & ?)]; [by left |].
           right. exists e'. split_and!; [by right | done | done].
        -- intros [? | (e' & Hin & ? & ?)]; [by left |].
           apply elem_of_cons in Hin as [-> | Hin]; [done |]. right. by exists e'.
Qed.

(** X16.  The modified fields [insert_events] returns have an entry for
    exactly the fqids of the translated events, and the entry of an fqid
    names exactly the fields its events modified. *)
Theorem insert_events_modified_models (events : list R) migration_index information
    user_id db db' position modified translated :
  insert_events events migration_index information user_id db
  = (db', inr (position, modified)) →
  translations position events (prefetched events migration_index information user_id db)
  = inr translated →
  (∀ fqid, is_Some (modified !! fqid)
           ↔ ∃ db_event, db_event ∈ concat translated ∧ db_fqid db_event = fqid)
  ∧ (∀ fqid fields field, modified !! fqid = Some fields →
       is_Some (fields !! field)
       ↔ ∃ db_event, db_event ∈ concat translated ∧ db_fqid db_event = fqid
                     ∧ field ∈ (get_modified_fields db_event).*1).
Proof.
  intros Hrun Htr.
  destruct (insert_events_inr_run _ _ _ _ _ _ _ Hrun)
    as (st & ? & ? & ? & ? & _ & _ & Hloop & [= -> ->] & _).
  destruct (events_loop_locals _ _ _ _ _ Hloop Htr) as (_ & _ & Hmod). simpl in Hmod.
  destruct (foldl_modified_step_spec ∅ (concat translated)) as [Hdom Hfield].
  rewrite <- Hmod in Hdom, Hfield. split.
  - intros fqid. rewrite Hdom, lookup_empty. split; [| by right].
    intros [[? [=]] | ?]; done.
  - intros fqid fields field Hfields. specialize (Hfield fqid field).
    rewrite Hfields, lookup_empty in Hfield. simpl in Hfield. rewrite Hfield, lookup_empty.
    split; [| by right]. intros [[? [=]] | ?]; done.
Qed.

End InsertEventsRun.

Section InsertEventsLinks.

Context {R E : Type} `{!BaseDbEvent E} `{!WriterServices R E}.
Implicit Types (db : Database) (st : Locals) (db_events : list E).

Lemma collectionfield_id_of_row (rows : list CollectionfieldRow) id c position :
  NoDup (cf_collectionfield <$> rows) →
  mkCollectionfieldRow id c position ∈ rows →
  collectionfield_id rows c = Some id.
Proof.
  intros Hnodup Hin. unfold collectionfield_id.
  destruct (filter _ rows) as [| row rest] eqn:Hfilter.
  - exfalso.
    assert (mkCollectionfieldRow id c position
              ∈ filter (λ row, cf_collectionfield row = c) rows) as Hf
      by (by apply list_elem_of_filter).
    rewrite Hfilter in Hf. by apply elem_of_nil in Hf.
  - simpl. f_equal.
    assert (row ∈ filter (λ row, cf_collectionfield row = c) rows) as Hf
      by (rewrite Hfilter; by left).
    apply list_elem_of_filter in Hf as [Hkey Hrow].
    by rewrite (same_collectionfield_same_row rows row
                  (mkCollectionfieldRow id c position) Hnodup Hrow Hin Hkey).
Qed.

Lemma lookup_event_ids first_id (events_data : list EventData) (j : nat) :
  (j < length events_data)%nat →
  (ev_id <$> rows_from first_id events_data) !! j = Some (first_id + Z.of_nat j).
Proof.
  intros Hj. unfold rows_from. rewrite list_lookup_fmap, list_lookup_imap.
  destruct (events_data !! j) as [[[[[p f] t] d] w] |] eqn:Hlookup; [done |].
  apply lookup_ge_None in Hlookup. lia.
Qed.

(** X17.  After a successful [insert_events], on a table with one row per
    collectionfield: the table still has one row per collectionfield; every
    collectionfield a translated event modified has its row at the new
    position; and the links added are exactly the pairs of the id of the
    event row of a translated event and the id of the row of a
    collectionfield that event modified.  So a collectionfield modified by
    two events has one row, linked to both. *)
Theorem insert_events_links (events : list R) migration_index information user_id
    db db' position modified translated :
  NoDup (cf_collectionfield <$> collectionfields db) →
  insert_events events migration_index information user_id db
  = (db', inr (position, modified)) →
  translations position events (prefetched events migration_index information user_id db)
  = inr translated →
  NoDup (cf_collectionfield <$> collectionfields db')
  ∧ (∀ db_event c,
       db_event ∈ concat translated →
       c ∈ get_modified_collectionfields_from_event db_event →
       ∃ id, collectionfield_id (collectionfields db') c = Some id
             ∧ mkCollectionfieldRow id c position ∈ collectionfields db')
  ∧ ∃ links,
      events_to_collectionfields db' = events_to_collectionfields db ++ links
      ∧ ∀ event_id cf_id,
          (event_id, cf_id) ∈ links
          ↔ ∃ (i : nat) db_event c,
              concat translated !! i = Some db_event
              ∧ c ∈ get_modified_collectionfields_from_event db_event
              ∧ event_id = events_id_seq db + Z.of_nat i
              ∧ collectionfield_id (collectionfields db') c = Some cf_id.
Proof.
  intros Hrows Hrun Htr.
  destruct (insert_events_inr_run _ _ _ _ _ _ _ Hrun)
    as (st & rows' & next' & cf_ids & links & _ & _ & Hloop & [= -> _] & _ & _
        & Hupsert & Hlinks & _ & Hcf & Hetc).
  destruct (events_loop_inr _ _ _ _ Hloop) as (translated' & Htr' & _ & Hdata).
  assert (inr translated' = (inr translated : Exception + list (list E))) as [= ->]
    by (rewrite <- Htr, <- Htr'; reflexivity).
  simpl in Hdata.
  destruct (events_loop_locals _ _ _ _ _ Hloop Htr) as (Hdict & _ & _). simpl in Hdict.
  destruct (events_loop_indices_in_range _ _ _ _ Hloop) as [_ Hrange].
  destruct (indices_after_spec 0 [] (concat translated)) as (Hkeys & Hkey & Hpairs);
    [apply NoDup_nil_2 |].
  rewrite <- Hdict in Hkeys, Hkey, Hpairs.
  set (dict := l_event_indices_per_modified_collectionfield st) in *.
  destruct (upsert_collectionfields_spec _ _ _ _ _ _ _ Hrows Hkeys Hupsert)
    as (Hnodup' & Hlen & Hmem & _ & _).
  assert (∀ (k : nat) c indices, dict !! k = Some (c, indices) →
            ∃ id, cf_ids !! k = Some id
                  ∧ collectionfield_id rows' c = Some id
                  ∧ mkCollectionfieldRow id c (positions_position_seq db) ∈ rows')
    as Hentry.
  { intros k c indices Hk.
    assert (dict.*1 !! k = Some c) as Hkc by (by rewrite list_lookup_fmap, Hk).
    destruct (cf_ids !! k) as [id |] eqn:Hid.
    2:{ apply lookup_ge_None in Hid. apply lookup_lt_Some in Hkc. lia. }
    assert (mkCollectionfieldRow id c (positions_position_seq db) ∈ rows') as Hin.
    { apply Hmem. right. by exists k, c, id. }
    exists id. split_and!; [done | | done]. by eapply collectionfield_id_of_row. }
  rewrite Hcf. split_and!; [done | |].
  - intros db_event c Hin Hc.
    assert (c ∈ dict.*1) as Hcin by (apply Hkey; right; by exists db_event).
    apply list_elem_of_fmap in Hcin as ([c' indices] & -> & Hcin).
    apply list_elem_of_lookup in Hcin as [k Hk].
    destruct (Hentry k _ _ Hk) as (id & _ & Hid & Hrow). by exists id.
  - exists links. split; [done |].
    destruct (link_arguments_ok
                (ev_id <$> rows_from (events_id_seq db) (l_events_data st))
                (zip cf_ids dict.*2)) as (links' & Hlinks' & Hchar).
    { apply Forall_forall. intros [cid indices] Hin.
      apply elem_of_zip_r in Hin. apply list_elem_of_fmap in Hin as ([c indices'] & -> & Hin).
      rewrite length_fmap. unfold rows_from. rewrite length_imap.
      by apply (proj1 (Forall_forall _ _) Hrange (c, indices')). }
    rewrite Hlinks in Hlinks'. injection Hlinks' as <-.
    assert (length (l_events_data st) = length (concat translated)) as Hlength
      by (by rewrite Hdata, length_weighted).
    intros event_id cf_id. rewrite Hchar. simpl. split.
    + intros ([cid indices] & i & Hp & Hi & Hevent & ->). simpl in *.
      apply elem_of_lookup_zip_with in Hp as (k & cid' & indices' & [= <- <-] & Hcid & Hk).
      rewrite list_lookup_fmap in Hk.
      destruct (dict !! k) as [[c indices''] |] eqn:Hdk; [| done].
      injection Hk as ->.
      assert ((c, i) ∈ index_pairs dict) as Hpair.
      { unfold index_pairs. apply list_elem_of_bind. exists (c, indices).
        split; [| by eapply list_elem_of_lookup_2].
        simpl. apply list_elem_of_fmap. by exists i. }
      apply Hpairs in Hpair as [Hpair | (j & e & Hj & -> & Hc)];
        [by apply elem_of_nil in Hpair |].
      exists j, e, c. rewrite Z.add_0_l, Nat2Z.id in Hevent.
      rewrite lookup_event_ids in Hevent
        by (rewrite Hlength; by eapply lookup_lt_Some).
      injection Hevent as <-.
      destruct (Hentry k _ _ Hdk) as (id & Hid & Hcfid & _).
      rewrite Hcid in Hid. injection Hid as <-. done.
    + intros (j & e & c & Hj & Hc & -> & Hcfid).
      assert ((c, Z.of_nat j) ∈ index_pairs dict) as Hpair
        by (apply Hpairs; right; exists j, e; split_and!; [done | lia | done]).
      unfold index_pairs in Hpair.
      apply list_elem_of_bind in Hpair as ([c' indices] & Hin & Hentry').
      simpl in Hin. apply list_elem_of_fmap in Hin as (i & [= <- <-] & Hi).
      apply list_elem_of_lookup in Hentry' as [k Hk].
      destruct (Hentry k _ _ Hk) as (id & Hid & Hcfid' & _).
      rewrite Hcfid in Hcfid'. injection Hcfid' as <-.
      exists (cf_id, indices), (Z.of_nat j). simpl. split_and!; [| done | | done].
      * apply (elem_of_lookup_zip_with_2 pair cf_ids dict.*2 cf_id indices (cf_id, indices) k);
          [done | by rewrite list_lookup_fmap, Hk].
      * rewrite Nat2Z.id. apply lookup_event_ids.
        rewrite Hlength. by eapply lookup_lt_Some.
Qed.

End InsertEventsLinks.

(** ** The migration engine, further *)

Lemma _filter_noop_events_app events1 events2 :
  _filter_noop_events (events1 ++ events2)
  = _filter_noop_events events1 ++ _filter_noop_events events2.
Proof. by rewrite !_filter_noop_events_filter, filter_app. Qed.

Lemma create_is_no_noop event : event_type event = CREATE → ¬ noop event.
Proof. destruct event; simpl; try discriminate. tauto. Qed.

Lemma order_events_from_filter events events_queue :
  order_events_from (_filter_noop_events events) (_filter_noop_events events_queue)
  = _filter_noop_events (order_events_from events events_queue).
Proof.
  revert events_queue. induction events as [| event rest IH]; intros events_queue; [done |].
  rewrite _filter_noop_events_cons. cbn [order_events_from].
  case_bool_decide as Hcreate.
  - rewrite decide_False by by apply create_is_no_noop.
    cbn [app order_events_from]. rewrite bool_decide_eq_true_2 by done.
    rewrite (_filter_noop_events_cons event), decide_False by by apply create_is_no_noop.
    cbn [app]. by rewrite IH.
  - rewrite <- IH, _filter_noop_events_app, (_filter_noop_events_cons event []).
    case_decide; cbn [app order_events_from _filter_noop_events].
    + by rewrite app_nil_r.
    + by rewrite bool_decide_eq_false_2 by done.
Qed.

(** X18.  Ordering a position and dropping its noop events commute, and
    each of the two leaves its own result alone: ordering an ordered list
    and filtering a filtered list change nothing.  Ordering keeps the
    number of events. *)
Theorem order_and_filter_commute (events : list BaseEvent) :
  _filter_noop_events (order_events events) = order_events (_filter_noop_events events)
  ∧ order_events (order_events events) = order_events events
  ∧ _filter_noop_events (_filter_noop_events events) = _filter_noop_events events
  ∧ length (order_events events) = length events.
Proof.
  split_and!.
  - unfold order_events. by rewrite <- order_events_from_filter.
  - unfold order_events. rewrite !order_events_from_spec. simpl.
    rewrite !List.filter_app.
    assert (∀ l, List.filter is_create (List.filter (λ e, negb (is_create e)) l) = []) as Hcn.
    { intros l. induction l as [| e l IHl]; [done |]. simpl.
      destruct (is_create e) eqn:He; simpl; [done |]. by rewrite He. }
    assert (∀ l, List.filter (λ e, negb (is_create e)) (List.filter is_create l) = []) as Hnc.
    { intros l. induction l as [| e l IHl]; [done |]. simpl.
      destruct (is_create e) eqn:He; simpl; [| done]. by rewrite He. }
    assert (∀ l, List.filter is_create (List.filter is_create l) = List.filter is_create l)
      as Hcc.
    { intros l. induction l as [| e l IHl]; [done |]. simpl.
      destruct (is_create e) eqn:He; simpl; [| done]. by rewrite He, IHl. }
    assert (∀ l, List.filter (λ e, negb (is_create e)) (List.filter (λ e, negb (is_create e)) l)
                 = List.filter (λ e, negb (is_create e)) l) as Hnn.
    { intros l. induction l as [| e l IHl]; [done |]. simpl.
      destruct (is_create e) eqn:He; simpl; [done |]. by rewrite He, IHl. }
    rewrite Hcn, Hnc, Hcc, Hnn. by rewrite app_nil_r.
  - rewrite !_filter_noop_events_filter. induction events as [| e l IH]; [done |].
    rewrite filter_cons. case_decide; [| done].
    rewrite filter_cons, decide_True by done. by rewrite IH.
  - unfold order_events. rewrite order_events_from_spec. simpl.
    rewrite length_app. induction events as [| e l IH]; [done |]. simpl.
    destruct (is_create e); simpl; lia.
Qed.

Lemma has_event_Permutation type fqid events events' :
  events ≡ₚ events' → has_event type fqid events → has_event type fqid events'.
Proof.
  intros Hperm (e & Hin & ?). exists e. split; [| done]. by rewrite <- Hperm.
Qed.

(** X19.  The model status of a position does not depend on the order of
    its events: it is the same for any rearrangement of them, so the
    status computed from the events as passed is the status of the events
    as [order_events] yields them. *)
Theorem _set_model_status_order_independent (events events' : list BaseEvent) :
  events ≡ₚ events' →
  _set_model_status events = _set_model_status events'
  ∧ _set_model_status (order_events events) = _set_model_status events.
Proof.
  assert (∀ l l', l ≡ₚ l' → _set_model_status l = _set_model_status l') as Hperm.
  { intros l l' Hp. apply map_eq. intros fqid.
    destruct (_set_model_status_lookup l fqid) as (Hd & Hc & Ht).
    destruct (_set_model_status_lookup l' fqid) as (Hd' & Hc' & Ht').
    assert (∀ type, has_event type fqid l ↔ has_event type fqid l') as Hhas.
    { intros type. split; by apply has_event_Permutation. }
    destruct (_set_model_status l !! fqid) as [type |] eqn:Hl.
    - destruct (Ht type eq_refl) as [-> | ->].
      + symmetry. apply Hc'. rewrite <- !Hhas. by apply Hc.
      + symmetry. apply Hd'. rewrite <- Hhas. by apply Hd.
    - destruct (_set_model_status l' !! fqid) as [type' |] eqn:Hl'; [| done].
      destruct (Ht' type' eq_refl) as [-> | ->].
      + assert (None = Some CREATE) as [=]. apply Hc. rewrite !Hhas. by apply Hc'.
      + assert (None = Some DELETE) as [=]. apply Hd. rewrite Hhas. by apply Hd'. }
  intros Hp. split; [by apply Hperm |]. apply Hperm. clear Hp.
  unfold order_events. rewrite order_events_from_spec. simpl.
  induction events as [| e l IH]; [done |]. simpl.
  destruct (is_create e); simpl.
  - by f_equiv.
  - rewrite <- Permutation_middle. by f_equiv.
Qed.

Lemma _set_model_status_order_independent_witness :
  _set_model_status [DeleteEvent "a/1"; CreateEvent "a/1" ∅]
  = _set_model_status [CreateEvent "a/1" ∅; DeleteEvent "a/1"].
Proof.
  refine (proj1 (_set_model_status_order_independent
                   [DeleteEvent "a/1"; CreateEvent "a/1" ∅]
                   [CreateEvent "a/1" ∅; DeleteEvent "a/1"] _)).
  apply perm_swap.
Defined.

Section MigrateRuns.

Context {A S : Type} `{!MigrationKeyframeAccessor A}.
Variable position_init : Self A S → Exception + S.
Variable migrate_event : Self A S → BaseEvent → Exception + (S * option (list BaseEvent)).
Variable get_additional_events : Self A S → Exception + (S * option (list BaseEvent)).

Lemma apply_events_app (events1 events2 : list BaseEvent) (a a1 a2 : A) :
  apply_events events1 a = inr a1 → apply_events events2 a1 = inr a2 →
  apply_events (events1 ++ events2) a = inr a2.
Proof.
  revert a. induction events1 as [| e rest IH]; intros a; simpl.
  - by intros [= ->].
  - intros Hrun. apply ebind_inr in Hrun as (a' & -> & Hrun). simpl. by apply IH.
Qed.

Lemma apply_new_inr append events (self self' : Self A S) new_events new_events' :
  apply_new append events self new_events = inr (self', new_events') →
  apply_events events (new_accessor self) = inr (new_accessor self')
  ∧ old_accessor self' = old_accessor self
  ∧ position_data self' = position_data self
  ∧ members self' = members self
  ∧ new_events' = if append then new_events ++ events else new_events.
Proof.
  revert self new_events. induction events as [| e rest IH]; intros self new_events; simpl.
  - intros [= <- <-]. split_and!; try done. destruct append; [by rewrite app_nil_r | done].
  - intros Hrun. apply ebind_inr in Hrun as (a & -> & Hrun). simpl.
    apply IH in Hrun as (Hnew & Hold & Hpd & Hm & Hevents). simpl in *.
    split_and!; try done. rewrite Hevents. destruct append; [by rewrite <- app_assoc | done].
Qed.

Lemma apply_new_eq append events (self : Self A S) new_events :
  apply_new append events self new_events
  = (a <-? apply_events events (new_accessor self) ;;
     inr (set_new_accessor self a, if append then new_events ++ events else new_events)).
Proof.
  revert self new_events. induction events as [| e rest IH]; intros self new_events; simpl.
  - destruct self. unfold set_new_accessor. simpl.
    destruct append; by rewrite ?app_nil_r.
  - destruct (accessor_apply_event e (new_accessor self)) as [| a]; simpl; [done |].
    rewrite IH. simpl. destruct (apply_events rest a); simpl; [done |].
    destruct append; by rewrite <- ?app_assoc.
Qed.

Lemma loop_new_events_cons event ordered (call : Self A S * (S * option (list BaseEvent)))
    calls :
  loop_new_events (event :: ordered) (call :: calls)
  = filtered_events event call.2.2 ++ loop_new_events ordered calls.
Proof. done. Qed.

Lemma loop_new_events_no_noop ordered
    (calls : list (Self A S * (S * option (list BaseEvent)))) :
  Forall (λ event, ¬ noop event) (loop_new_events ordered calls).
Proof.
  revert calls. induction ordered as [| event rest IH]; intros [| call calls]; try done.
  rewrite loop_new_events_cons. apply Forall_app. split; [| by apply IH].
  unfold filtered_events. rewrite _filter_noop_events_filter.
  apply Forall_forall. intros e He. by apply list_elem_of_filter in He as [? _].
Qed.

(** The loop of [migrate] returns exactly when it runs call by call. *)
Lemma migrate_loop_runs ordered (self self' : Self A S) new_events new_events' :
  migrate_loop migrate_event ordered self new_events = inr (self', new_events')
  ↔ ∃ calls, loop_runs migrate_event ordered self calls self'
             ∧ new_events' = new_events ++ loop_new_events ordered calls.
Proof.
  split.
  - revert self new_events.
    induction ordered as [| event rest IH]; intros self new_events.
    + simpl. intros [= <- <-]. exists []. split; [constructor | by rewrite app_nil_r].
    + cbn [migrate_loop]. intros Hrun.
      apply ebind_inr in Hrun as (r & Hr & Hrun).
      apply ebind_inr in Hrun as (a & Ha & Hrun).
      rewrite apply_new_eq in Hrun.
      apply ebind_inr in Hrun as ([self1 new_events1] & Hnew & Hrun).
      apply ebind_inr in Hnew as (new1 & Hnew & [= <- <-]).
      cbn [fst snd] in Hrun. apply IH in Hrun as (calls & Hruns & ->).
      exists ((self, r) :: calls). split.
      * by eapply loop_runs_cons.
      * rewrite loop_new_events_cons. by rewrite <- app_assoc.
  - intros (calls & Hruns & ->). revert new_events.
    induction Hruns as [self | event rest self r old1 new1 calls self' Hr Ha Hnew Hruns IH];
      intros new_events.
    + simpl. by rewrite app_nil_r.
    + cbn [migrate_loop]. rewrite Hr. cbn [ebind]. cbn [set_members old_accessor].
      rewrite Ha. cbn [ebind]. rewrite apply_new_eq.
      cbn [set_old_accessor set_members new_accessor].
      unfold filtered_events in Hnew. rewrite Hnew. cbn [ebind fst snd].
      rewrite loop_new_events_cons, app_assoc. apply IH.
Qed.

(** [migrate] returns exactly when [position_init] returns, the loop runs
    call by call, [get_additional_events] returns and the new accessor
    takes the additional events. *)
Lemma migrate_runs (members0 : S) (events : list BaseEvent) (old new : A)
    (position_data0 : PositionData) (self' : Self A S) (new_events : list BaseEvent) :
  migrate position_init migrate_event get_additional_events members0 events old new
    position_data0 = inr (self', new_events)
  ↔ ∃ s calls self1 g new2,
      position_init (mkSelf old new position_data0 (_set_model_status events) members0)
      = inr s
      ∧ loop_runs migrate_event (order_events events)
          (mkSelf old new position_data0 (_set_model_status events) s) calls self1
      ∧ get_additional_events self1 = inr g
      ∧ apply_events (default [] g.2) (new_accessor self1) = inr new2
      ∧ self' = mkSelf (old_accessor self1) new2 (position_data self1) (model_status self1)
                  g.1
      ∧ new_events = loop_new_events (order_events events) calls ++ default [] g.2.
Proof.
  unfold migrate. split.
  - intros Hrun.
    apply ebind_inr in Hrun as (s & Hinit & Hrun).
    apply ebind_inr in Hrun as ([self1 new_events1] & Hloop & Hrun).
    apply ebind_inr in Hrun as (g & Hadditional & Hrun).
    rewrite apply_new_eq in Hrun.
    apply ebind_inr in Hrun as ([self2 new_events2] & Hnew & Hrun).
    apply ebind_inr in Hnew as (new2 & Hnew & [= <- <-]).
    injection Hrun as <- <-.
    apply migrate_loop_runs in Hloop as (calls & Hruns & ->).
    exists s, calls, self1, g, new2. by split_and!.
  - intros (s & calls & self1 & g & new2 & Hinit & Hruns & Hadditional & Hnew & -> & ->).
    rewrite Hinit. cbn [ebind].
    assert (migrate_loop migrate_event (order_events events)
              (mkSelf old new position_data0 (_set_model_status events) s) []
            = inr (self1, loop_new_events (order_events events) calls)) as Hloop.
    { apply migrate_loop_runs. by exists calls. }
    unfold set_members at 1. cbn [old_accessor new_accessor position_data model_status].
    rewrite Hloop. cbn [ebind fst snd]. rewrite Hadditional. cbn [ebind].
    rewrite apply_new_eq. cbn [set_members new_accessor]. rewrite Hnew. done.
Qed.

Lemma loop_runs_length ordered (self self' : Self A S) calls :
  loop_runs migrate_event ordered self calls self' → length calls = length ordered.
Proof. induction 1; simpl; congruence. Qed.

(** Where a run of the loop ends: the old accessor has taken the events,
    the new accessor the kept translations, the members are those of the
    last call, and the rest of the attributes is as it was. *)
Lemma loop_runs_end ordered (self self' : Self A S) calls :
  loop_runs migrate_event ordered self calls self' →
  apply_events ordered (old_accessor self) = inr (old_accessor self')
  ∧ apply_events (loop_new_events ordered calls) (new_accessor self) = inr (new_accessor self')
  ∧ position_data self' = position_data self
  ∧ model_status self' = model_status self
  ∧ members self' = default (members self) ((λ call, call.2.1) <$> last calls).
Proof.
  induction 1 as [self | event rest self r old1 new1 calls self' Hr Ha Hnew Hruns IH].
  - done.
  - destruct IH as (Hold & Hnew' & Hpd & Hms & Hmembers). cbn in Hold, Hnew', Hpd, Hms, Hmembers.
    split_and!.
    + cbn. by rewrite Ha.
    + rewrite loop_new_events_cons. by eapply apply_events_app.
    + done.
    + done.
    + rewrite Hmembers. destruct calls as [| call calls]; [done |].
      change (last ((self, r) :: call :: calls)) with (last (call :: calls)).
      by destruct (last (call :: calls)) eqn:Hlast;
        [| apply last_None in Hlast].
Qed.

(** A run of the loop is a run over the first [i] events followed by a
    run over the others. *)
Lemma loop_runs_split i ordered (self self' : Self A S) calls :
  loop_runs migrate_event ordered self calls self' →
  ∃ mid, loop_runs migrate_event (take i ordered) self (take i calls) mid
         ∧ loop_runs migrate_event (drop i ordered) mid (drop i calls) self'.
Proof.
  intros Hruns. revert i.
  induction Hruns as [self | event rest self r old1 new1 calls self' Hr Ha Hnew Hruns IH];
    intros i.
  - exists self. rewrite !take_nil, !drop_nil. split; constructor.
  - destruct i as [| i].
    + exists self. split; [constructor | by eapply loop_runs_cons].
    + destruct (IH i) as (mid & Hfirst & Hrest). exists mid.
      split; [by eapply loop_runs_cons | done].
Qed.

(** The call for the event at index [i]: it is made with the attributes
    that the first [i] rounds left. *)
Lemma loop_runs_call i ordered (self self' call : Self A S) calls r :
  loop_runs migrate_event ordered self calls self' →
  calls !! i = Some (call, r) →
  ∃ event,
    ordered !! i = Some event
    ∧ migrate_event call event = inr r
    ∧ loop_runs migrate_event (take i ordered) self (take i calls) call
    ∧ apply_events (take i ordered) (old_accessor self) = inr (old_accessor call)
    ∧ apply_events (loop_new_events (take i ordered) (take i calls)) (new_accessor self)
      = inr (new_accessor call)
    ∧ position_data call = position_data self
    ∧ model_status call = model_status self
    ∧ members call = default (members self) ((λ call, call.2.1) <$> last (take i calls)).
Proof.
  intros Hruns Hcall.
  destruct (loop_runs_split i _ _ _ _ Hruns) as (mid & Hfirst & Hrest).
  rewrite (drop_S _ _ _ Hcall) in Hrest.
  inversion Hrest as [| event rest self0 r0 old1 new1 calls0 self0' Hr Ha Hnew Hruns' Hordered];
    subst.
  exists event.
  destruct (loop_runs_end _ _ _ _ Hfirst) as (Hold & Hnew' & Hpd & Hms & Hmembers).
  split_and!; try done.
  assert (drop i ordered !! 0%nat = Some event) as Hhead by by rewrite <- Hordered.
  rewrite lookup_drop in Hhead. by rewrite Nat.add_0_r in Hhead.
Qed.

(** X20.  A successful [migrate] calls [position_init], then
    [migrate_event] once for every event in the order of [order_events],
    then [get_additional_events].  The call for the event at index [i] is
    made when the old accessor has had applied the [i] events before it
    and the new accessor the translations of these events that are no
    noops.  At the end the old accessor has had applied the events of the
    position, each once, and the new accessor exactly the events
    [migrate] returns, in their order.  The returned events are, for every
    event in turn, what [migrate_event] returned for it (the event itself
    for [None]) without the noop events, followed by the additional
    events, which are not filtered. *)
Theorem migrate_feeds_accessors (members0 : S) (events : list BaseEvent) (old new : A)
    (position_data0 : PositionData) (self' : Self A S) (new_events : list BaseEvent) :
  migrate position_init migrate_event get_additional_events members0 events old new
    position_data0 = inr (self', new_events) →
  ∃ s calls self1 g,
    position_init (mkSelf old new position_data0 (_set_model_status events) members0) = inr s
    ∧ loop_runs migrate_event (order_events events)
        (mkSelf old new position_data0 (_set_model_status events) s) calls self1
    ∧ get_additional_events self1 = inr g
    ∧ length calls = length (order_events events)
    ∧ (∀ i call r, calls !! i = Some (call, r) →
         ∃ event,
           order_events events !! i = Some event
           ∧ migrate_event call event = inr r
           ∧ apply_events (take i (order_events events)) old = inr (old_accessor call)
           ∧ apply_events (loop_new_events (take i (order_events events)) (take i calls)) new
             = inr (new_accessor call))
    ∧ new_events = loop_new_events (order_events events) calls ++ default [] g.2
    ∧ Forall (λ event, ¬ noop event) (loop_new_events (order_events events) calls)
    ∧ apply_events (order_events events) old = inr (old_accessor self1)
    ∧ apply_events (loop_new_events (order_events events) calls) new
      = inr (new_accessor self1)
    ∧ apply_events (default [] g.2) (new_accessor self1) = inr (new_accessor self')
    ∧ apply_events (order_events events) old = inr (old_accessor self')
    ∧ apply_events new_events new = inr (new_accessor self')
    ∧ position_data self' = position_data0.
Proof.
  intros Hrun.
  apply migrate_runs in Hrun
    as (s & calls & self1 & g & new2 & Hinit & Hruns & Hadditional & Hnew & -> & ->).
  destruct (loop_runs_end _ _ _ _ Hruns) as (Hold & Hnew1 & Hpd & _ & _).
  cbn in Hold, Hnew1, Hpd.
  exists s, calls, self1, g. split_and!; try done.
  - by eapply loop_runs_length.
  - intros i call r Hcall.
    destruct (loop_runs_call _ _ _ _ _ _ _ Hruns Hcall)
      as (event & Hevent & Hr & _ & Hold_i & Hnew_i & _).
    exists event. by split_and!.
  - apply loop_new_events_no_noop.
  - by eapply apply_events_app.
Qed.

(** X26.  During a position [self.model_status] is the status of the
    events as they were passed to [migrate]: a successful [migrate] calls
    [position_init], [migrate_event] for every event and
    [get_additional_events] on attributes whose [model_status] is that of
    [_set_model_status], whatever the hooks before returned and whatever
    events were applied, and it is still that when [migrate] returns. *)
Theorem migrate_model_status (members0 : S) (events : list BaseEvent) (old new : A)
    (position_data0 : PositionData) (self' : Self A S) (new_events : list BaseEvent) :
  migrate position_init migrate_event get_additional_events members0 events old new
    position_data0 = inr (self', new_events) →
  ∃ self0 s calls self1 g,
    model_status self0 = _set_model_status events
    ∧ position_init self0 = inr s
    ∧ loop_runs migrate_event (order_events events) (set_members self0 s) calls self1
    ∧ length calls = length (order_events events)
    ∧ (∀ i call r, calls !! i = Some (call, r) →
         ∃ event,
           order_events events !! i = Some event
           ∧ migrate_event call event = inr r
           ∧ model_status call = _set_model_status events)
    ∧ get_additional_events self1 = inr g
    ∧ model_status self1 = _set_model_status events
    ∧ model_status self' = _set_model_status events.
Proof.
  intros Hrun.
  apply migrate_runs in Hrun
    as (s & calls & self1 & g & new2 & Hinit & Hruns & Hadditional & Hnew & -> & ->).
  destruct (loop_runs_end _ _ _ _ Hruns) as (_ & _ & _ & Hms & _). cbn in Hms.
  exists (mkSelf old new position_data0 (_set_model_status events) members0), s, calls, self1, g.
  split_and!; try done.
  - by eapply loop_runs_length.
  - intros i call r Hcall.
    destruct (loop_runs_call _ _ _ _ _ _ _ Hruns Hcall)
      as (event & Hevent & Hr & _ & _ & _ & _ & Hms_i & _).
    exists event. by split_and!.
Qed.

End MigrateRuns.

Section PassthroughMigration.

Context {A : Type} `{!MigrationKeyframeAccessor A}.

Lemma passthrough_loop ordered (self : Self A unit) new_events old' new' :
  apply_events ordered (old_accessor self) = inr old' →
  apply_events (_filter_noop_events ordered) (new_accessor self) = inr new' →
  migrate_loop Passthrough.migrate_event ordered self new_events
  = inr (mkSelf old' new' (position_data self) (model_status self) (),
         new_events ++ _filter_noop_events ordered).
Proof.
  revert self new_events. induction ordered as [| event rest IH]; intros self new_events.
  - simpl. intros [= <-] [= <-]. rewrite app_nil_r. by destruct self as [? ? ? ? []].
  - rewrite _filter_noop_events_cons. intros Hold Hnew.
    cbn -[_filter_noop_events] in Hold |- *.
    apply ebind_inr in Hold as (old1 & -> & Hold). cbn -[_filter_noop_events].
    rewrite (_filter_noop_events_cons event []), app_nil_r.
    destruct (decide (noop event)); cbn -[_filter_noop_events] in Hnew |- *.
    + by rewrite (IH (set_old_accessor (set_members self ()) old1) new_events).
    + apply ebind_inr in Hnew as (new1 & -> & Hnew). cbn -[_filter_noop_events].
      rewrite (IH (set_new_accessor (set_old_accessor (set_members self ()) old1) new1)
                 (new_events ++ [event])) by done.
      cbn -[_filter_noop_events]. by rewrite <- app_assoc.
Qed.

(** X21.  A migration whose [migrate_event] and [get_additional_events]
    always return [None] does not return the events as they came: it
    returns them with the creates first and without the noop events.  The
    accessors must accept the events for that. *)
Theorem passthrough_migration_orders_and_filters (events : list BaseEvent) (old new old' new' : A)
    (position_data0 : PositionData) :
  apply_events (order_events events) old = inr old' →
  apply_events (_filter_noop_events (order_events events)) new = inr new' →
  migrate Passthrough.position_init Passthrough.migrate_event
    Passthrough.get_additional_events () events old new position_data0
  = inr (mkSelf old' new' position_data0 (_set_model_status events) (),
         _filter_noop_events (order_events events)).
Proof.
  intros Hold Hnew. unfold migrate. simpl.
  rewrite (passthrough_loop _ _ [] old' new') by done. simpl. by rewrite app_nil_r.
Qed.

End PassthroughMigration.

Lemma passthrough_migration_orders_and_filters_witness :
  (migrate Passthrough.position_init Passthrough.migrate_event
     Passthrough.get_additional_events ()
     [UpdateEvent "a/1" ∅; DeleteEvent "a/2"; CreateEvent "a/1" ∅]
     ({["a/2"%string]} : gset string) {["a/2"%string]} (mkPositionData 3 0 1 JNull))
  = inr (mkSelf (A := gset string) {["a/1"%string]} {["a/1"%string]}
           (mkPositionData 3 0 1 JNull)
           (_set_model_status [UpdateEvent "a/1" ∅; DeleteEvent "a/2"; CreateEvent "a/1" ∅])
           (),
         _filter_noop_events
           (order_events [UpdateEvent "a/1" ∅; DeleteEvent "a/2"; CreateEvent "a/1" ∅])).
Proof.
  apply (passthrough_migration_orders_and_filters
           [UpdateEvent "a/1" ∅; DeleteEvent "a/2"; CreateEvent "a/1" ∅]
           ({["a/2"%string]} : gset string) {["a/2"%string]}
           {["a/1"%string]} {["a/1"%string]}).
  - vm_compute. reflexivity.
  - vm_compute. reflexivity.
Defined.

Lemma migrate_feeds_accessors_witness :
  let events := [UpdateEvent "a/1" ∅; DeleteEvent "a/2"; CreateEvent "a/1" ∅] in
  apply_events (order_events events) ({["a/2"%string]} : gset string)
  = inr ({["a/1"%string]} : gset string)
  ∧ ∃ calls : list (Self (gset string) unit * (unit * option (list BaseEvent))),
      length calls = 3%nat
      ∧ [CreateEvent "a/1" ∅; DeleteEvent "a/2"]
        = loop_new_events (order_events events) calls ++ [].
Proof.
  intros events.
  destruct (migrate_feeds_accessors Passthrough.position_init Passthrough.migrate_event
              Passthrough.get_additional_events () events
              ({["a/2"%string]} : gset string) {["a/2"%string]}
              (mkPositionData 3 0 1 JNull)
              (mkSelf (A := gset string) {["a/1"%string]} {["a/1"%string]}
                 (mkPositionData 3 0 1 JNull) (_set_model_status events) ())
              [CreateEvent "a/1" ∅; DeleteEvent "a/2"])
    as (s & calls & self1 & g & _ & _ & Hadditional & Hlength & _ & Hevents & _ & _ & _ & _
        & Hold & _).
  - vm_compute. reflexivity.
  - split; [exact Hold |]. exists calls. split; [exact Hlength |].
    injection Hadditional as <-. exact Hevents.
Defined.

Lemma migrate_model_status_witness :
  let events := [UpdateEvent "a/1" ∅; DeleteEvent "a/2"; CreateEvent "a/1" ∅] in
  ∃ calls : list (Self (gset string) (list (option EVENT_TYPE))
                  * (list (option EVENT_TYPE) * option (list BaseEvent))),
    length calls = length (order_events events)
    ∧ ∀ i call r, calls !! i = Some (call, r) →
        ∃ event, order_events events !! i = Some event
                 ∧ StatusProbe.migrate_event call event = inr r
                 ∧ model_status call = _set_model_status events.
Proof.
  intros events.
  destruct (migrate_model_status StatusProbe.position_init StatusProbe.migrate_event
              StatusProbe.get_additional_events [] events
              ({["a/2"%string]} : gset string) {["a/2"%string]}
              (mkPositionData 3 0 1 JNull)
              (mkSelf (A := gset string) {["a/1"%string]} {["a/1"%string]}
                 (mkPositionData 3 0 1 JNull) (_set_model_status events)
                 [Some CREATE; Some CREATE; Some DELETE])
              [CreateEvent "a/1" ∅; DeleteEvent "a/2"])
    as (self0 & s & calls & self1 & g & _ & _ & _ & Hlength & Hcalls & _).
  - vm_compute. reflexivity.
  - exists calls. split; [exact Hlength | exact Hcalls].
Defined.

(** ** The migration readers, further *)

Section MemoryReaderLookups.

Context {Filter V : Type}.
Variable filter_models :
  gmap string (gmap string V) → Collection → Filter → gmap Z (gmap string V).
Variable py_min py_max : list V → Exception + V.
Variable py_None : V.
Variable fqid_from_collection_and_id : Collection → Id → Fqid.
Variable models : gmap string (gmap string V).

(** X22.  In the in-memory reader [get] returns the stored model of an
    fqid and raises [ModelDoesNotExist] with the fqid exactly when
    [model_exists] is false; [is_alive] agrees with [model_exists] and
    [is_deleted] is false for every fqid, so no model is ever reported as
    deleted. *)
Theorem memory_reader_get_iff_exists (fqid : Fqid) :
  (∀ model, reader_get models fqid = inr model ↔ models !! fqid = Some model)
  ∧ (reader_get models fqid = inl (ModelDoesNotExist fqid) ↔ model_exists models fqid = false)
  ∧ (∀ e, reader_get models fqid = inl e → e = ModelDoesNotExist fqid)
  ∧ ((∃ model, reader_get models fqid = inr model) ↔ model_exists models fqid = true)
  ∧ is_alive models fqid = model_exists models fqid
  ∧ is_deleted fqid = false.
Proof.
  unfold reader_get, is_alive, model_exists, is_deleted.
  destruct (models !! fqid) as [model |] eqn:Hlookup.
  - rewrite bool_decide_eq_true_2 by by eexists.
    split_and!; try done.
    + intros m. split; congruence.
    + split; [intros _; done | intros _; by eexists].
  - rewrite bool_decide_eq_false_2 by by intros [? ?].
    split_and!; try done.
    + by intros e [= <-].
    + split; [by intros [? ?] | done].
Qed.

Lemma get_many_id_lookup2 collection (result : gmap string (gmap Z (gmap string V))) id
    collection' id' :
  lookup2 (get_many_id fqid_from_collection_and_id models collection result id)
    collection' id'
  = match models !! fqid_from_collection_and_id collection id with
    | Some model =>
        if decide (collection = collection' ∧ id = id') then Some model
        else lookup2 result collection' id'
    | None => lookup2 result collection' id'
    end.
Proof.
  unfold get_many_id, lookup2.
  destruct (models !! fqid_from_collection_and_id collection id) as [model |]; [| done].
  destruct (decide (collection = collection')) as [<- | Hc].
  - rewrite lookup_insert_eq. simpl. destruct (decide (id = id')) as [<- | Hid].
    + rewrite lookup_insert_eq. by rewrite decide_True.
    + rewrite lookup_insert_ne by done. rewrite decide_False by tauto.
      by destruct (result !! collection).
  - rewrite lookup_insert_ne by done. by rewrite decide_False by tauto.
Qed.

Lemma get_many_ids_spec collection ids (result : gmap string (gmap Z (gmap string V))) :
  get_many_result_ok fqid_from_collection_and_id models result →
  let result' := foldl (get_many_id fqid_from_collection_and_id models collection) result ids in
  get_many_result_ok fqid_from_collection_and_id models result'
  ∧ ∀ collection' id' model,
      lookup2 result' collection' id' = Some model
      ↔ lookup2 result collection' id' = Some model
        ∨ (collection' = collection ∧ id' ∈ ids
           ∧ models !! fqid_from_collection_and_id collection id' = Some model).
Proof.
  revert result. induction ids as [| id ids IH]; intros result Hok; simpl.
  - split; [done |]. intros c' id' model. rewrite elem_of_nil. tauto.
  - assert (get_many_result_ok fqid_from_collection_and_id models
              (get_many_id fqid_from_collection_and_id models collection result id)) as Hok1.
    { destruct Hok as [Hmodels Hne]. split.
      - intros c' id' model. rewrite get_many_id_lookup2.
        destruct (models !! fqid_from_collection_and_id collection id) eqn:Hm;
          [| by apply Hmodels].
        case_decide as Hd; [| by apply Hmodels]. destruct Hd as [<- <-]. by intros [= <-].
      - intros c' inner. unfold get_many_id.
        destruct (models !! fqid_from_collection_and_id collection id); [| by apply Hne].
        destruct (decide (collection = c')) as [<- | Hc].
        + rewrite lookup_insert_eq. intros [= <-]. apply insert_non_empty.
        + rewrite lookup_insert_ne by done. by apply Hne. }
    destruct (IH _ Hok1) as [Hok' Hchar]. split; [done |].
    intros c' id' model. rewrite Hchar, get_many_id_lookup2, elem_of_cons.
    destruct Hok as [Hmodels _].
    destruct (models !! fqid_from_collection_and_id collection id) as [m |] eqn:Hm.
    + case_decide as Hd.
      * destruct Hd as [<- <-]. split.
        -- intros [[= <-] | (_ & _ & ?)]; right; (split_and!; [done | by left | done])
           || (split_and!; [done | by left | congruence]).
        -- intros [Hold | (_ & _ & Hnew)]; left; [| congruence].
           apply Hmodels in Hold. congruence.
      * split; [intros [? | (? & ? & ?)]; [by left | right; by split_and!; [| right |]] |].
        intros [? | (-> & [-> | ?] & ?)]; [by left | tauto | right; by split_and!].
    + split; [intros [? | (? & ? & ?)]; [by left | right; by split_and!; [| right |]] |].
      intros [? | (-> & [-> | ?] & ?)]; [by left | congruence | right; by split_and!].
Qed.

Lemma get_many_requests_spec requests (result : gmap string (gmap Z (gmap string V))) :
  get_many_result_ok fqid_from_collection_and_id models result →
  let result' := foldl (get_many_request fqid_from_collection_and_id models) result requests in
  get_many_result_ok fqid_from_collection_and_id models result'
  ∧ ∀ collection id model,
      lookup2 result' collection id = Some model
      ↔ lookup2 result collection id = Some model
        ∨ ((∃ request, request ∈ requests ∧ gm_collection request = collection
                       ∧ id ∈ gm_ids request)
           ∧ models !! fqid_from_collection_and_id collection id = Some model).
Proof.
  revert result. induction requests as [| request requests IH]; intros result Hok; simpl.
  - split; [done |]. intros c id model. split; [by left |].
    intros [? | [(? & Hin & _) _]]; [done | by apply elem_of_nil in Hin].
  - unfold get_many_request at 2 4.
    destruct (get_many_ids_spec (gm_collection request) (gm_ids request) result Hok)
      as [Hok1 Hchar1].
    destruct (IH _ Hok1) as [Hok' Hchar]. split; [done |].
    intros c id model. rewrite Hchar, Hchar1. split.
    + intros [[? | (-> & ? & ?)] | [(r & Hin & ? & ?) ?]]; [by left | |].
      * right. split; [| done]. exists request. split_and!; [by left | done | done].
      * right. split; [| done]. exists r. split_and!; [by right | done | done].
    + intros [? | [(r & Hin & Hc & Hid) ?]]; [by left; left |].
      apply elem_of_cons in Hin as [-> | Hin].
      * left. right. by subst c.
      * right. split; [| done]. by exists r.
Qed.

(** X23.  The result of the in-memory [get_many] holds, under a
    collection and an id, the stored model of the fqid built from them,
    exactly when some request names the collection with the id and the
    model is stored; ids without a model are left out, and a collection
    none of whose requested ids has a model is not in the result at all. *)
Theorem memory_reader_get_many (requests : list GetManyRequestPart) :
  let result := reader_get_many fqid_from_collection_and_id models requests in
  (∀ collection id model,
     lookup2 result collection id = Some model
     ↔ (∃ request, request ∈ requests ∧ gm_collection request = collection
                   ∧ id ∈ gm_ids request)
       ∧ models !! fqid_from_collection_and_id collection id = Some model)
  ∧ (∀ collection inner, result !! collection = Some inner →
       ∃ id model, inner !! id = Some model)
  ∧ reader_get_many fqid_from_collection_and_id models [] = ∅.
Proof.
  intros result. subst result. unfold reader_get_many.
  destruct (get_many_requests_spec requests ∅) as [[_ Hne] Hchar].
  { split; [| by intros ? ?; rewrite lookup_empty].
    intros c id model. unfold lookup2. by rewrite lookup_empty. }
  split_and!; [| | done].
  - intros c id model. rewrite Hchar. unfold lookup2 at 1. rewrite lookup_empty. simpl.
    split; [intros [? | ?]; done | by right].
  - intros c inner Hinner. apply Hne in Hinner.
    destruct (map_choose_or_empty inner) as [? | ?]; done.
Qed.

(** X24.  When a model returned by [filter] has the field, [min] and
    [max] of the in-memory reader do what the builtin does on a non-empty
    list whose elements are exactly the values the returned models have
    for the field. *)
Theorem memory_reader_minmax_value (collection : Collection) (filter : Filter) (field : Field)
    (func : list V → Exception + V) :
  (∃ id model, reader_filter filter_models models collection filter !! id = Some model
               ∧ is_Some (model !! field)) →
  ∃ values,
    values ≠ []
    ∧ values = field_values filter_models models collection filter field
    ∧ minmax filter_models py_None models collection filter field func = func values
    ∧ ∀ x, x ∈ values
           ↔ ∃ id model,
               reader_filter filter_models models collection filter !! id = Some model
               ∧ model !! field = Some x.
Proof.
  intros (id & model & Hlookup & [x Hx]).
  exists (field_values filter_models models collection filter field).
  assert (field_values filter_models models collection filter field ≠ []) as Hne.
  { intros Hnil.
    pose proof (proj1 (field_values_nil filter_models models collection filter field) Hnil
                  id model Hlookup) as Hn.
    rewrite Hn in Hx. discriminate. }
  split_and!; [done | done | | intros y; apply field_values_elem].
  by destruct (minmax_cases filter_models py_None models collection filter field func)
    as [[? _] | [_ ->]].
Qed.

End MemoryReaderLookups.

Lemma memory_reader_minmax_value_witness :
  let models : gmap string (gmap string (option Z)) :=
    {["motion/1"%string := {["id"%string := Some 1; "number"%string := Some 7]};
      "motion/2"%string := {["id"%string := Some 2; "number"%string := Some 3]}]} in
  ∃ values,
    values ≠ []
    ∧ minmax by_collection None models "motion" () "number" min_of = min_of values.
Proof.
  intros models.
  destruct (memory_reader_minmax_value by_collection None models "motion" () "number" min_of)
    as (values & Hne & _ & Hvalue & _).
  - exists 1, {["id"%string := Some 1; "number"%string := Some 7]}.
    split; [by vm_compute | by eexists].
  - exists values. split; [exact Hne | exact Hvalue].
Defined.

(** X25.  In the reader over the read database a fqid is in exactly one of
    three states: it has no model, its model is alive or its model is
    deleted.  [model_exists] is true exactly when [is_alive] or
    [is_deleted] is, and these two are never both true. *)
Theorem sql_reader_status_exclusive (get_deleted_status : list Fqid → gmap string bool)
    (fqid : Fqid) :
  MigrationReaderImplementation.model_exists get_deleted_status fqid
  = MigrationReaderImplementation.is_alive get_deleted_status fqid
    || MigrationReaderImplementation.is_deleted get_deleted_status fqid
  ∧ (MigrationReaderImplementation.is_alive get_deleted_status fqid
     && MigrationReaderImplementation.is_deleted get_deleted_status fqid = false)
  ∧ (MigrationReaderImplementation.is_alive get_deleted_status fqid = true
     ↔ get_deleted_status [fqid] !! fqid = Some false)
  ∧ (MigrationReaderImplementation.is_deleted get_deleted_status fqid = true
     ↔ get_deleted_status [fqid] !! fqid = Some true).
Proof.
  unfold MigrationReaderImplementation.model_exists, MigrationReaderImplementation.is_alive,
    MigrationReaderImplementation.is_deleted.
  rewrite !bool_decide_eq_true.
  destruct (get_deleted_status [fqid] !! fqid) as [[|] |]; split_and!; try done.
Qed.

(** ** Runs of the pipeline on the empty database *)

(** Equations between closed terms, checked by evaluation. *)
Ltac vm_reflexivity :=
  lazymatch goal with
  | |- ?l = ?r => exact (@eq_refl _ r <: l = r)
  end.



Lemma insert_events_collectionfield_too_long_witness :
  let r := insert_events DemoRuns.long_request 1 JNull 7 empty_database in
  r.2 = inl InvalidFormat
  ∧ Db.events r.1 = [] ++ rows_from 1 (l_events_data DemoRuns.long_request_locals).
Proof.
  intros r.
  destruct (insert_events_collectionfield_too_long DemoRuns.long_request 1 JNull 7
              empty_database DemoRuns.long_request_locals)
    as (Hfail & _ & _ & _ & Hevents & _).
  - discriminate.
  - repeat constructor; vm_compute; discriminate.
  - vm_reflexivity.
  - refine (bool_decide_unpack
              (map_Forall (λ _ model, is_Some (model !! META_DELETED))
                 (l_models DemoRuns.long_request_locals)) _).
    vm_compute. exact I.
  - apply Exists_cons_hd. vm_compute. reflexivity.
  - split; [exact Hfail | exact Hevents].
Defined.

Lemma insert_events_model_without_meta_deleted_witness :
  let r := insert_events (WriterServices0 := DemoRuns.services_without_meta_deleted)
             DemoRuns.two_motions 1 JNull 7 empty_database in
  r.2 = inl KeyError ∧ Db.events r.1 = [].
Proof.
  intros r.
  destruct (insert_events_model_without_meta_deleted
              (WriterServices0 := DemoRuns.services_without_meta_deleted)
              DemoRuns.two_motions 1 JNull 7 empty_database
              DemoRuns.without_meta_deleted_locals)
    as (Hfail & _ & _ & _ & Hevents & _).
  - discriminate.
  - repeat constructor; vm_compute; discriminate.
  - vm_reflexivity.
  - exists "motion/1"%string, {["title"%string := JString "a"; META_POSITION := JInt 1]}.
    split; vm_reflexivity.
  - split; [exact Hfail | exact Hevents].
Defined.

Lemma insert_events_advances_id_sequences_witness :
  let r := insert_events DemoRuns.two_motions 1 JNull 7 empty_database in
  2 < sequence_at r.1 "motion".
Proof.
  intros r.
  destruct (insert_events_advances_id_sequences DemoRuns.two_motions 1 JNull 7 empty_database
              r.1 1 (l_modified_models DemoRuns.two_motions_locals)
              [[motion "1" "a"]; [motion "2" "b"]]) as (Hcreate & _).
  - vm_reflexivity.
  - vm_reflexivity.
  - refine (proj1 (Hcreate (motion "2" "b") "motion"%string 2 _ _ _)).
    + simpl. apply list_elem_of_further, list_elem_of_here.
    + reflexivity.
    + vm_reflexivity.
Defined.

Lemma insert_events_modified_models_witness :
  is_Some (l_modified_models DemoRuns.two_motions_locals !! "motion/2"%string).
Proof.
  destruct (insert_events_modified_models DemoRuns.two_motions 1 JNull 7 empty_database
              (insert_events DemoRuns.two_motions 1 JNull 7 empty_database).1 1
              (l_modified_models DemoRuns.two_motions_locals)
              [[motion "1" "a"]; [motion "2" "b"]]) as (Hdom & _).
  - vm_reflexivity.
  - vm_reflexivity.
  - apply Hdom. exists (motion "2" "b"). split; [| reflexivity].
    simpl. apply list_elem_of_further, list_elem_of_here.
Defined.

Lemma insert_events_links_witness :
  let r := insert_events DemoRuns.two_motions 1 JNull 7 empty_database in
  ∃ links, events_to_collectionfields r.1 = [] ++ links.
Proof.
  intros r.
  destruct (insert_events_links DemoRuns.two_motions 1 JNull 7 empty_database
              r.1 1 (l_modified_models DemoRuns.two_motions_locals)
              [[motion "1" "a"]; [motion "2" "b"]]) as (_ & _ & links & Hlinks & _).
  - apply NoDup_nil_2.
  - vm_reflexivity.
  - vm_reflexivity.
  - by exists links.
Defined.

(** Two requests that modify the same collectionfield: one row for it, at
    the new position, linked to both events. *)
Example insert_events_links_example :
  let r := insert_events DemoRuns.two_motions 1 JNull 7 empty_database in
  collectionfields r.1 = [mkCollectionfieldRow 1 "motion/title" 1]
  ∧ ev_id <$> Db.events r.1 = [1; 2]
  ∧ events_to_collectionfields r.1 = [(1, 1); (2, 1)]
  ∧ sequence_at r.1 "motion" = 3.
Proof. vm_compute. done. Qed.
